(** * Tabular model-free control: Monte Carlo, SARSA and Q-learning

    A shallow embedding of [q_td_learning/mc_td_and_qlearning.py].

    Numbers.  The program computes in numpy [float64]; the embedding
    computes in the exact rationals [Qc] (canonical fractions, Leibniz
    equality, executable), i.e. it describes the arithmetic the program
    approximates.  Rounding, [inf] and [nan] are outside the model: where
    numpy would produce [inf]/[nan] (a division by zero on an array entry)
    or Python would raise [ZeroDivisionError], the embedding fails.
    Where a claim speaks of an exact equality that rounding breaks, module
    [F64] repeats the computation in binary64 and the claim is settled
    there.

    Tables.  A numpy array of shape [(nS, nA)] is a [list (list Qc)], read
    with stdpp's list lookup and written with stdpp's list insert behind an
    explicit range check (numpy raises [IndexError] out of range).

    Indices.  States, actions, iteration counters and the bounds of
    [range(...)] are natural numbers.

    Effects.  The gym environment and numpy's global random generator are
    external, mutable collaborators.  They are bundled in a record [Sim]
    whose [world] is their joint hidden state; effectful functions live in
    a state-and-failure monad over that world. *)

From Stdlib Require Import QArith Qcanon Lqa.
From Stdlib Require Import Floats Uint63.
From stdpp Require Import base option list sets numbers.

Local Open Scope Qc_scope.
Set Warnings "-clear-no-such-hyp".

(** ** Exact arithmetic helpers *)

Definition Qc_of_nat (n : nat) : Qc := Qc_of_Z (Z.of_nat n).

(** Python's [x / y] on scalars raises [ZeroDivisionError] when [y] is
    zero; on numpy scalars it yields [inf] or [nan].  Both are failures of
    the exact model. *)
Definition py_div (x y : Qc) : option Qc :=
  if decide (y = 0) then None else Some (x / y).

Definition Qc_max (x y : Qc) : Qc := if decide (x ≤ y) then y else x.

Definition Qc_sum (l : list Qc) : Qc := foldr Qcplus 0 l.

(** ** numpy primitives used by the program *)

Abbreviation table := (list (list Qc)).

Definition np_zeros (n : nat) : list Qc := replicate n 0.
Definition np_ones (n : nat) : list Qc := replicate n 1.
Definition np_zeros2 (nS nA : nat) : table := replicate nS (np_zeros nA).
Definition np_ones2 (nS nA : nat) : table := replicate nS (np_ones nA).

(** [np.arange(n)] *)
Definition np_arange (n : nat) : list nat := seq 0 n.

(** [u ** k] on two vectors.  At its only call site both slices have the
    same length, so numpy's broadcasting rules never come into play. *)
Definition np_power (u : list Qc) (k : list nat) : list Qc :=
  zip_with Qcpower u k.

(** [np.dot(u, v)] on two vectors of the same length. *)
Definition np_dot (u v : list Qc) : Qc := Qc_sum (zip_with Qcmult u v).

(** [np.amax(row)]; raises [ValueError] on an empty row. *)
Definition np_amax (row : list Qc) : option Qc :=
  match row with
  | [] => None
  | x :: l => Some (foldl Qc_max x l)
  end.

(** [np.argwhere(row == m).flatten().tolist()]: the indices, in increasing
    order, whose entry equals [m] exactly. *)
Definition np_argwhere_eq (row : list Qc) (m : Qc) : list nat :=
  filter (λ i, row !! i = Some m) (seq 0 (length row)).

(** [np.argmax(row)]: the first index holding the maximum. *)
Definition np_argmax (row : list Qc) : option nat :=
  m ← np_amax row; head (np_argwhere_eq row m).

(** [T[s, a]] and [T[s, a] = v] with numpy's bounds check. *)
Definition tget (T : table) (s a : nat) : option Qc :=
  row ← T !! s; row !! a.

Definition tset (T : table) (s a : nat) (v : Qc) : option table :=
  row ← T !! s;
  if decide (a < length row)%nat then Some (<[s := <[a := v]> row]> T)
  else None.

(** Table shape [(nS, nA)]. *)
Definition shape (nS nA : nat) (T : table) : Prop :=
  length T = nS ∧ Forall (λ row, length row = nA) T.

(** [m] is the maximum of [row]: attained, and an upper bound. *)
Definition is_row_max (row : list Qc) (m : Qc) : Prop :=
  m ∈ row ∧ ∀ x, x ∈ row → x ≤ m.

(** Every row sums to one. *)
Definition row_stochastic (policy : table) : Prop :=
  Forall (λ row, Qc_sum row = 1) policy.

(** No entry is negative. *)
Definition nonnegative (policy : table) : Prop :=
  Forall (Forall (λ x, 0 ≤ x)) policy.

(** The size of the set of maximal actions: the number of entries of the
    row that equal the maximum. *)
Definition count_eq (m : Qc) (row : list Qc) : nat :=
  length (filter (λ x, x = m) row).

(** The row of the specification, which both the operator and the control
    loops write: the greedy share split over the maximal actions, on top
    of the exploration floor. *)
Definition greedy_row (row : list Qc) (m epsilon : Qc) (nA : nat) : list Qc :=
  let indices := np_argwhere_eq row m in
  (λ i, if bool_decide (i ∈ indices)
        then (1 - epsilon) / Qc_of_nat (length indices) + epsilon / Qc_of_nat nA
        else epsilon / Qc_of_nat nA) <$> seq 0 nA.

(** A [for i in range(n)] loop whose body may raise. *)
Definition for_range {A} (n : nat) (body : nat → A → option A) (init : A)
  : option A :=
  foldl (λ acc i, acc ≫= body i) (Some init) (seq 0 n).

(** ** Return calculator *)

(** One trajectory entry [(state, action, reward)]. *)
Definition triple := (nat * nat * Qc)%type.

Definition triple_state (ep : triple) : nat := ep.1.1.
Definition triple_action (ep : triple) : nat := ep.1.2.
Definition triple_reward (ep : triple) : Qc := ep.2.

Definition generate_returns (episode : list triple) (gamma : Qc) : list Qc :=
  let len_episode := length episode in
  let epi_returns := np_zeros len_episode in
  let power_vector := np_arange len_episode in
  let gamma_vector := (λ o, o * gamma) <$> np_ones len_episode in
  let reward_vector := triple_reward <$> episode in
  foldl (λ epi_returns i,
           <[i := np_dot (drop i reward_vector)
                    (np_power (drop i gamma_vector)
                       (take (len_episode - i) power_vector))]> epi_returns)
    epi_returns (seq 0 len_episode).

(** The return of the specification: the sum over [j >= i] of
    [gamma^(j-i) * reward[j]]. *)
Definition discounted_return (gamma : Qc) (rewards : list Qc) (i : nat) : Qc :=
  Qc_sum ((λ j, gamma ^ (j - i) * nth j rewards 0)
            <$> seq i (length rewards - i)).

(** ** Policy improvement operator *)

(** The loop [for i in range(nA)] of [epsilon_greedy_policy_improve]: the
    two candidate values were computed before the loop. *)
Definition improve_row (indices : list nat) (probability e : Qc)
    (nA state : nat) (new_policy : table) : option table :=
  for_range nA
    (λ i new_policy,
       if bool_decide (i ∈ indices) then tset new_policy state i probability
       else tset new_policy state i e)
    new_policy.

(** The body of the loop over the states. *)
Definition improve_state (Q_value : table) (nA : nat) (epsilon : Qc)
    (state : nat) (new_policy : table) : option table :=
  row ← Q_value !! state;
  m ← np_amax row;
  let indices := np_argwhere_eq row m in
  d ← py_div (1 - epsilon) (Qc_of_nat (length indices));
  e ← py_div epsilon (Qc_of_nat nA);
  let probability := d + e in
  improve_row indices probability e nA state new_policy.

Definition epsilon_greedy_policy_improve (Q_value : table) (nS nA : nat)
    (epsilon : Qc) : option table :=
  let new_policy :=
    fmap (M := list) (λ o, epsilon * o / Qc_of_nat nA) <$> np_ones2 nS nA in
  for_range nS (improve_state Q_value nA epsilon) new_policy.

(** The row rewrite that [td_sarsa] and [qlearning] both spell out in
    line: here the divisions are evaluated inside the loop, in the branch
    that needs them. *)
Definition policy_row_update (policy : table) (s_t1 : nat)
    (indices : list nat) (epsilon : Qc) (nA : nat) : option table :=
  for_range nA
    (λ i policy,
       if bool_decide (i ∈ indices) then
         d ← py_div (1 - epsilon) (Qc_of_nat (length indices));
         e ← py_div epsilon (Qc_of_nat nA);
         tset policy s_t1 i (d + e)
       else
         e ← py_div epsilon (Qc_of_nat nA);
         tset policy s_t1 i e)
    policy.

(** [epsilon = 1 / (t + 2)] *)
Definition glie_epsilon (t : nat) : Qc := 1 / Qc_of_nat (t + 2).

(** [np.ones((nS, nA)) / nA]; with [nA = 0] the array has no entry and
    nothing is divided. *)
Definition uniform_policy (nS nA : nat) : table :=
  fmap (M := list) (λ o, o / Qc_of_nat nA) <$> np_ones2 nS nA.

(** [np.argmax(Q_value, axis=1)] on an array of shape [(nS, nA)].  A list
    of rows does not record [nA] when it has no row, so it is passed along:
    with [nA = 0] numpy raises [ValueError] (argmax of an empty sequence),
    also when the array has no row at all. *)
Definition np_argmax_rows (nA : nat) (Q_value : table) : option (list nat) :=
  if decide (nA = 0%nat) then None else mapM np_argmax Q_value.

(** ** Monte Carlo evaluation of one episode *)

(** The body guarded by [if visit_flag[state, action] == 0]: the
    incremental-mean update, followed by the expression statement
    [visit_flag[state, action] == 1], a comparison whose value is dropped. *)
Definition mc_update (Q_value n_visits visit_flag : table)
    (state action : nat) (G : Qc) : option (table * table) :=
  cnt ← tget n_visits state action;
  n_visits ← tset n_visits state action (cnt + 1);
  q ← tget Q_value state action;
  cnt ← tget n_visits state action;
  step ← py_div (G - q) cnt;
  Q_value ← tset Q_value state action (q + step);
  _ ← tget visit_flag state action;
  Some (Q_value, n_visits).

Definition mc_visit (episode : list triple) (returns : list Qc)
    (visit_flag : table) (i : nat) (tables : table * table)
  : option (table * table) :=
  let '(Q_value, n_visits) := tables in
  ep ← episode !! i;
  let state := triple_state ep in
  let action := triple_action ep in
  flag ← tget visit_flag state action;
  if decide (flag = 0) then
    G ← returns !! i;
    mc_update Q_value n_visits visit_flag state action G
  else Some (Q_value, n_visits).

(** Everything of [mc_policy_evaluation] after the episode was sampled. *)
Definition mc_evaluate_episode (nS nA : nat) (episode : list triple)
    (Q_value n_visits : table) (gamma : Qc) : option (table * table) :=
  let returns := generate_returns episode gamma in
  let visit_flag := np_zeros2 nS nA in
  for_range (length episode) (mc_visit episode returns visit_flag)
    (Q_value, n_visits).

(** The first-visit rule of the documentation, to compare with: the flag
    is set once the pair was updated. *)
Definition first_visit_step (episode : list triple) (returns : list Qc)
    (i : nat) (st : table * table * table) : option (table * table * table) :=
  let '(Q_value, n_visits, visit_flag) := st in
  ep ← episode !! i;
  let state := triple_state ep in
  let action := triple_action ep in
  flag ← tget visit_flag state action;
  if decide (flag = 0) then
    G ← returns !! i;
    '(Q_value, n_visits) ←
      mc_update Q_value n_visits visit_flag state action G;
    visit_flag ← tset visit_flag state action 1;
    Some (Q_value, n_visits, visit_flag)
  else Some (Q_value, n_visits, visit_flag).

Definition first_visit_evaluate (nS nA : nat) (episode : list triple)
    (Q_value n_visits : table) (gamma : Qc) : option (table * table) :=
  let returns := generate_returns episode gamma in
  fst <$> for_range (length episode) (first_visit_step episode returns)
            (Q_value, n_visits, np_zeros2 nS nA).

(** The incremental-mean update applied [n] times to one pair with the
    same return [G]. *)
Definition mc_update_repeat (n : nat) (visit_flag : table) (state action : nat)
    (G : Qc) (tables : table * table) : option (table * table) :=
  Nat.iter n
    (λ acc, '(Q_value, n_visits) ← acc;
            mc_update Q_value n_visits visit_flag state action G)
    (Some tables).

(** How often the pair [(s, a)] occurs in an episode. *)
Definition occurrences (s a : nat) (episode : list triple) : nat :=
  length (filter (λ ep, triple_state ep = s ∧ triple_action ep = a) episode).

(** ** One-step temporal-difference updates *)

(** [Q[s,a] = Q[s,a] + alpha * (reward + gamma * Q[s',a'] - Q[s,a])] *)
Definition sarsa_update (Q_value : table) (s_t1 a_t1 : nat) (reward : Qc)
    (s_next a_next : nat) (gamma alpha : Qc) : option table :=
  q ← tget Q_value s_t1 a_t1;
  q_next ← tget Q_value s_next a_next;
  tset Q_value s_t1 a_t1 (q + alpha * (reward + gamma * q_next - q)).

(** [max_action = np.amax(Q[s']);
     Q[s,a] = Q[s,a] + alpha * (reward + gamma * max_action - Q[s,a])] *)
Definition qlearning_update (Q_value : table) (s_t1 action : nat) (reward : Qc)
    (s_next : nat) (gamma alpha : Qc) : option table :=
  row_next ← Q_value !! s_next;
  max_action ← np_amax row_next;
  q ← tget Q_value s_t1 action;
  tset Q_value s_t1 action (q + alpha * (reward + gamma * max_action - q)).

(** The policy refresh shared by both loops: recompute [epsilon] from the
    step counter, find the maximal actions of the freshly updated row and
    rewrite that one policy row. *)
Definition refresh_policy_row (Q_value policy : table) (s_t1 nA t : nat)
  : option table :=
  let epsilon := glie_epsilon t in
  row ← Q_value !! s_t1;
  m ← np_amax row;
  let indices := np_argwhere_eq row m in
  policy_row_update policy s_t1 indices epsilon nA.

(** ** The external collaborators *)

(** The gym environment ([env.nS], [env.nA], [env.reset()], [env.step(a)],
    whose fourth result [info] the program ignores) and
    [np.random.choice(a, p=...)].  Each call reads and advances the hidden
    [world]; [None] stands for a raised exception. *)
Record Sim := {
  world : Type;
  env_nS : nat;
  env_nA : nat;
  env_reset : world → option (nat * world);
  env_step : nat → world → option (nat * Qc * bool * world);
  random_choice : list nat → list Qc → world → option (nat * world);
}.

(** State-and-failure monad over the world. *)
Definition M (W A : Type) : Type := W → option (A * W).

Definition ret {W A} (a : A) : M W A := λ w, Some (a, w).

Definition bind {W A B} (m : M W A) (k : A → M W B) : M W B :=
  λ w, match m w with
       | Some (a, w') => k a w'
       | None => None
       end.

Definition lift {W A} (o : option A) : M W A :=
  λ w, match o with Some a => Some (a, w) | None => None end.

Declare Scope sim_scope.
Delimit Scope sim_scope with sim.
Notation "'let*' x := m 'in' k" := (bind m (λ x, k))
  (at level 10, x name, m at level 100, k at level 200, only parsing)
  : sim_scope.
Notation "'let*' ' p := m 'in' k" := (bind m (λ x, match x with p => k end))
  (at level 10, p pattern, m at level 100, k at level 200, only parsing)
  : sim_scope.

(** A [for t in range(n)] loop over a loop state, in the monad. *)
Fixpoint for_steps {W A} (body : nat → A → M W A) (t n : nat) (st : A)
  : M W A :=
  match n with
  | O => ret st
  | S n' => bind (body t st) (for_steps body (S t) n')
  end.

(** The variables the loop of [td_sarsa] carries from one iteration to
    the next, and those of [qlearning]. *)
Record sarsa_state := {
  sarsa_Q : table;
  sarsa_policy : table;
  sarsa_s : nat;
  sarsa_a : nat;
}.

Record qlearning_state := {
  ql_Q : table;
  ql_policy : table;
  ql_s : nat;
}.

Global Instance sarsa_state_eq_dec : EqDecision sarsa_state.
Proof. solve_decision. Defined.
Global Instance qlearning_state_eq_dec : EqDecision qlearning_state.
Proof. solve_decision. Defined.

Section Engine.
Context (E : Sim).
Local Open Scope sim_scope.

Abbreviation W := (world E).

Definition sample_action (policy : table) (state : nat) : M W nat :=
  let* row := lift (policy !! state) in
  let nA := length row in
  let all_actions := np_arange nA in
  random_choice E all_actions row.

Definition take_one_step (policy : table) (state : nat)
  : M W (nat * Qc * nat * bool) :=
  let* action := sample_action policy state in
  let* '(new_state, reward, done) := env_step E action in
  ret (action, reward, new_state, done).

(** The loop of [generate_episode]; [remaining] counts the iterations
    [range(max_steps)] has left. *)
Fixpoint episode_loop (policy : table) (remaining : nat)
    (episode : list triple) (curr_state : nat) : M W (list triple) :=
  match remaining with
  | O => ret episode
  | S remaining' =>
      let* '(a, r, next, done) := take_one_step policy curr_state in
      let episode := episode ++ [(curr_state, a, r)] in
      if (done : bool) then ret episode
      else episode_loop policy remaining' episode next
  end.

Definition generate_episode (policy : table) (max_steps : nat)
  : M W (list triple) :=
  let* curr_state := env_reset E in
  episode_loop policy max_steps [] curr_state.

Definition mc_policy_evaluation (policy Q_value n_visits : table)
    (gamma : Qc) : M W (table * table) :=
  let nS := env_nS E in
  let nA := env_nA E in
  let* episode := generate_episode policy 500 in
  lift (mc_evaluate_episode nS nA episode Q_value n_visits gamma).

(** One iteration of the loop of [mc_glie]. *)
Definition mc_glie_step (gamma : Qc) (k : nat) (st : table * table * table)
  : M W (table * table * table) :=
  let '(Q_value, n_visits, policy) := st in
  let nS := env_nS E in
  let nA := env_nA E in
  let* '(Q_value, n_visits) :=
    mc_policy_evaluation policy Q_value n_visits gamma in
  let epsilon := glie_epsilon k in
  let* policy :=
    lift (epsilon_greedy_policy_improve Q_value nS nA epsilon) in
  ret (Q_value, n_visits, policy).

Definition mc_glie (iterations : nat) (gamma : Qc) : M W (table * list nat) :=
  let nS := env_nS E in
  let nA := env_nA E in
  let Q_value := np_zeros2 nS nA in
  let n_visits := np_zeros2 nS nA in
  let policy := uniform_policy nS nA in
  let* '(Q_value, _, _) :=
    for_steps (mc_glie_step gamma) 0 iterations (Q_value, n_visits, policy) in
  let* det_policy := lift (np_argmax_rows nA Q_value) in
  ret (Q_value, det_policy).

(** One iteration of the loop of [td_sarsa]. *)
Definition sarsa_step (gamma alpha : Qc) (t : nat) (st : sarsa_state)
  : M W sarsa_state :=
  let nA := env_nA E in
  let '{| sarsa_Q := Q_value; sarsa_policy := policy;
          sarsa_s := s_t1; sarsa_a := a_t1 |} := st in
  let* '(s_next, reward, done) := env_step E a_t1 in
  let* a_next := sample_action policy s_next in
  let* Q_value :=
    lift (sarsa_update Q_value s_t1 a_t1 reward s_next a_next gamma alpha) in
  let* policy := lift (refresh_policy_row Q_value policy s_t1 nA t) in
  if (done : bool) then
    let* s_t1 := env_reset E in
    let* a_t1 := sample_action policy s_t1 in
    ret {| sarsa_Q := Q_value; sarsa_policy := policy;
           sarsa_s := s_t1; sarsa_a := a_t1 |}
  else
    ret {| sarsa_Q := Q_value; sarsa_policy := policy;
           sarsa_s := s_next; sarsa_a := a_next |}.

Definition td_sarsa (iterations : nat) (gamma alpha : Qc)
  : M W (table * list nat) :=
  let nS := env_nS E in
  let nA := env_nA E in
  let Q_value := np_zeros2 nS nA in
  let policy := uniform_policy nS nA in
  let* s_t1 := env_reset E in
  let* a_t1 := sample_action policy s_t1 in
  let* st :=
    for_steps (sarsa_step gamma alpha) 0 iterations
      {| sarsa_Q := Q_value; sarsa_policy := policy;
         sarsa_s := s_t1; sarsa_a := a_t1 |} in
  let* det_policy := lift (np_argmax_rows nA (sarsa_Q st)) in
  ret (sarsa_Q st, det_policy).

(** One iteration of the loop of [qlearning]. *)
Definition qlearning_step (gamma alpha : Qc) (t : nat) (st : qlearning_state)
  : M W qlearning_state :=
  let nA := env_nA E in
  let '{| ql_Q := Q_value; ql_policy := policy; ql_s := s_t1 |} := st in
  let* action := sample_action policy s_t1 in
  let* '(s_next, reward, done) := env_step E action in
  let* Q_value :=
    lift (qlearning_update Q_value s_t1 action reward s_next gamma alpha) in
  let* policy := lift (refresh_policy_row Q_value policy s_t1 nA t) in
  if (done : bool) then
    let* s_t1 := env_reset E in
    ret {| ql_Q := Q_value; ql_policy := policy; ql_s := s_t1 |}
  else
    ret {| ql_Q := Q_value; ql_policy := policy; ql_s := s_next |}.

Definition qlearning (iterations : nat) (gamma alpha : Qc)
  : M W (table * list nat) :=
  let nS := env_nS E in
  let nA := env_nA E in
  let Q_value := np_zeros2 nS nA in
  let policy := uniform_policy nS nA in
  let* s_t1 := env_reset E in
  let* st :=
    for_steps (qlearning_step gamma alpha) 0 iterations
      {| ql_Q := Q_value; ql_policy := policy; ql_s := s_t1 |} in
  let* det_policy := lift (np_argmax_rows nA (ql_Q st)) in
  ret (ql_Q st, det_policy).

(** The first [n] steps taken from [curr_state] under [policy] with no
    early exit, each with its [done] flag: the yardstick against which
    the length of an episode is stated. *)
Fixpoint steps_taken (policy : table) (n : nat) (curr_state : nat)
  : M W (list (triple * bool)) :=
  match n with
  | O => ret []
  | S n' =>
      let* '(a, r, next, done) := take_one_step policy curr_state in
      let* rest := steps_taken policy n' next in
      ret (((curr_state, a, r), done) :: rest)
  end.

End Engine.

(** ** A replayed environment *)

(** A concrete instance to run the engine on: the environment replays a
    recorded list of transitions, and [np.random.choice] replays a
    recorded list of draws, accepting a draw only if the call is legal
    ([a] and [p] have the same size, no probability is negative and the
    probabilities sum to one: [np.random.choice] raises [ValueError]
    otherwise) and the drawn action has positive probability. *)
Record replay_world := {
  rw_start : nat;
  rw_transitions : list (nat * Qc * bool);
  rw_draws : list nat;
}.

Global Instance replay_world_eq_dec : EqDecision replay_world.
Proof. solve_decision. Defined.

Definition replay_reset (w : replay_world) : option (nat * replay_world) :=
  Some (rw_start w, w).

Definition replay_step (nA : nat) (a : nat) (w : replay_world)
  : option (nat * Qc * bool * replay_world) :=
  match rw_transitions w with
  | tr :: rest =>
      if decide (a < nA)%nat then
        Some (tr, {| rw_start := rw_start w; rw_transitions := rest;
                     rw_draws := rw_draws w |})
      else None
  | [] => None
  end.

Definition replay_choice (a : list nat) (p : list Qc) (w : replay_world)
  : option (nat * replay_world) :=
  match rw_draws w with
  | c :: rest =>
      x ← p !! c;
      if bool_decide (length a = length p ∧ Forall (λ y, 0 ≤ y) p ∧
                      Qc_sum p = 1 ∧ 0 < x ∧ c ∈ a) then
        Some (c, {| rw_start := rw_start w;
                    rw_transitions := rw_transitions w; rw_draws := rest |})
      else None
  | [] => None
  end.

Definition replay_sim (nS nA : nat) : Sim := {|
  world := replay_world;
  env_nS := nS;
  env_nA := nA;
  env_reset := replay_reset;
  env_step := replay_step nA;
  random_choice := replay_choice;
|}.

(** ** Concrete inputs *)

(** Fractions. *)
Definition frac (a : Z) (b : positive) : Qc := Q2Qc (a # b).

(** An episode that visits the pair [(2, 1)] twice, and a world that
    produces it: the environment starts in state 2, stays there with
    reward 1, then ends the episode with reward 3; both draws are
    action 1. *)
Definition revisit_episode : list triple :=
  [(2%nat, 1%nat, frac 1 1); (2%nat, 1%nat, frac 3 1)].

Definition revisit_world : replay_world := {|
  rw_start := 2;
  rw_transitions := [(2%nat, frac 1 1, false); (2%nat, frac 3 1, true)];
  rw_draws := [1%nat; 1%nat];
|}.

(** A Q table whose row for state 1 is not uniform, and one transition
    [0 --a=1, r=1--> 1] to run a single step of either loop on. *)
Definition demo_Q : table := [[0; 0]; [1; frac 2 1]; [0; 0]].

Definition demo_sarsa_state : sarsa_state :=
  {| sarsa_Q := demo_Q; sarsa_policy := uniform_policy 3 2;
     sarsa_s := 0; sarsa_a := 1 |}.

Definition demo_ql_state : qlearning_state :=
  {| ql_Q := demo_Q; ql_policy := uniform_policy 3 2; ql_s := 0 |}.

Definition demo_world (done : bool) (draws : list nat) : replay_world :=
  {| rw_start := 0; rw_transitions := [(1%nat, 1, done)]; rw_draws := draws |}.

Definition demo_policy' : table :=
  [[frac 1 4; frac 3 4]; [frac 1 2; frac 1 2]; [frac 1 2; frac 1 2]].

(** The states the demo step ends in: SARSA when the episode goes on and
    when it is done, Q-learning when it is done. *)
Definition demo_sarsa_carry : sarsa_state :=
  {| sarsa_Q := [[0; frac 19 100]; [1; frac 2 1]; [0; 0]];
     sarsa_policy := demo_policy'; sarsa_s := 1; sarsa_a := 0 |}.

Definition demo_sarsa_reset : sarsa_state :=
  {| sarsa_Q := [[0; frac 19 100]; [1; frac 2 1]; [0; 0]];
     sarsa_policy := demo_policy'; sarsa_s := 0; sarsa_a := 1 |}.

Definition demo_ql_reset : qlearning_state :=
  {| ql_Q := [[0; frac 28 100]; [1; frac 2 1]; [0; 0]];
     ql_policy := demo_policy'; ql_s := 0 |}.

Definition demo_world_end (draws : list nat) : replay_world :=
  {| rw_start := 0; rw_transitions := []; rw_draws := draws |}.

Definition revisit_world_end : replay_world :=
  {| rw_start := 2; rw_transitions := []; rw_draws := [] |}.

(** The four-step episode of the docstring of [generate_returns]. *)
Definition docstring_episode : list triple :=
  [(0%nat, 1%nat, frac 1 1); (4%nat, 2%nat, frac (-1) 1);
   (6%nat, 3%nat, frac 0 1); (8%nat, 0%nat, frac 2 1)].

(** The row with a three-way tie. *)
Definition tie_Q : table := [[frac 3 1; frac 3 1; frac 1 1; frac 3 1]].
Definition tie_policy : table :=
  [[frac 19 60; frac 19 60; frac 1 20; frac 19 60]].

(** The two steps the environment takes from [revisit_world]. *)
Definition revisit_steps : list (triple * bool) :=
  [((2%nat, 1%nat, frac 1 1), false); ((2%nat, 1%nat, frac 3 1), true)].

(** ** Evaluation and rendering of a fixed policy *)

(** [test_performance] and [render_single] follow a deterministic policy:
    an array of shape [(nS)] holding one action per state, i.e. the
    [det_policy] the control loops return.  What they print is what the
    embedding returns. *)

Section Glue.
Context (E : Sim).
Local Open Scope sim_scope.

(** The inner loop of [test_performance]: at most [remaining] steps from
    [state]; the reward of the step that reports [done], and of no other
    step, is added to [sum_returns]. *)
Fixpoint performance_episode (policy : list nat) (remaining : nat)
    (state : nat) (sum_returns : Qc) : M (world E) Qc :=
  match remaining with
  | O => ret sum_returns
  | S remaining' =>
      let* action := lift (policy !! state) in
      let* '(state, reward, done) := env_step E action in
      if (done : bool) then ret (sum_returns + reward)
      else performance_episode policy remaining' state sum_returns
  end.

(** [test_performance]; the result is the percentage it prints (before
    the two-decimal formatting), [sum_returns / nb_episodes * 100]. *)
Definition test_performance (policy : list nat) (nb_episodes max_steps : nat)
  : M (world E) Qc :=
  let sum_returns := 0 in
  let* sum_returns :=
    for_steps
      (λ i sum_returns,
         let* state := env_reset E in
         performance_episode policy max_steps state sum_returns)
      0 nb_episodes sum_returns in
  let* rate := lift (py_div sum_returns (Qc_of_nat nb_episodes)) in
  ret (rate * Qc_of_nat 100).

(** The loop of [render_single].  [render] stands for [env.render()]
    (followed, inside the loop, by the quarter-second sleep).  The local
    [done] is unbound until the first step has run: [None]. *)
Fixpoint render_loop (render : M (world E) ()) (policy : list nat)
    (remaining : nat) (ob : nat) (episode_reward : Qc) (done : option bool)
  : M (world E) (Qc * option bool) :=
  match remaining with
  | O => ret (episode_reward, done)
  | S remaining' =>
      let* _ := render in
      let* a := lift (policy !! ob) in
      let* '(ob, rew, done) := env_step E a in
      let episode_reward := episode_reward + rew in
      if (done : bool) then ret (episode_reward, Some true)
      else render_loop render policy remaining' ob episode_reward (Some false)
  end.

(** [render_single]; the result is the message it prints: [Some r] for
    "Episode reward: r", [None] for "The agent didn't reach a terminal
    state".  Reading the unbound [done] raises [NameError]. *)
Definition render_single (render : M (world E) ()) (policy : list nat)
    (max_steps : nat) : M (world E) (option Qc) :=
  let episode_reward := 0 in
  let* ob := env_reset E in
  let* '(episode_reward, done) :=
    render_loop render policy max_steps ob episode_reward None in
  let* _ := render in
  let* done := lift done in
  if negb done then ret None else ret (Some episode_reward).

End Glue.

(** ** Vocabulary for the Monte Carlo evaluation *)

(** The returns observed at the occurrences of the pair [(s, a)], given
    the episode zipped with its return vector. *)
Definition visit_returns (s a : nat) (visits : list (triple * Qc)) : list Qc :=
  (filter (λ v, triple_state v.1 = s ∧ triple_action v.1 = a) visits).*2.

(** Every pair of the episode indexes a table of shape [(nS, nA)]. *)
Definition in_range (nS nA : nat) (episode : list triple) : Prop :=
  Forall (λ ep, (triple_state ep < nS)%nat ∧ (triple_action ep < nA)%nat)
    episode.

(** ** Vocabulary for the control loops *)

(** [det_policy] is greedy for [Q_value]: one action per row, the first
    index at which the row attains its maximum. *)
Definition greedy_for (Q_value : table) (det_policy : list nat) : Prop :=
  length det_policy = length Q_value ∧
  ∀ s a, det_policy !! s = Some a →
    ∃ row m, Q_value !! s = Some row ∧ row !! a = Some m ∧
             is_row_max row m ∧ ∀ j, (j < a)%nat → row !! j ≠ Some m.

(** Every entry of the table lies in [[lo, hi]]. *)
Definition table_within (lo hi : Qc) (T : table) : Prop :=
  Forall (Forall (λ x, lo ≤ x ∧ x ≤ hi)) T.

(** Every entry of the table is positive. *)
Definition positive (policy : table) : Prop :=
  Forall (Forall (λ x, 0 < x)) policy.

(** Every reward the environment hands out lies in [[rmin, rmax]]. *)
Definition rewards_within (E : Sim) (rmin rmax : Qc) : Prop :=
  ∀ a w s r done w',
    env_step E a w = Some (s, r, done, w') → rmin ≤ r ∧ r ≤ rmax.

(** Only the step that ends an episode is rewarded, as on the frozen
    lake. *)
Definition terminal_rewards_only (E : Sim) : Prop :=
  ∀ a w s r done w',
    env_step E a w = Some (s, r, done, w') → done = false → r = 0.

(** ** A corridor *)

(** A second concrete environment, a frozen lake of one row and no hole:
    states [0 .. n-1], action [1] steps right, action [0] steps left, and
    reaching the right end pays reward [1] and ends the episode.  Draws
    are replayed as in [replay_choice]. *)
Record corridor_world := {
  cw_pos : nat;
  cw_draws : list nat;
}.

Global Instance corridor_world_eq_dec : EqDecision corridor_world.
Proof. solve_decision. Defined.

Definition corridor_reset (w : corridor_world)
  : option (nat * corridor_world) :=
  Some (0%nat, {| cw_pos := 0; cw_draws := cw_draws w |}).

Definition corridor_step (n : nat) (a : nat) (w : corridor_world)
  : option (nat * Qc * bool * corridor_world) :=
  if decide (a < 2)%nat then
    let pos := if decide (a = 1%nat) then Nat.min (S (cw_pos w)) (n - 1)
               else pred (cw_pos w) in
    let done := bool_decide (pos = (n - 1)%nat) in
    Some (pos, if done then 1 else 0, done,
          {| cw_pos := pos; cw_draws := cw_draws w |})
  else None.

Definition corridor_choice (a : list nat) (p : list Qc) (w : corridor_world)
  : option (nat * corridor_world) :=
  match cw_draws w with
  | c :: rest =>
      x ← p !! c;
      if bool_decide (length a = length p ∧ Forall (λ y, 0 ≤ y) p ∧
                      Qc_sum p = 1 ∧ 0 < x ∧ c ∈ a) then
        Some (c, {| cw_pos := cw_pos w; cw_draws := rest |})
      else None
  | [] => None
  end.

Definition corridor_sim (n : nat) : Sim := {|
  world := corridor_world;
  env_nS := n;
  env_nA := 2;
  env_reset := corridor_reset;
  env_step := corridor_step n;
  random_choice := corridor_choice;
|}.

(** A walker at the left end with four draws of "right" in store. *)
Definition corridor_start : corridor_world :=
  {| cw_pos := 0; cw_draws := [1%nat; 1%nat; 1%nat; 1%nat] |}.

(** The tables [mc_policy_evaluation] leaves after [revisit_episode]. *)
Definition revisit_Q : table := [[0; 0]; [0; 0]; [0; frac 11 4]].
Definition revisit_N : table := [[0; 0]; [0; 0]; [0; frac 2 1]].

(** What two iterations of [qlearning] and one of [mc_glie] learn in the
    corridor of three states from [corridor_start]. *)
Definition corridor_ql_Q : table := [[0; 0]; [0; frac 1 10]; [0; 0]].
Definition corridor_mc_Q : table := [[0; frac 9 10]; [0; 1]; [0; 0]].

(** The policy that always steps right. *)
Definition go_right : list nat := [1%nat; 1%nat; 1%nat].

(** * The program's arithmetic in binary64 *)

(** Everything above computes in exact rationals.  The program computes in
    IEEE 754 binary64: its tables are numpy arrays of [float64] and its
    scalars Python floats.  Module [F64] repeats, over Rocq's primitive
    floats (binary64, rounding to nearest even), the two computations whose
    claims speak of an exact equality: the incremental-mean update of
    [mc_policy_evaluation] and [epsilon_greedy_policy_improve]. *)
Module F64.

Abbreviation table := (list (list float)).

(** A Python [int] turned into a float, as [/] does with an [int]
    operand (exact below [2^53]). *)
Definition of_nat (n : nat) : float :=
  PrimFloat.of_uint63 (Uint63.of_Z (Z.of_nat n)).

(** Python's [x / y] on floats raises [ZeroDivisionError] when [y] is
    zero. *)
Definition py_div (x y : float) : option float :=
  if (y =? 0)%float then None else Some (x / y)%float.

(** The rational number a finite float stands for (zero for the
    infinities and NaN). *)
Definition exact (x : float) : Qc :=
  match Prim2SF x with
  | S754_finite s m e =>
      Q2Qc ((if s then -1 else 1) * (Zpos m # 1) * Qpower (2 # 1) e)
  | _ => 0
  end.

(** The entries of a row added up in binary64, from left to right. *)
Definition np_sum (row : list float) : float := foldl PrimFloat.add 0%float row.

Definition np_ones2 (nS nA : nat) : table := replicate nS (replicate nA 1%float).

(** numpy's maximum: a NaN operand wins. *)
Definition maximum (x y : float) : float :=
  if is_nan x then x else if is_nan y then y
  else if (x <=? y)%float then y else x.

(** [np.amax(row)]; raises [ValueError] on an empty row. *)
Definition np_amax (row : list float) : option float :=
  match row with
  | [] => None
  | x :: l => Some (foldl maximum x l)
  end.

(** [np.argwhere(row == m).flatten().tolist()], with the [==] of
    binary64. *)
Definition np_argwhere_eq (row : list float) (m : float) : list nat :=
  filter (λ i, (λ x, (x =? m)%float) <$> row !! i = Some true)
    (seq 0 (length row)).

(** [T[s, a]] and [T[s, a] = v] with numpy's bounds check. *)
Definition tget (T : table) (s a : nat) : option float :=
  row ← T !! s; row !! a.

Definition tset (T : table) (s a : nat) (v : float) : option table :=
  row ← T !! s;
  if decide (a < length row)%nat then Some (<[s := <[a := v]> row]> T)
  else None.

(** [epsilon = 1 / (t + 2)] *)
Definition glie_epsilon (t : nat) : float := (1 / of_nat (t + 2))%float.

(** [epsilon_greedy_policy_improve], statement by statement as in the
    exact model. *)
Definition improve_row (indices : list nat) (probability e : float)
    (nA state : nat) (new_policy : table) : option table :=
  for_range nA
    (λ i new_policy,
       if bool_decide (i ∈ indices) then tset new_policy state i probability
       else tset new_policy state i e)
    new_policy.

Definition improve_state (Q_value : table) (nA : nat) (epsilon : float)
    (state : nat) (new_policy : table) : option table :=
  row ← Q_value !! state;
  m ← np_amax row;
  let indices := np_argwhere_eq row m in
  d ← py_div (1 - epsilon)%float (of_nat (length indices));
  e ← py_div epsilon (of_nat nA);
  let probability := (d + e)%float in
  improve_row indices probability e nA state new_policy.

Definition epsilon_greedy_policy_improve (Q_value : table) (nS nA : nat)
    (epsilon : float) : option table :=
  let new_policy :=
    fmap (M := list) (λ o, (epsilon * o / of_nat nA)%float)
      <$> np_ones2 nS nA in
  for_range nS (improve_state Q_value nA epsilon) new_policy.

(** Every row sums to one, the sum of the stored entries taken
    exactly. *)
Definition row_stochastic (policy : table) : Prop :=
  Forall (λ row, Qc_sum (exact <$> row) = 1) policy.

(** The update guarded by [if visit_flag[state, action] == 0] in
    [mc_policy_evaluation].  All operands are numpy [float64] scalars,
    whose division does not raise. *)
Definition mc_update (Q_value n_visits visit_flag : table)
    (state action : nat) (G : float) : option (table * table) :=
  cnt ← tget n_visits state action;
  n_visits ← tset n_visits state action (cnt + 1)%float;
  q ← tget Q_value state action;
  cnt ← tget n_visits state action;
  Q_value ← tset Q_value state action (q + (G - q) / cnt)%float;
  _ ← tget visit_flag state action;
  Some (Q_value, n_visits).

(** The update applied [n] times to one pair with the same return [G]. *)
Definition mc_update_repeat (n : nat) (visit_flag : table)
    (state action : nat) (G : float) (tables : table * table)
  : option (table * table) :=
  Nat.iter n
    (λ acc, '(Q_value, n_visits) ← acc;
            mc_update Q_value n_visits visit_flag state action G)
    (Some tables).

End F64.

(** The policy [mc_glie] derives from [revisit_Q] at iteration [k = 1],
    where [epsilon = 1/3]. *)
Definition revisit_policy : table :=
  [[frac 1 2; frac 1 2]; [frac 1 2; frac 1 2]; [frac 1 6; frac 5 6]].

(** In binary64: the policy row for a Q row with a single maximum, two
    actions and [epsilon = 1/11] (GLIE iteration [k = 9]), as the program
    stores it. *)
Definition f64_greedy_policy : F64.table :=
  [[0x1.e8ba2e8ba2e8bp-1%float; 0x1.745d1745d1746p-5%float]].

(** * Proofs *)

(** Closed goals over concrete tables: decide them by evaluation. *)
Ltac by_evaluation := apply (bool_decide_eq_true_1 _); vm_compute; reflexivity.

(** Closed goals over binary64 tables: evaluate both sides. *)
Ltac by_float_evaluation := vm_compute; reflexivity.

(** ** Loops that fill an array *)

Lemma foldl_insert_seq_prefix {A} (f : nat → A) (l : list A) (k : nat) :
  (k ≤ length l)%nat →
  foldl (λ acc i, <[i := f i]> acc) l (seq 0 k) = (f <$> seq 0 k) ++ drop k l.
Proof.
  induction k as [|k IH]; intros Hk; [done|].
  rewrite seq_S, foldl_app, IH by lia. simpl.
  destruct (lookup_lt_is_Some_2 l k) as [x Hx]; [lia|].
  rewrite (drop_S _ _ _ Hx), fmap_app. simpl.
  rewrite insert_app_r_alt by (rewrite length_fmap, length_seq; lia).
  rewrite length_fmap, length_seq, Nat.sub_diag. simpl.
  by rewrite <-app_assoc.
Qed.

Lemma foldl_insert_seq {A} (f : nat → A) (l : list A) (n : nat) :
  length l = n →
  foldl (λ acc i, <[i := f i]> acc) l (seq 0 n) = f <$> seq 0 n.
Proof.
  intros <-. rewrite foldl_insert_seq_prefix by done.
  by rewrite drop_all, app_nil_r.
Qed.

Lemma for_range_S {A} (n : nat) (body : nat → A → option A) (init : A) :
  for_range (S n) body init = for_range n body init ≫= body n.
Proof. unfold for_range. by rewrite seq_S, foldl_app. Qed.

(** ** Return calculator *)

Lemma generate_returns_unfold (episode : list triple) (gamma : Qc) :
  generate_returns episode gamma =
  (λ i, np_dot (drop i (triple_reward <$> episode))
          ((λ k, gamma ^ k) <$> seq 0 (length episode - i)))
    <$> seq 0 (length episode).
Proof.
  unfold generate_returns, np_zeros, np_ones, np_arange, np_power.
  rewrite foldl_insert_seq by apply length_replicate.
  apply list_fmap_ext; intros k i Hi.
  apply lookup_seq in Hi as [Hi Hk]. simpl in Hi. subst k. f_equal.
  rewrite fmap_replicate, drop_replicate, take_seq.
  rewrite Nat.min_l by lia.
  generalize (length episode - i)%nat; intros m.
  rewrite Qcmult_1_l.
  generalize 0%nat. induction m as [|m IH]; intros a; [done|].
  simpl. by rewrite IH.
Qed.

Lemma np_dot_discounted (rewards : list Qc) (gamma : Qc) (i : nat) :
  np_dot (drop i rewards) ((λ k, gamma ^ k) <$> seq 0 (length rewards - i)) =
  discounted_return gamma rewards i.
Proof.
  unfold np_dot, discounted_return. f_equal.
  apply list_eq; intros k.
  rewrite lookup_zip_with, lookup_drop, !list_lookup_fmap.
  destruct (decide (k < length rewards - i)%nat) as [Hk|Hk].
  - destruct (lookup_lt_is_Some_2 rewards (i + k)%nat) as [r Hr]; [lia|].
    rewrite Hr, !lookup_seq_lt by done. simpl.
    rewrite nth_lookup, Hr. simpl.
    replace (i + k - i)%nat with k by lia.
    by rewrite Qcmult_comm.
  - rewrite !lookup_seq_ge by lia. simpl.
    by destruct (rewards !! (i + k)%nat).
Qed.

(** C3: [generate_returns] yields one return per timestep, entry [i] being
    the sum over [j >= i] of [gamma^(j-i) * reward[j]]; the result depends
    on the rewards only, and a one-step episode returns its reward. *)
Theorem generate_returns_spec (episode : list triple) (gamma : Qc) :
  length (generate_returns episode gamma) = length episode ∧
  (∀ i, (i < length episode)%nat →
     generate_returns episode gamma !! i =
     Some (discounted_return gamma (triple_reward <$> episode) i)) ∧
  (∀ episode', triple_reward <$> episode' = triple_reward <$> episode →
     generate_returns episode' gamma = generate_returns episode gamma) ∧
  (∀ s a r, generate_returns [(s, a, r)] gamma = [r]).
Proof.
  repeat split.
  - by rewrite generate_returns_unfold, length_fmap, length_seq.
  - intros i Hi. rewrite generate_returns_unfold, list_lookup_fmap.
    rewrite lookup_seq_lt by done. simpl. f_equal.
    rewrite <-(length_fmap triple_reward episode).
    apply np_dot_discounted.
  - intros episode' Heq. rewrite !generate_returns_unfold.
    rewrite <-(length_fmap triple_reward episode'), Heq.
    by rewrite length_fmap.
  - intros s a r. rewrite generate_returns_unfold. simpl.
    unfold np_dot, triple_reward. simpl. f_equal. ring.
Qed.

(** The example of the docstring: rewards [1, -1, 0, 2] and
    [gamma = 0.9] give the returns [1.558, 0.62, 1.8, 2]. *)
Example generate_returns_docstring :
  generate_returns docstring_episode (frac 9 10) =
  [frac 1558 1000; frac 62 100; frac 18 10; frac 2 1].
Proof. by_evaluation. Qed.

(** C9: an empty trajectory gives an empty return vector, whatever the
    discount, and only an empty trajectory does; nothing is divided, and
    the evaluation loop that consumes the vector leaves both tables as
    they were. *)
Theorem generate_returns_empty (gamma : Qc) :
  generate_returns [] gamma = [] ∧
  (∀ episode, generate_returns episode gamma = [] ↔ episode = []) ∧
  (∀ nS nA Q_value n_visits,
     mc_evaluate_episode nS nA [] Q_value n_visits gamma
     = Some (Q_value, n_visits)).
Proof.
  split_and!; [done| |done].
  intros episode. split; [|by intros ->].
  intros H. apply (f_equal length) in H.
  rewrite generate_returns_unfold, length_fmap, length_seq in H.
  by apply nil_length_inv.
Qed.

(** ** Arithmetic *)

Lemma Qc_of_nat_S (n : nat) : Qc_of_nat (S n) = Qc_of_nat n + 1.
Proof.
  unfold Qc_of_nat. by rewrite Nat2Z.inj_succ, <-Z.add_1_r, Z2Qc_inj_add, Z2Qc_inj_1.
Qed.

Lemma Qc_of_nat_0 : Qc_of_nat 0 = 0.
Proof. apply Z2Qc_inj_0. Qed.

Lemma Qc_of_nat_eq_0 (n : nat) : Qc_of_nat n = 0 ↔ n = 0%nat.
Proof.
  unfold Qc_of_nat. rewrite <-Z2Qc_inj_0, Z2Qc_inj_iff. lia.
Qed.

Lemma Qc_of_nat_ne_0 (n : nat) : n ≠ 0%nat → Qc_of_nat n ≠ 0.
Proof. by rewrite Qc_of_nat_eq_0. Qed.

Lemma py_div_Some (x y d : Qc) : py_div x y = Some d ↔ y ≠ 0 ∧ d = x / y.
Proof.
  unfold py_div. case_decide as Hy.
  - split; [done|]. by intros [? _].
  - split; [by intros [= <-]|]. by intros [_ ->].
Qed.

Lemma py_div_ne (x y : Qc) : y ≠ 0 → py_div x y = Some (x / y).
Proof. intros. by apply py_div_Some. Qed.

Lemma Qc_of_nat_pos (n : nat) : (0 < n)%nat → 0 < Qc_of_nat n.
Proof.
  intros Hn. unfold Qc_of_nat. rewrite <-Z2Qc_inj_0.
  apply (proj1 (Z2Qc_inj_lt _ _)). lia.
Qed.

Lemma Qc_of_nat_ge_1 (n : nat) : (1 ≤ n)%nat → 1 ≤ Qc_of_nat n.
Proof.
  intros Hn. unfold Qc_of_nat. rewrite <-Z2Qc_inj_1.
  apply (proj1 (Z2Qc_inj_le _ _)). lia.
Qed.

Lemma Qc_div_nat_nonneg (x : Qc) (n : nat) : 0 ≤ x → 0 ≤ x / Qc_of_nat n.
Proof.
  intros Hx. apply Qcmult_nonneg_nonneg; [done|].
  destruct n as [|n]; [by rewrite Qc_of_nat_0|].
  apply Qclt_le_weak, Qcinv_pos, Qc_of_nat_pos. lia.
Qed.

Lemma glie_epsilon_range (t : nat) : 0 ≤ glie_epsilon t ∧ glie_epsilon t ≤ 1.
Proof.
  unfold glie_epsilon. split; [by apply Qc_div_nat_nonneg|].
  assert (0 < Qc_of_nat (t + 2)) as Hpos by (apply Qc_of_nat_pos; lia).
  apply (Qcmult_le_mono_pos_r _ _ _ Hpos).
  rewrite Qcmult_1_l, Qcmult_comm, Qcmult_div_r
    by (by apply not_symmetry, Qclt_not_eq).
  apply Qc_of_nat_ge_1. lia.
Qed.

(** ** Row maximum and the maximal actions *)

Lemma Qc_max_cases (x y : Qc) :
  (Qc_max x y = x ∧ y ≤ x) ∨ (Qc_max x y = y ∧ x ≤ y).
Proof.
  unfold Qc_max. case_decide as H; [by right|left].
  split; [done|]. apply Qclt_le_weak. by apply Qclt_nge.
Qed.

Lemma foldl_Qc_max (l : list Qc) (x : Qc) : is_row_max (x :: l) (foldl Qc_max x l).
Proof.
  revert x. induction l as [|y l IH]; intros x; simpl.
  - split; [set_solver|]. intros z Hz. apply list_elem_of_singleton in Hz as ->.
    apply Qcle_refl.
  - destruct (IH (Qc_max x y)) as [Hin Hub].
    destruct (Qc_max_cases x y) as [[Heq Hle]|[Heq Hle]]; rewrite Heq in *.
    + split; [set_solver|]. intros z Hz.
      apply elem_of_cons in Hz as [->|Hz]; [apply Hub; set_solver|].
      apply elem_of_cons in Hz as [->|Hz].
      * etrans; [exact Hle|]. apply Hub. set_solver.
      * apply Hub. set_solver.
    + split; [set_solver|]. intros z Hz.
      apply elem_of_cons in Hz as [->|Hz].
      * etrans; [exact Hle|]. apply Hub. set_solver.
      * apply Hub. set_solver.
Qed.

Lemma np_amax_is_row_max (row : list Qc) (m : Qc) :
  np_amax row = Some m ↔ is_row_max row m.
Proof.
  destruct row as [|x l]; simpl.
  - split; [done|]. intros [Hin _]. by apply elem_of_nil in Hin.
  - pose proof (foldl_Qc_max l x) as [Hin Hub]. split.
    + intros [= <-]. by split.
    + intros [Hin' Hub']. f_equal. apply Qcle_antisym; auto.
Qed.

Lemma np_amax_is_Some (row : list Qc) : row ≠ [] → is_Some (np_amax row).
Proof. destruct row; [done|]. by eexists. Qed.

Lemma elem_of_np_argwhere_eq (row : list Qc) (m : Qc) (i : nat) :
  i ∈ np_argwhere_eq row m ↔ row !! i = Some m.
Proof.
  unfold np_argwhere_eq. rewrite list_elem_of_filter, elem_of_seq.
  split; [naive_solver|]. intros H. split; [done|].
  apply lookup_lt_Some in H. lia.
Qed.

Lemma np_argwhere_eq_nonempty (row : list Qc) (m : Qc) :
  np_amax row = Some m → length (np_argwhere_eq row m) ≠ 0%nat.
Proof.
  intros [Hin _]%np_amax_is_row_max.
  apply list_elem_of_lookup in Hin as [i Hi].
  apply elem_of_np_argwhere_eq in Hi.
  destruct (np_argwhere_eq row m); [by apply elem_of_nil in Hi|done].
Qed.

(** ** Table reads and writes *)

Lemma tset_Some (T : table) (s a : nat) (v : Qc) (T' : table) :
  tset T s a v = Some T' ↔
  ∃ row, T !! s = Some row ∧ (a < length row)%nat ∧ T' = <[s := <[a := v]> row]> T.
Proof.
  unfold tset. destruct (T !! s) as [row|]; simpl; [|naive_solver].
  case_decide; naive_solver.
Qed.

Lemma tget_Some (T : table) (s a : nat) (v : Qc) :
  tget T s a = Some v ↔ ∃ row, T !! s = Some row ∧ row !! a = Some v.
Proof. unfold tget. destruct (T !! s); simpl; naive_solver. Qed.

Lemma tget_tset_eq (T T' : table) (s a : nat) (v : Qc) :
  tset T s a v = Some T' → tget T' s a = Some v.
Proof.
  intros (row & Hrow & Ha & ->)%tset_Some. apply tget_Some.
  exists (<[a := v]> row). split.
  - apply list_lookup_insert_eq. by eapply lookup_lt_Some.
  - by apply list_lookup_insert_eq.
Qed.

Lemma tget_tset_ne (T T' : table) (s a s' a' : nat) (v : Qc) :
  tset T s a v = Some T' → (s, a) ≠ (s', a') → tget T' s' a' = tget T s' a'.
Proof.
  intros (row & Hrow & Ha & ->)%tset_Some Hne. unfold tget.
  destruct (decide (s = s')) as [<-|Hs].
  - rewrite list_lookup_insert_eq by (by eapply lookup_lt_Some).
    rewrite Hrow. simpl. apply list_lookup_insert_ne. congruence.
  - by rewrite list_lookup_insert_ne.
Qed.

Lemma shape_lookup (nS nA : nat) (T : table) (s : nat) :
  shape nS nA T → (s < nS)%nat → ∃ row, T !! s = Some row ∧ length row = nA.
Proof.
  intros [Hlen Hrows] Hs.
  destruct (lookup_lt_is_Some_2 T s) as [row Hrow]; [lia|].
  exists row. split; [done|]. by eapply Forall_lookup_1 in Hrows.
Qed.

Lemma shape_lookup_length (nS nA : nat) (T : table) (s : nat) (row : list Qc) :
  shape nS nA T → T !! s = Some row → length row = nA ∧ (s < nS)%nat.
Proof.
  intros [Hlen Hrows] Hrow. split.
  - by eapply Forall_lookup_1 in Hrows.
  - rewrite <-Hlen. by eapply lookup_lt_Some.
Qed.

Lemma shape_row_length (nS nA : nat) (T : table) (s : nat) (row : list Qc) :
  shape nS nA T → T !! s = Some row → length row = nA.
Proof. intros HT Hrow. by destruct (shape_lookup_length _ _ _ _ _ HT Hrow). Qed.

Lemma shape_insert (nS nA : nat) (T : table) (s : nat) (row : list Qc) :
  shape nS nA T → length row = nA → shape nS nA (<[s := row]> T).
Proof.
  intros [Hlen Hrows] Hrow. split; [by rewrite length_insert|].
  by apply Forall_insert.
Qed.

Lemma tset_shape (nS nA : nat) (T T' : table) (s a : nat) (v : Qc) :
  shape nS nA T → tset T s a v = Some T' → shape nS nA T'.
Proof.
  intros HT (row & Hrow & Ha & ->)%tset_Some.
  apply shape_insert; [done|]. rewrite length_insert.
  by eapply shape_row_length.
Qed.

Lemma shape_replicate (nS nA : nat) (x : Qc) :
  shape nS nA (replicate nS (replicate nA x)).
Proof.
  split; [apply length_replicate|].
  apply Forall_replicate, length_replicate.
Qed.

(** ** [for] loops *)

Lemma for_range_0 {A} (body : nat → A → option A) (init : A) :
  for_range 0 body init = Some init.
Proof. done. Qed.

Lemma for_range_ext {A} (n : nat) (body body' : nat → A → option A) (init : A) :
  (∀ i a, (i < n)%nat → body i a = body' i a) →
  for_range n body init = for_range n body' init.
Proof.
  induction n as [|n IH]; intros Hext; [done|].
  rewrite !for_range_S, IH by (intros; apply Hext; lia).
  destruct (for_range n body' init); simpl; [|done]. apply Hext. lia.
Qed.

(** A loop that assigns [T[s, i] = f i] for [i] in [range(n)] rewrites the
    first [n] entries of row [s]; it raises when the row is shorter. *)
Lemma for_range_tset (T : table) (s n : nat) (f : nat → Qc) (row : list Qc) :
  T !! s = Some row →
  for_range n (λ i T, tset T s i (f i)) T =
  if decide (n ≤ length row)%nat
  then Some (<[s := (f <$> seq 0 n) ++ drop n row]> T) else None.
Proof.
  intros Hrow. induction n as [|n IH].
  - rewrite for_range_0. simpl. by rewrite drop_0, list_insert_id.
  - rewrite for_range_S, IH.
    destruct (decide (n ≤ length row)%nat) as [Hn|Hn]; cbn [mbind option_bind];
      [|by rewrite decide_False by lia].
    assert (s < length T)%nat as Hs by (by eapply lookup_lt_Some).
    unfold tset. rewrite list_lookup_insert_eq by done.
    cbn [mbind option_bind].
    rewrite length_app, length_fmap, length_seq, length_drop.
    destruct (decide (S n ≤ length row)%nat) as [Hn'|Hn'].
    + rewrite decide_True by lia. f_equal.
      rewrite list_insert_insert_eq. f_equal.
      destruct (lookup_lt_is_Some_2 row n) as [x Hx]; [lia|].
      rewrite (drop_S _ _ _ Hx), seq_S, fmap_app. simpl.
      rewrite insert_app_r_alt by (rewrite length_fmap, length_seq; lia).
      rewrite length_fmap, length_seq, Nat.sub_diag. simpl.
      by rewrite <-app_assoc.
    + by rewrite decide_False by lia.
Qed.

(** ** The epsilon-greedy row *)

Lemma length_greedy_row (row : list Qc) (m epsilon : Qc) (nA : nat) :
  length (greedy_row row m epsilon nA) = nA.
Proof. unfold greedy_row. by rewrite length_fmap, length_seq. Qed.

Lemma lookup_greedy_row (row : list Qc) (m epsilon : Qc) (nA i : nat) :
  (i < nA)%nat →
  greedy_row row m epsilon nA !! i =
  Some (if bool_decide (row !! i = Some m)
        then (1 - epsilon) / Qc_of_nat (length (np_argwhere_eq row m))
             + epsilon / Qc_of_nat nA
        else epsilon / Qc_of_nat nA).
Proof.
  intros Hi. unfold greedy_row.
  rewrite list_lookup_fmap, lookup_seq_lt by done. simpl. f_equal.
  by rewrite (bool_decide_ext _ _ (elem_of_np_argwhere_eq row m i)).
Qed.

Lemma greedy_row_nonneg (row : list Qc) (m epsilon : Qc) (nA : nat) :
  0 ≤ epsilon → epsilon ≤ 1 →
  Forall (λ x, 0 ≤ x) (greedy_row row m epsilon nA).
Proof.
  intros H0 H1. unfold greedy_row. apply Forall_fmap, Forall_forall.
  intros i _. simpl.
  pose proof (Qc_div_nat_nonneg epsilon nA H0) as He.
  case_bool_decide; [|done].
  apply Qcplus_nonneg_nonneg; [|done].
  apply Qc_div_nat_nonneg. unfold Qcminus.
  by apply (proj1 (Qcle_minus_iff _ _)).
Qed.

Lemma Qc_sum_cons (x : Qc) (l : list Qc) : Qc_sum (x :: l) = x + Qc_sum l.
Proof. done. Qed.

Lemma Qc_sum_split (P : nat → Prop) `{!∀ i, Decision (P i)} (a e : Qc)
    (l : list nat) :
  Qc_sum ((λ i, if bool_decide (P i) then a + e else e) <$> l) =
  Qc_of_nat (length (filter P l)) * a + Qc_of_nat (length l) * e.
Proof.
  induction l as [|i l IH].
  - simpl. rewrite Qc_of_nat_0. ring.
  - rewrite fmap_cons, Qc_sum_cons, IH, filter_cons, length_cons, Qc_of_nat_S.
    destruct (decide (P i)) as [Hi|Hi].
    + rewrite bool_decide_eq_true_2, length_cons, Qc_of_nat_S by done. ring.
    + rewrite bool_decide_eq_false_2 by done. ring.
Qed.

Lemma np_argwhere_eq_refilter (row : list Qc) (m : Qc) :
  filter (λ i, i ∈ np_argwhere_eq row m) (seq 0 (length row)) =
  np_argwhere_eq row m.
Proof.
  unfold np_argwhere_eq at 2. apply list_filter_iff.
  intros i. apply elem_of_np_argwhere_eq.
Qed.

(** A greedy row over a Q row of the table's width sums to one. *)
Lemma Qc_sum_greedy_row (row : list Qc) (m epsilon : Qc) (nA : nat) :
  length row = nA → np_amax row = Some m →
  Qc_sum (greedy_row row m epsilon nA) = 1.
Proof.
  intros Hlen Hmax. unfold greedy_row.
  rewrite (Qc_sum_split (λ i, i ∈ np_argwhere_eq row m)).
  rewrite <-Hlen at 1. rewrite np_argwhere_eq_refilter, length_seq.
  pose proof (np_argwhere_eq_nonempty _ _ Hmax) as Hk.
  assert (nA ≠ 0%nat) as HnA.
  { intros ->. destruct row; [done|]. done. }
  apply Qc_of_nat_ne_0 in Hk, HnA. field. by split.
Qed.

Lemma length_np_argwhere_eq_aux (pre l : list Qc) (m : Qc) :
  length (filter (λ i, (pre ++ l) !! i = Some m) (seq (length pre) (length l))) =
  count_eq m l.
Proof.
  unfold count_eq. revert pre. induction l as [|x l IH]; intros pre; [done|].
  cbn [length seq]. rewrite !filter_cons.
  specialize (IH (pre ++ [x])).
  rewrite <-app_assoc, length_app in IH. cbn [length app] in IH.
  rewrite Nat.add_1_r in IH.
  rewrite list_lookup_middle by done.
  destruct (decide (x = m)) as [->|Hne].
  - rewrite decide_True by done. cbn [length]. by rewrite IH.
  - rewrite decide_False by congruence. by rewrite IH.
Qed.

Lemma length_np_argwhere_eq (row : list Qc) (m : Qc) :
  length (np_argwhere_eq row m) = count_eq m row.
Proof. apply (length_np_argwhere_eq_aux [] row m). Qed.

(** ** The loops that rewrite one policy row *)

Lemma improve_row_spec (indices : list nat) (p e : Qc) (nA state : nat)
    (new_policy : table) (prow : list Qc) :
  new_policy !! state = Some prow → length prow = nA →
  improve_row indices p e nA state new_policy =
  Some (<[state := (λ i, if bool_decide (i ∈ indices) then p else e)
                     <$> seq 0 nA]> new_policy).
Proof.
  intros Hrow Hlen. unfold improve_row.
  rewrite (for_range_ext _ _
    (λ i T, tset T state i (if bool_decide (i ∈ indices) then p else e)))
    by (intros; by case_bool_decide).
  rewrite (for_range_tset _ _ _ _ prow) by done.
  rewrite decide_True by lia.
  by rewrite drop_ge, app_nil_r by lia.
Qed.

Lemma policy_row_update_spec (policy : table) (s_t1 : nat) (indices : list nat)
    (epsilon : Qc) (nA : nat) (prow : list Qc) :
  policy !! s_t1 = Some prow → length prow = nA →
  policy_row_update policy s_t1 indices epsilon nA =
  Some (<[s_t1 :=
            (λ i, if bool_decide (i ∈ indices)
                  then (1 - epsilon) / Qc_of_nat (length indices)
                       + epsilon / Qc_of_nat nA
                  else epsilon / Qc_of_nat nA) <$> seq 0 nA]> policy).
Proof.
  intros Hrow Hlen. unfold policy_row_update.
  rewrite (for_range_ext _ _
    (λ i T, tset T s_t1 i
              (if bool_decide (i ∈ indices)
               then (1 - epsilon) / Qc_of_nat (length indices)
                    + epsilon / Qc_of_nat nA
               else epsilon / Qc_of_nat nA))).
  - rewrite (for_range_tset _ _ _ _ prow) by done.
    rewrite decide_True by lia.
    by rewrite drop_ge, app_nil_r by lia.
  - intros i T Hi.
    rewrite (py_div_ne epsilon) by (apply Qc_of_nat_ne_0; lia).
    case_bool_decide as Hin; [|done].
    rewrite py_div_ne; [done|].
    apply Qc_of_nat_ne_0. by destruct indices; [apply elem_of_nil in Hin|].
Qed.

(** ** Policy improvement operator *)

Section improve.
Context (Q_value : table) (nS nA : nat) (epsilon : Qc).

Abbreviation body := (improve_state Q_value nA epsilon).

Lemma improve_body_Some (state : nat) (P P' : table) :
  shape nS nA P → (state < nS)%nat →
  body state P = Some P' ↔
  ∃ row m, Q_value !! state = Some row ∧ np_amax row = Some m ∧
           nA ≠ 0%nat ∧ P' = <[state := greedy_row row m epsilon nA]> P.
Proof.
  intros HP Hs. destruct (shape_lookup _ _ _ _ HP Hs) as (prow & Hprow & Hlen).
  unfold improve_state. split.
  - intros H.
    apply bind_Some in H as (row & Hrow & H).
    apply bind_Some in H as (m & Hm & H).
    apply bind_Some in H as (d & [Hd ->]%py_div_Some & H).
    apply bind_Some in H as (e & [He ->]%py_div_Some & H).
    rewrite (improve_row_spec _ _ _ _ _ _ prow) in H by done.
    injection H as <-. exists row, m. repeat split; [done|done|].
    intros ->. by rewrite Qc_of_nat_0 in He.
  - intros (row & m & Hrow & Hm & HnA & ->).
    rewrite Hrow. cbn [mbind option_bind]. rewrite Hm. cbn [mbind option_bind].
    rewrite !py_div_ne
      by (apply Qc_of_nat_ne_0; done || by apply np_argwhere_eq_nonempty).
    cbn [mbind option_bind].
    by rewrite (improve_row_spec _ _ _ _ _ _ prow).
Qed.

Lemma improve_loop_inv (k : nat) (P0 P : table) :
  shape nS nA P0 → (k ≤ nS)%nat →
  for_range k body P0 = Some P →
  shape nS nA P ∧
  ∀ s, (s < k)%nat →
    ∃ row m, Q_value !! s = Some row ∧ np_amax row = Some m ∧
             P !! s = Some (greedy_row row m epsilon nA).
Proof.
  intros HP0. revert P. induction k as [|k IH]; intros P Hk Hloop.
  - injection Hloop as <-. split; [done|]. intros; lia.
  - rewrite for_range_S in Hloop.
    apply bind_Some in Hloop as (P' & Hloop & Hbody).
    destruct (IH P') as [HP' Hrows]; [lia|done|].
    apply improve_body_Some in Hbody as (row & m & Hrow & Hm & HnA & ->);
      [|done|lia].
    split; [apply shape_insert; [done|apply length_greedy_row]|].
    intros s Hs. destruct (decide (s = k)) as [->|Hne].
    + exists row, m. repeat split; [done..|].
      apply list_lookup_insert_eq. destruct HP' as [-> _]. lia.
    + rewrite list_lookup_insert_ne by done. apply Hrows. lia.
Qed.

Lemma improve_loop_total (k : nat) (P0 : table) :
  shape nS nA P0 → shape nS nA Q_value → nA ≠ 0%nat → (k ≤ nS)%nat →
  is_Some (for_range k body P0).
Proof.
  intros HP0 HQ HnA. induction k as [|k IH]; intros Hk; [by eexists|].
  destruct IH as [P HP]; [lia|].
  rewrite for_range_S, HP. cbn [mbind option_bind].
  destruct (improve_loop_inv k P0 P) as [HPs _]; [done|lia|done|].
  destruct (shape_lookup _ _ _ k HQ) as (row & Hrow & Hlen); [lia|].
  destruct (np_amax_is_Some row) as [m Hm]; [by destruct row; subst|].
  exists (<[k := greedy_row row m epsilon nA]> P).
  apply improve_body_Some; [done|lia|]. by exists row, m.
Qed.

Lemma shape_initial_policy (f : Qc → Qc) :
  shape nS nA (fmap (M := list) f <$> np_ones2 nS nA).
Proof.
  unfold np_ones2, np_ones. rewrite !fmap_replicate. apply shape_replicate.
Qed.

Lemma epsilon_greedy_policy_improve_rows (P : table) :
  epsilon_greedy_policy_improve Q_value nS nA epsilon = Some P →
  shape nS nA P ∧
  ∀ s, (s < nS)%nat →
    ∃ row m, Q_value !! s = Some row ∧ np_amax row = Some m ∧
             P !! s = Some (greedy_row row m epsilon nA).
Proof.
  apply improve_loop_inv; [apply shape_initial_policy|done].
Qed.

Lemma epsilon_greedy_policy_improve_total :
  shape nS nA Q_value → nA ≠ 0%nat →
  is_Some (epsilon_greedy_policy_improve Q_value nS nA epsilon).
Proof.
  intros HQ HnA.
  apply improve_loop_total; [apply shape_initial_policy|done..].
Qed.
End improve.

(** C2: in every row of the policy returned by
    [epsilon_greedy_policy_improve], an action whose Q value equals the
    row maximum [m] gets [(1-epsilon)/|M| + epsilon/nA], [|M|] being the
    number of entries equal to [m], and every other action gets
    [epsilon/nA]; the operator returns on every table of shape
    [(nS, nA)] with [nA > 0]; and [Q[s] = [3,3,1,3]], [epsilon = 0.2]
    gives [[0.8/3+0.05, 0.8/3+0.05, 0.05, 0.8/3+0.05]]. *)
Theorem epsilon_greedy_policy_improve_spec :
  (∀ Q_value nS nA epsilon P,
     epsilon_greedy_policy_improve Q_value nS nA epsilon = Some P →
     ∀ s i, (s < nS)%nat → (i < nA)%nat →
       ∃ row m, Q_value !! s = Some row ∧ is_row_max row m ∧
         tget P s i =
         Some (if bool_decide (row !! i = Some m)
               then (1 - epsilon) / Qc_of_nat (count_eq m row)
                    + epsilon / Qc_of_nat nA
               else epsilon / Qc_of_nat nA)) ∧
  (∀ Q_value nS nA epsilon,
     shape nS nA Q_value → (0 < nA)%nat →
     is_Some (epsilon_greedy_policy_improve Q_value nS nA epsilon)) ∧
  epsilon_greedy_policy_improve
    [[frac 3 1; frac 3 1; frac 1 1; frac 3 1]] 1 4 (frac 2 10) =
  Some [[frac 8 10 / frac 3 1 + frac 5 100; frac 8 10 / frac 3 1 + frac 5 100;
         frac 5 100; frac 8 10 / frac 3 1 + frac 5 100]].
Proof.
  split; [|split].
  - intros Q_value nS nA epsilon P HP s i Hs Hi.
    apply epsilon_greedy_policy_improve_rows in HP as [_ Hrows].
    destruct (Hrows s Hs) as (row & m & Hrow & Hm & HPs).
    exists row, m. split; [done|]. split; [by apply np_amax_is_row_max|].
    unfold tget. rewrite HPs. cbn [mbind option_bind].
    by rewrite lookup_greedy_row, length_np_argwhere_eq.
  - intros Q_value nS nA epsilon HQ HnA.
    apply epsilon_greedy_policy_improve_total; [done|lia].
  - by_evaluation.
Qed.

(** Every row of the improved policy sums to one when the Q table has
    the shape the operator is told. *)
Lemma epsilon_greedy_policy_improve_stochastic (Q_value : table) (nS nA : nat)
    (epsilon : Qc) (P : table) :
  shape nS nA Q_value →
  epsilon_greedy_policy_improve Q_value nS nA epsilon = Some P →
  row_stochastic P.
Proof.
  intros HQ [HP Hrows]%epsilon_greedy_policy_improve_rows.
  apply Forall_lookup_2. intros s prow Hprow.
  destruct (shape_lookup_length _ _ _ _ _ HP Hprow) as [_ Hs].
  destruct (Hrows s Hs) as (row & m & Hrow & Hm & HPs).
  rewrite Hprow in HPs. injection HPs as ->.
  apply Qc_sum_greedy_row; [|done].
  exact (shape_row_length _ _ _ _ _ HQ Hrow).
Qed.

Lemma epsilon_greedy_policy_improve_nonnegative (Q_value : table)
    (nS nA : nat) (epsilon : Qc) (P : table) :
  0 ≤ epsilon → epsilon ≤ 1 →
  epsilon_greedy_policy_improve Q_value nS nA epsilon = Some P →
  nonnegative P.
Proof.
  intros H0 H1 [HP Hrows]%epsilon_greedy_policy_improve_rows.
  apply Forall_lookup_2. intros s prow Hprow.
  destruct (shape_lookup_length _ _ _ _ _ HP Hprow) as [_ Hs].
  destruct (Hrows s Hs) as (row & m & Hrow & Hm & HPs).
  rewrite Hprow in HPs. injection HPs as ->.
  by apply greedy_row_nonneg.
Qed.

(** ** The policy refresh of the control loops *)

Lemma refresh_policy_row_Some (Q_value policy : table) (s_t1 nS nA t : nat)
    (policy' : table) :
  shape nS nA policy → (s_t1 < nS)%nat →
  refresh_policy_row Q_value policy s_t1 nA t = Some policy' ↔
  ∃ row m, Q_value !! s_t1 = Some row ∧ np_amax row = Some m ∧
           policy' = <[s_t1 := greedy_row row m (glie_epsilon t) nA]> policy.
Proof.
  intros HP Hs. destruct (shape_lookup _ _ _ _ HP Hs) as (prow & Hprow & Hlen).
  unfold refresh_policy_row. split.
  - intros H.
    apply bind_Some in H as (row & Hrow & H).
    apply bind_Some in H as (m & Hm & H).
    rewrite (policy_row_update_spec _ _ _ _ _ prow) in H by done.
    injection H as <-. by exists row, m.
  - intros (row & m & Hrow & Hm & ->).
    rewrite Hrow. cbn [mbind option_bind]. rewrite Hm. cbn [mbind option_bind].
    by rewrite (policy_row_update_spec _ _ _ _ _ prow).
Qed.

Lemma refresh_policy_row_stochastic (Q_value policy : table)
    (s_t1 nS nA t : nat) (policy' : table) :
  shape nS nA Q_value → shape nS nA policy → (s_t1 < nS)%nat →
  row_stochastic policy →
  refresh_policy_row Q_value policy s_t1 nA t = Some policy' →
  shape nS nA policy' ∧ row_stochastic policy'.
Proof.
  intros HQ HP Hs Hsto (row & m & Hrow & Hm & ->)%(refresh_policy_row_Some _ _ _ nS);
    [|done..].
  split.
  - apply shape_insert; [done|apply length_greedy_row].
  - apply Forall_insert; [done|].
    apply Qc_sum_greedy_row; [|done].
    exact (shape_row_length _ _ _ _ _ HQ Hrow).
Qed.

Lemma refresh_policy_row_nonnegative (Q_value policy : table)
    (s_t1 nS nA t : nat) (policy' : table) :
  shape nS nA policy → (s_t1 < nS)%nat → nonnegative policy →
  refresh_policy_row Q_value policy s_t1 nA t = Some policy' →
  nonnegative policy'.
Proof.
  intros HP Hs Hnn (row & m & Hrow & Hm & ->)%(refresh_policy_row_Some _ _ _ nS);
    [|done..].
  apply Forall_insert; [done|].
  apply greedy_row_nonneg; apply glie_epsilon_range.
Qed.

(** ** The two temporal-difference updates *)

Lemma sarsa_update_Some (Q_value : table) (s a : nat) (r : Qc) (s' a' : nat)
    (gamma alpha : Qc) (Q' : table) :
  sarsa_update Q_value s a r s' a' gamma alpha = Some Q' ↔
  ∃ q q', tget Q_value s a = Some q ∧ tget Q_value s' a' = Some q' ∧
          tset Q_value s a (q + alpha * (r + gamma * q' - q)) = Some Q'.
Proof.
  unfold sarsa_update. split.
  - intros H. apply bind_Some in H as (q & Hq & H).
    apply bind_Some in H as (q' & Hq' & H). by exists q, q'.
  - intros (q & q' & Hq & Hq' & H).
    rewrite Hq. cbn [mbind option_bind]. by rewrite Hq'.
Qed.

Lemma qlearning_update_Some (Q_value : table) (s a : nat) (r : Qc) (s' : nat)
    (gamma alpha : Qc) (Q' : table) :
  qlearning_update Q_value s a r s' gamma alpha = Some Q' ↔
  ∃ row' m q, Q_value !! s' = Some row' ∧ np_amax row' = Some m ∧
              tget Q_value s a = Some q ∧
              tset Q_value s a (q + alpha * (r + gamma * m - q)) = Some Q'.
Proof.
  unfold qlearning_update. split.
  - intros H. apply bind_Some in H as (row' & Hrow' & H).
    apply bind_Some in H as (m & Hm & H).
    apply bind_Some in H as (q & Hq & H). by exists row', m, q.
  - intros (row' & m & q & -> & Hm & Hq & H). cbn [mbind option_bind].
    rewrite Hm. cbn [mbind option_bind]. by rewrite Hq.
Qed.

Lemma tset_in_range (nS nA : nat) (T T' : table) (s a : nat) (v : Qc) :
  shape nS nA T → tset T s a v = Some T' → (s < nS)%nat ∧ (a < nA)%nat.
Proof.
  intros HT (row & Hrow & Ha & ->)%tset_Some.
  destruct (shape_lookup_length _ _ _ _ _ HT Hrow) as [<- Hs]. done.
Qed.

(** ** The state-and-failure monad *)

Lemma bind_inv {W A B} (m : M W A) (k : A → M W B) (w : W) (r : B * W) :
  bind m k w = Some r ↔ ∃ a w', m w = Some (a, w') ∧ k a w' = Some r.
Proof.
  unfold bind. destruct (m w) as [[a w']|].
  - split; [by exists a, w'|]. by intros (? & ? & [= <- <-] & ?).
  - split; [done|]. by intros (? & ? & ? & ?).
Qed.

Lemma lift_inv {W A} (o : option A) (w : W) (a : A) (w' : W) :
  lift o w = Some (a, w') ↔ o = Some a ∧ w' = w.
Proof.
  unfold lift. destruct o; split; try done.
  - by intros [= <- <-].
  - by intros [[= <-] ->].
  - by intros [? _].
Qed.

Lemma ret_inv {W A} (a : A) (w : W) (a' : A) (w' : W) :
  ret a w = Some (a', w') ↔ a' = a ∧ w' = w.
Proof. unfold ret. split; [by intros [= <- <-]|by intros [-> ->]]. Qed.

Lemma bind_Some_l {W A B} (m : M W A) (k : A → M W B) (w w' : W) (a : A) :
  m w = Some (a, w') → bind m k w = k a w'.
Proof. unfold bind. by intros ->. Qed.

(** ** One step of the control loops *)

Section steps.
Context (E : Sim).
Implicit Types (w : world E) (gamma alpha : Qc).

(** What a completed SARSA step did, in program order. *)
Lemma sarsa_step_Some gamma alpha (t : nat) (st st' : sarsa_state) w w' :
  sarsa_step E gamma alpha t st w = Some (st', w') ↔
  ∃ s_next reward done w1 a_next w2 policy',
    env_step E (sarsa_a st) w = Some (s_next, reward, done, w1) ∧
    sample_action E (sarsa_policy st) s_next w1 = Some (a_next, w2) ∧
    sarsa_update (sarsa_Q st) (sarsa_s st) (sarsa_a st) reward s_next a_next
      gamma alpha = Some (sarsa_Q st') ∧
    refresh_policy_row (sarsa_Q st') (sarsa_policy st) (sarsa_s st)
      (env_nA E) t = Some policy' ∧
    sarsa_policy st' = policy' ∧
    if done then
      ∃ w3, env_reset E w2 = Some (sarsa_s st', w3) ∧
            sample_action E policy' (sarsa_s st') w3 = Some (sarsa_a st', w')
    else sarsa_s st' = s_next ∧ sarsa_a st' = a_next ∧ w' = w2.
Proof.
  destruct st as [Q policy s a], st' as [Q' policy' s' a'].
  unfold sarsa_step. cbn [sarsa_Q sarsa_policy sarsa_s sarsa_a]. split.
  - intros H.
    apply bind_inv in H as ([[s_next reward] done] & w1 & Hstep & H).
    apply bind_inv in H as (a_next & w2 & Hnext & H).
    apply bind_inv in H as (Q1 & w2' & [HQ ->]%lift_inv & H).
    apply bind_inv in H as (policy1 & w2' & [HP ->]%lift_inv & H).
    exists s_next, reward, done, w1, a_next, w2, policy1.
    destruct done.
    + apply bind_inv in H as (s0 & w3 & Hreset & H).
      apply bind_inv in H as (a0 & w4 & Hsample & H).
      apply ret_inv in H as [[= -> -> -> ->] ->].
      repeat split; try done. by exists w3.
    + apply ret_inv in H as [[= -> -> -> ->] ->]. done.
  - intros (s_next & reward & done & w1 & a_next & w2 & policy1 &
            Hstep & Hnext & HQ & HP & -> & Hdone).
    rewrite (bind_Some_l _ _ _ _ _ Hstep).
    rewrite (bind_Some_l _ _ _ _ _ Hnext).
    rewrite HQ. unfold lift at 1, bind at 1.
    rewrite HP. unfold lift at 1, bind at 1.
    destruct done.
    + destruct Hdone as (w3 & Hreset & Hsample).
      rewrite (bind_Some_l _ _ _ _ _ Hreset).
      by rewrite (bind_Some_l _ _ _ _ _ Hsample).
    + by destruct Hdone as (-> & -> & ->).
Qed.

(** What a completed Q-learning step did, in program order. *)
Lemma qlearning_step_Some gamma alpha (t : nat) (st st' : qlearning_state)
    w w' :
  qlearning_step E gamma alpha t st w = Some (st', w') ↔
  ∃ action w1 s_next reward done w2 policy',
    sample_action E (ql_policy st) (ql_s st) w = Some (action, w1) ∧
    env_step E action w1 = Some (s_next, reward, done, w2) ∧
    qlearning_update (ql_Q st) (ql_s st) action reward s_next gamma alpha
      = Some (ql_Q st') ∧
    refresh_policy_row (ql_Q st') (ql_policy st) (ql_s st) (env_nA E) t
      = Some policy' ∧
    ql_policy st' = policy' ∧
    if done then env_reset E w2 = Some (ql_s st', w')
    else ql_s st' = s_next ∧ w' = w2.
Proof.
  destruct st as [Q policy s], st' as [Q' policy' s'].
  unfold qlearning_step. cbn [ql_Q ql_policy ql_s]. split.
  - intros H.
    apply bind_inv in H as (action & w1 & Haction & H).
    apply bind_inv in H as ([[s_next reward] done] & w2 & Hstep & H).
    apply bind_inv in H as (Q1 & w2' & [HQ ->]%lift_inv & H).
    apply bind_inv in H as (policy1 & w2' & [HP ->]%lift_inv & H).
    exists action, w1, s_next, reward, done, w2, policy1.
    destruct done.
    + apply bind_inv in H as (s0 & w3 & Hreset & H).
      apply ret_inv in H as [[= -> -> ->] ->]. done.
    + apply ret_inv in H as [[= -> -> ->] ->]. done.
  - intros (action & w1 & s_next & reward & done & w2 & policy1 &
            Haction & Hstep & HQ & HP & -> & Hdone).
    rewrite (bind_Some_l _ _ _ _ _ Haction).
    rewrite (bind_Some_l _ _ _ _ _ Hstep).
    rewrite HQ. unfold lift at 1, bind at 1.
    rewrite HP. unfold lift at 1, bind at 1.
    destruct done.
    + by rewrite (bind_Some_l _ _ _ _ _ Hdone).
    + by destruct Hdone as (-> & ->).
Qed.

(** Both steps keep the tables in shape and the policy rows
    distributions. *)
Lemma sarsa_step_invariant gamma alpha (t : nat) (st st' : sarsa_state) w w' :
  shape (env_nS E) (env_nA E) (sarsa_Q st) →
  shape (env_nS E) (env_nA E) (sarsa_policy st) →
  row_stochastic (sarsa_policy st) →
  nonnegative (sarsa_policy st) →
  sarsa_step E gamma alpha t st w = Some (st', w') →
  shape (env_nS E) (env_nA E) (sarsa_Q st') ∧
  shape (env_nS E) (env_nA E) (sarsa_policy st') ∧
  row_stochastic (sarsa_policy st') ∧
  nonnegative (sarsa_policy st').
Proof.
  intros HQ HP Hsto Hnn
    (s_next & reward & done & w1 & a_next & w2 & policy' &
     _ & _ & HQ' & HP' & -> & _)%sarsa_step_Some.
  apply sarsa_update_Some in HQ' as (q & q' & _ & _ & HQ').
  destruct (tset_in_range _ _ _ _ _ _ _ HQ HQ') as [Hs _].
  pose proof (tset_shape _ _ _ _ _ _ _ HQ HQ') as HQs.
  destruct (refresh_policy_row_stochastic _ _ _ _ _ _ _ HQs HP Hs Hsto HP').
  split_and!; [done..|].
  exact (refresh_policy_row_nonnegative _ _ _ _ _ _ _ HP Hs Hnn HP').
Qed.

Lemma qlearning_step_invariant gamma alpha (t : nat)
    (st st' : qlearning_state) w w' :
  shape (env_nS E) (env_nA E) (ql_Q st) →
  shape (env_nS E) (env_nA E) (ql_policy st) →
  row_stochastic (ql_policy st) →
  nonnegative (ql_policy st) →
  qlearning_step E gamma alpha t st w = Some (st', w') →
  shape (env_nS E) (env_nA E) (ql_Q st') ∧
  shape (env_nS E) (env_nA E) (ql_policy st') ∧
  row_stochastic (ql_policy st') ∧
  nonnegative (ql_policy st').
Proof.
  intros HQ HP Hsto Hnn
    (action & w1 & s_next & reward & done & w2 & policy' &
     _ & _ & HQ' & HP' & -> & _)%qlearning_step_Some.
  apply qlearning_update_Some in HQ' as (row' & m & q & _ & _ & _ & HQ').
  destruct (tset_in_range _ _ _ _ _ _ _ HQ HQ') as [Hs _].
  pose proof (tset_shape _ _ _ _ _ _ _ HQ HQ') as HQs.
  destruct (refresh_policy_row_stochastic _ _ _ _ _ _ _ HQs HP Hs Hsto HP').
  split_and!; [done..|].
  exact (refresh_policy_row_nonnegative _ _ _ _ _ _ _ HP Hs Hnn HP').
Qed.
End steps.

(** ** Invariants of the Monte Carlo evaluation *)

Lemma for_range_invariant {A} (I : A → Prop) (n : nat)
    (body : nat → A → option A) (init r : A) :
  (∀ i a a', (i < n)%nat → I a → body i a = Some a' → I a') →
  I init → for_range n body init = Some r → I r.
Proof.
  revert r. induction n as [|n IH]; intros r Hbody Hinit Hloop.
  - by injection Hloop as <-.
  - rewrite for_range_S in Hloop.
    apply bind_Some in Hloop as (a & Hloop & Ha).
    apply (Hbody n a); [lia| |done].
    apply IH; [|done..]. intros i x x' Hi. apply Hbody. lia.
Qed.

Lemma mc_update_shape (nS nA : nat) (Q_value n_visits visit_flag : table)
    (state action : nat) (G : Qc) (Q' N' : table) :
  shape nS nA Q_value →
  mc_update Q_value n_visits visit_flag state action G = Some (Q', N') →
  shape nS nA Q'.
Proof.
  intros HQ H. unfold mc_update in H.
  apply bind_Some in H as (cnt & _ & H).
  apply bind_Some in H as (N1 & _ & H).
  apply bind_Some in H as (q & _ & H).
  apply bind_Some in H as (cnt' & _ & H).
  apply bind_Some in H as (step & _ & H).
  apply bind_Some in H as (Q1 & HQ1 & H).
  apply bind_Some in H as (flag & _ & [= <- <-]).
  by eapply tset_shape.
Qed.

Lemma mc_evaluate_episode_shape (nS nA nS' nA' : nat) (episode : list triple)
    (Q_value n_visits : table) (gamma : Qc) (Q' N' : table) :
  shape nS nA Q_value →
  mc_evaluate_episode nS' nA' episode Q_value n_visits gamma = Some (Q', N') →
  shape nS nA Q'.
Proof.
  intros HQ H. unfold mc_evaluate_episode in H.
  apply (for_range_invariant (λ tables, shape nS nA tables.1)) in H; [done| |done].
  intros i [Q N] [Q1 N1] _ HQs Hvisit. simpl in *.
  apply bind_Some in Hvisit as (ep & _ & Hvisit).
  apply bind_Some in Hvisit as (flag & _ & Hvisit).
  case_decide.
  - apply bind_Some in Hvisit as (G & _ & Hvisit).
    by eapply mc_update_shape.
  - by injection Hvisit as <- <-.
Qed.

Lemma uniform_policy_shape (nS nA : nat) : shape nS nA (uniform_policy nS nA).
Proof. apply shape_initial_policy. Qed.

Lemma uniform_policy_stochastic (nS nA : nat) :
  (0 < nA)%nat → row_stochastic (uniform_policy nS nA).
Proof.
  intros HnA. unfold row_stochastic, uniform_policy, np_ones2, np_ones.
  rewrite !fmap_replicate. apply Forall_replicate.
  assert (Qc_of_nat nA ≠ 0) as Hne by (apply Qc_of_nat_ne_0; lia).
  assert (∀ n, Qc_sum (replicate n (1 / Qc_of_nat nA)) = Qc_of_nat n / Qc_of_nat nA)
    as Hsum.
  { induction n as [|n IH].
    - simpl. rewrite Qc_of_nat_0. by field.
    - cbn [replicate]. rewrite Qc_sum_cons, IH, Qc_of_nat_S. by field. }
  rewrite Hsum. by field.
Qed.

Lemma uniform_policy_nonnegative (nS nA : nat) :
  nonnegative (uniform_policy nS nA).
Proof.
  unfold nonnegative, uniform_policy, np_ones2, np_ones.
  rewrite !fmap_replicate. apply Forall_replicate, Forall_replicate.
  by apply Qc_div_nat_nonneg.
Qed.

Section loops.
Context (E : Sim).
Implicit Types (w : world E) (gamma alpha : Qc).

Lemma mc_glie_step_invariant gamma (k : nat) (Q N policy Q' N' policy' : table)
    w w' :
  shape (env_nS E) (env_nA E) Q →
  mc_glie_step E gamma k (Q, N, policy) w = Some ((Q', N', policy'), w') →
  shape (env_nS E) (env_nA E) Q' ∧
  shape (env_nS E) (env_nA E) policy' ∧
  row_stochastic policy' ∧ nonnegative policy'.
Proof.
  intros HQ H. unfold mc_glie_step, mc_policy_evaluation in H.
  apply bind_inv in H as ([Q1 N1] & w1 & H1 & H).
  apply bind_inv in H1 as (episode & w0 & _ & [Heval ->]%lift_inv).
  apply bind_inv in H as (policy1 & w2 & [Himp ->]%lift_inv & H).
  apply ret_inv in H as [[= -> -> ->] ->].
  pose proof (mc_evaluate_episode_shape _ _ _ _ _ _ _ _ _ _ HQ Heval) as HQ1.
  split_and!; [done| | |].
  - by apply epsilon_greedy_policy_improve_rows in Himp as [? _].
  - by eapply epsilon_greedy_policy_improve_stochastic.
  - eapply epsilon_greedy_policy_improve_nonnegative; [..|done];
      apply glie_epsilon_range.
Qed.

Lemma for_steps_invariant {A} (I : A → Prop) (body : nat → A → M (world E) A)
    (t n : nat) (st st' : A) w w' :
  (∀ t st st' w w', I st → body t st w = Some (st', w') → I st') →
  I st → for_steps body t n st w = Some (st', w') → I st'.
Proof.
  intros Hbody. revert t st w. induction n as [|n IH]; intros t st w Hst H.
  - by apply ret_inv in H as [-> _].
  - cbn [for_steps] in H. apply bind_inv in H as (st1 & w1 & H1 & H).
    eapply IH; [|done]. by eapply Hbody.
Qed.

(** Hence the invariant holds all along the three control loops, started
    as the program starts them. *)
Lemma mc_glie_loop_invariant gamma (iterations : nat)
    (Q N policy : table) w w' :
  (0 < env_nA E)%nat →
  for_steps (mc_glie_step E gamma) 0 iterations
    (np_zeros2 (env_nS E) (env_nA E), np_zeros2 (env_nS E) (env_nA E),
     uniform_policy (env_nS E) (env_nA E)) w
    = Some ((Q, N, policy), w') →
  shape (env_nS E) (env_nA E) Q ∧
  shape (env_nS E) (env_nA E) policy ∧
  row_stochastic policy ∧ nonnegative policy.
Proof.
  intros HnA H.
  apply (for_steps_invariant
           (λ st, shape (env_nS E) (env_nA E) st.1.1 ∧
                  shape (env_nS E) (env_nA E) st.2 ∧
                  row_stochastic st.2 ∧ nonnegative st.2))
    in H; [done| |].
  - intros t [[Q0 N0] policy0] [[Q1 N1] policy1] w0 w1 (HQ & _ & _) Hstep.
    by eapply mc_glie_step_invariant.
  - split_and!; [apply shape_replicate|apply uniform_policy_shape| |].
    + by apply uniform_policy_stochastic.
    + apply uniform_policy_nonnegative.
Qed.

Lemma td_sarsa_loop_invariant gamma alpha (iterations s a : nat)
    (st' : sarsa_state) w w' :
  (0 < env_nA E)%nat →
  for_steps (sarsa_step E gamma alpha) 0 iterations
    {| sarsa_Q := np_zeros2 (env_nS E) (env_nA E);
       sarsa_policy := uniform_policy (env_nS E) (env_nA E);
       sarsa_s := s; sarsa_a := a |} w = Some (st', w') →
  shape (env_nS E) (env_nA E) (sarsa_Q st') ∧
  shape (env_nS E) (env_nA E) (sarsa_policy st') ∧
  row_stochastic (sarsa_policy st') ∧
  nonnegative (sarsa_policy st').
Proof.
  intros HnA H.
  apply (for_steps_invariant
           (λ st, shape (env_nS E) (env_nA E) (sarsa_Q st) ∧
                  shape (env_nS E) (env_nA E) (sarsa_policy st) ∧
                  row_stochastic (sarsa_policy st) ∧
                  nonnegative (sarsa_policy st))) in H; [done| |].
  - intros t st0 st1 w0 w1 (HQ & HP & Hsto & Hnn).
    by apply sarsa_step_invariant.
  - split_and!; [apply shape_replicate|apply uniform_policy_shape| |].
    + by apply uniform_policy_stochastic.
    + apply uniform_policy_nonnegative.
Qed.

Lemma qlearning_loop_invariant gamma alpha (iterations s : nat)
    (st' : qlearning_state) w w' :
  (0 < env_nA E)%nat →
  for_steps (qlearning_step E gamma alpha) 0 iterations
    {| ql_Q := np_zeros2 (env_nS E) (env_nA E);
       ql_policy := uniform_policy (env_nS E) (env_nA E);
       ql_s := s |} w = Some (st', w') →
  shape (env_nS E) (env_nA E) (ql_Q st') ∧
  shape (env_nS E) (env_nA E) (ql_policy st') ∧
  row_stochastic (ql_policy st') ∧
  nonnegative (ql_policy st').
Proof.
  intros HnA H.
  apply (for_steps_invariant
           (λ st, shape (env_nS E) (env_nA E) (ql_Q st) ∧
                  shape (env_nS E) (env_nA E) (ql_policy st) ∧
                  row_stochastic (ql_policy st) ∧
                  nonnegative (ql_policy st))) in H; [done| |].
  - intros t st0 st1 w0 w1 (HQ & HP & Hsto & Hnn).
    by apply qlearning_step_invariant.
  - split_and!; [apply shape_replicate|apply uniform_policy_shape| |].
    + by apply uniform_policy_stochastic.
    + apply uniform_policy_nonnegative.
Qed.
End loops.

(** C4 (as amended): in exact arithmetic every policy the control loops
    produce is a table of probability distributions, one row per state and
    one entry per action.  [epsilon_greedy_policy_improve] on a Q table of
    the shape it is told returns, when there is an action at all, a table
    of that shape whose rows sum to one and have no negative entry when
    [epsilon] is in [[0, 1]]; so is the policy of every Monte Carlo
    iteration and the uniform start policy; and each step of [td_sarsa]
    and of [qlearning], which rewrites a single row, keeps the table
    so. *)
Theorem policy_rows_sum_to_one (E : Sim) :
  (∀ Q_value nS nA epsilon,
     shape nS nA Q_value →
     ((0 < nA)%nat →
      is_Some (epsilon_greedy_policy_improve Q_value nS nA epsilon)) ∧
     ∀ P, epsilon_greedy_policy_improve Q_value nS nA epsilon = Some P →
          shape nS nA P ∧ row_stochastic P ∧
          (0 ≤ epsilon → epsilon ≤ 1 → nonnegative P)) ∧
  (∀ gamma k Q N policy Q' N' policy' w w',
     shape (env_nS E) (env_nA E) Q →
     mc_glie_step E gamma k (Q, N, policy) w = Some ((Q', N', policy'), w') →
     shape (env_nS E) (env_nA E) Q' ∧
     shape (env_nS E) (env_nA E) policy' ∧
     row_stochastic policy' ∧ nonnegative policy') ∧
  ((0 < env_nA E)%nat →
   shape (env_nS E) (env_nA E) (uniform_policy (env_nS E) (env_nA E)) ∧
   row_stochastic (uniform_policy (env_nS E) (env_nA E)) ∧
   nonnegative (uniform_policy (env_nS E) (env_nA E))) ∧
  (∀ gamma alpha t st st' w w',
     shape (env_nS E) (env_nA E) (sarsa_Q st) →
     shape (env_nS E) (env_nA E) (sarsa_policy st) →
     row_stochastic (sarsa_policy st) →
     nonnegative (sarsa_policy st) →
     sarsa_step E gamma alpha t st w = Some (st', w') →
     shape (env_nS E) (env_nA E) (sarsa_Q st') ∧
     shape (env_nS E) (env_nA E) (sarsa_policy st') ∧
     row_stochastic (sarsa_policy st') ∧
     nonnegative (sarsa_policy st')) ∧
  (∀ gamma alpha t st st' w w',
     shape (env_nS E) (env_nA E) (ql_Q st) →
     shape (env_nS E) (env_nA E) (ql_policy st) →
     row_stochastic (ql_policy st) →
     nonnegative (ql_policy st) →
     qlearning_step E gamma alpha t st w = Some (st', w') →
     shape (env_nS E) (env_nA E) (ql_Q st') ∧
     shape (env_nS E) (env_nA E) (ql_policy st') ∧
     row_stochastic (ql_policy st') ∧
     nonnegative (ql_policy st')).
Proof.
  split_and!.
  - intros * HQ. split.
    + intros HnA. apply epsilon_greedy_policy_improve_total; [done|lia].
    + intros P H. split_and!.
      * by destruct (epsilon_greedy_policy_improve_rows _ _ _ _ _ H).
      * by eapply epsilon_greedy_policy_improve_stochastic.
      * intros. by eapply epsilon_greedy_policy_improve_nonnegative.
  - intros * HQ H.
    exact (mc_glie_step_invariant _ _ _ _ _ _ _ _ _ _ _ HQ H).
  - intros HnA. split_and!.
    + apply uniform_policy_shape.
    + by apply uniform_policy_stochastic.
    + apply uniform_policy_nonnegative.
  - intros *. apply sarsa_step_invariant.
  - intros *. apply qlearning_step_invariant.
Qed.

(** ** The temporal-difference claims *)

Lemma sample_action_Some (E : Sim) (policy : table) (state : nat)
    (w w' : world E) (a : nat) :
  sample_action E policy state w = Some (a, w') ↔
  ∃ row, policy !! state = Some row ∧
         random_choice E (np_arange (length row)) row w = Some (a, w').
Proof.
  unfold sample_action. split.
  - intros (row & w0 & [Hrow ->]%lift_inv & H)%bind_inv. by exists row.
  - intros (row & Hrow & H). unfold bind, lift. by rewrite Hrow.
Qed.

Lemma tset_frame (T T' : table) (s a : nat) (v q : Qc) :
  tget T s a = Some q → tset T s a v = Some T' →
  tget T' s a = Some v ∧
  ∀ s' a', (s', a') ≠ (s, a) → tget T' s' a' = tget T s' a'.
Proof.
  intros _ Hset. split; [by eapply tget_tset_eq|].
  intros s' a' Hne. eapply tget_tset_ne; [done|]. congruence.
Qed.

(** C6: a step of [td_sarsa] executes the carried action, samples [a']
    from the row for [s'] of the policy table as it stands before this
    step's policy rewrite, sets
    [Q[s,a] := Q[s,a] + alpha * (r + gamma * Q[s',a'] - Q[s,a])] and
    nothing else in [Q], and, unless the episode is done, carries
    [(s', a')] into the next step. *)
Theorem sarsa_step_on_policy (E : Sim) (gamma alpha : Qc) (t : nat)
    (st st' : sarsa_state) (w w' : world E) :
  sarsa_step E gamma alpha t st w = Some (st', w') →
  ∃ s_next reward done w1 row_next a_next w2 q q_next,
    env_step E (sarsa_a st) w = Some (s_next, reward, done, w1) ∧
    sarsa_policy st !! s_next = Some row_next ∧
    random_choice E (np_arange (length row_next)) row_next w1
      = Some (a_next, w2) ∧
    tget (sarsa_Q st) (sarsa_s st) (sarsa_a st) = Some q ∧
    tget (sarsa_Q st) s_next a_next = Some q_next ∧
    tget (sarsa_Q st') (sarsa_s st) (sarsa_a st)
      = Some (q + alpha * (reward + gamma * q_next - q)) ∧
    (∀ s a, (s, a) ≠ (sarsa_s st, sarsa_a st) →
       tget (sarsa_Q st') s a = tget (sarsa_Q st) s a) ∧
    (done = false → sarsa_s st' = s_next ∧ sarsa_a st' = a_next ∧ w' = w2).
Proof.
  intros (s_next & reward & done & w1 & a_next & w2 & policy' &
          Hstep & Hnext & HQ & _ & _ & Hdone)%sarsa_step_Some.
  apply sample_action_Some in Hnext as (row_next & Hrow & Hchoice).
  apply sarsa_update_Some in HQ as (q & q_next & Hq & Hqn & Hset).
  destruct (tset_frame _ _ _ _ _ _ Hq Hset) as [Hnew Hframe].
  exists s_next, reward, done, w1, row_next, a_next, w2, q, q_next.
  split_and!; try done. by intros ->.
Qed.

(** C5: a step of [qlearning] sets
    [Q[s,a] := Q[s,a] + alpha * (r + gamma * m - Q[s,a])] with [m] the
    maximum of the whole row [Q[s']]: the new table is a function of
    [(Q, s, a, r, s')] alone, no action is drawn at [s'].  On the table
    [[0,0],[1,2],[0,0]] with [s=0], [a=1], [r=1], [s'=1] the SARSA update
    with [a'=0] and the Q-learning update give different [Q[s,a]]. *)
Theorem qlearning_step_off_policy (E : Sim) :
  (∀ gamma alpha t st st' (w w' : world E),
     qlearning_step E gamma alpha t st w = Some (st', w') →
     ∃ action w1 s_next reward done w2 row_next m q,
       sample_action E (ql_policy st) (ql_s st) w = Some (action, w1) ∧
       env_step E action w1 = Some (s_next, reward, done, w2) ∧
       ql_Q st !! s_next = Some row_next ∧ is_row_max row_next m ∧
       tget (ql_Q st) (ql_s st) action = Some q ∧
       tget (ql_Q st') (ql_s st) action
         = Some (q + alpha * (reward + gamma * m - q)) ∧
       (∀ s a, (s, a) ≠ (ql_s st, action) →
          tget (ql_Q st') s a = tget (ql_Q st) s a) ∧
       qlearning_update (ql_Q st) (ql_s st) action reward s_next gamma alpha
         = Some (ql_Q st')) ∧
  (∃ Q_value Q_sarsa Q_ql,
     sarsa_update Q_value 0 1 1 1 0 (frac 9 10) (frac 1 10) = Some Q_sarsa ∧
     qlearning_update Q_value 0 1 1 1 (frac 9 10) (frac 1 10) = Some Q_ql ∧
     tget Q_sarsa 0 1 = Some (frac 19 100) ∧
     tget Q_ql 0 1 = Some (frac 28 100) ∧
     tget Q_sarsa 0 1 ≠ tget Q_ql 0 1).
Proof.
  split.
  - intros gamma alpha t st st' w w'
      (action & w1 & s_next & reward & done & w2 & policy' &
       Haction & Hstep & HQ & _ & _ & _)%qlearning_step_Some.
    pose proof HQ as (row_next & m & q & Hrow & Hm & Hq & Hset)%qlearning_update_Some.
    destruct (tset_frame _ _ _ _ _ _ Hq Hset) as [Hnew Hframe].
    exists action, w1, s_next, reward, done, w2, row_next, m, q.
    split_and!; try done. by apply np_amax_is_row_max.
  - exists [[0; 0]; [1; frac 2 1]; [0; 0]],
           [[0; frac 19 100]; [1; frac 2 1]; [0; 0]],
           [[0; frac 28 100]; [1; frac 2 1]; [0; 0]].
    split_and!; by_evaluation.
Qed.

(** C10: the tables written by a step do not depend on its [done] flag.
    Whatever [done] is, the new Q table of a [td_sarsa] step is
    [sarsa_update] of the old one, bootstrap term [gamma * Q[s',a']]
    included, and that of a [qlearning] step is [qlearning_update] of the
    old one, bootstrap term [gamma * max Q[s']] included; the policy is the
    refresh of row [s] in either case.  [done] only selects between a
    reset and carrying [s'] (and [a']) over.  Conversely, once the
    environment step, the draw, the update and the refresh go through,
    the step returns these tables for either value of [done]. *)
Theorem td_updates_ignore_done (E : Sim) :
  (∀ gamma alpha t st st' (w w' w1 w2 : world E) s_next reward done a_next,
     sarsa_step E gamma alpha t st w = Some (st', w') →
     env_step E (sarsa_a st) w = Some (s_next, reward, done, w1) →
     sample_action E (sarsa_policy st) s_next w1 = Some (a_next, w2) →
     ∃ q q_next,
       tget (sarsa_Q st) (sarsa_s st) (sarsa_a st) = Some q ∧
       tget (sarsa_Q st) s_next a_next = Some q_next ∧
       tget (sarsa_Q st') (sarsa_s st) (sarsa_a st)
         = Some (q + alpha * (reward + gamma * q_next - q)) ∧
       sarsa_update (sarsa_Q st) (sarsa_s st) (sarsa_a st) reward s_next a_next
         gamma alpha = Some (sarsa_Q st') ∧
       refresh_policy_row (sarsa_Q st') (sarsa_policy st) (sarsa_s st)
         (env_nA E) t = Some (sarsa_policy st') ∧
       if done then
         ∃ w3, env_reset E w2 = Some (sarsa_s st', w3) ∧
               sample_action E (sarsa_policy st') (sarsa_s st') w3
                 = Some (sarsa_a st', w')
       else sarsa_s st' = s_next ∧ sarsa_a st' = a_next ∧ w' = w2) ∧
  (∀ gamma alpha t st st' (w w' w1 w2 : world E) action s_next reward done,
     qlearning_step E gamma alpha t st w = Some (st', w') →
     sample_action E (ql_policy st) (ql_s st) w = Some (action, w1) →
     env_step E action w1 = Some (s_next, reward, done, w2) →
     ∃ q row_next m,
       tget (ql_Q st) (ql_s st) action = Some q ∧
       ql_Q st !! s_next = Some row_next ∧ is_row_max row_next m ∧
       tget (ql_Q st') (ql_s st) action
         = Some (q + alpha * (reward + gamma * m - q)) ∧
       qlearning_update (ql_Q st) (ql_s st) action reward s_next gamma alpha
         = Some (ql_Q st') ∧
       refresh_policy_row (ql_Q st') (ql_policy st) (ql_s st) (env_nA E) t
         = Some (ql_policy st') ∧
       if done then env_reset E w2 = Some (ql_s st', w')
       else ql_s st' = s_next ∧ w' = w2) ∧
  (∀ gamma alpha t st (w w1 w2 : world E) s_next reward done a_next
     Q' policy',
     env_step E (sarsa_a st) w = Some (s_next, reward, done, w1) →
     sample_action E (sarsa_policy st) s_next w1 = Some (a_next, w2) →
     sarsa_update (sarsa_Q st) (sarsa_s st) (sarsa_a st) reward s_next a_next
       gamma alpha = Some Q' →
     refresh_policy_row Q' (sarsa_policy st) (sarsa_s st) (env_nA E) t
       = Some policy' →
     (done = false →
      sarsa_step E gamma alpha t st w
      = Some ({| sarsa_Q := Q'; sarsa_policy := policy';
                 sarsa_s := s_next; sarsa_a := a_next |}, w2)) ∧
     (done = true →
      ∀ s0 w3 a0 w',
        env_reset E w2 = Some (s0, w3) →
        sample_action E policy' s0 w3 = Some (a0, w') →
        sarsa_step E gamma alpha t st w
        = Some ({| sarsa_Q := Q'; sarsa_policy := policy';
                   sarsa_s := s0; sarsa_a := a0 |}, w'))) ∧
  (∀ gamma alpha t st (w w1 w2 : world E) action s_next reward done
     Q' policy',
     sample_action E (ql_policy st) (ql_s st) w = Some (action, w1) →
     env_step E action w1 = Some (s_next, reward, done, w2) →
     qlearning_update (ql_Q st) (ql_s st) action reward s_next gamma alpha
       = Some Q' →
     refresh_policy_row Q' (ql_policy st) (ql_s st) (env_nA E) t
       = Some policy' →
     (done = false →
      qlearning_step E gamma alpha t st w
      = Some ({| ql_Q := Q'; ql_policy := policy'; ql_s := s_next |}, w2)) ∧
     (done = true →
      ∀ s0 w',
        env_reset E w2 = Some (s0, w') →
        qlearning_step E gamma alpha t st w
        = Some ({| ql_Q := Q'; ql_policy := policy'; ql_s := s0 |}, w'))).
Proof.
  split_and!.
  - intros gamma alpha t st st' w w' w1 w2 s_next reward done a_next
      (s_next' & reward' & done' & w1' & a_next' & w2' & policy' &
       Hstep' & Hnext' & HQ & HP & <- & Hdone)%sarsa_step_Some Hstep Hnext.
    rewrite Hstep in Hstep'. injection Hstep' as <- <- <- <-.
    rewrite Hnext in Hnext'. injection Hnext' as <- <-.
    pose proof HQ as (q & q_next & Hq & Hqn & Hset)%sarsa_update_Some.
    exists q, q_next. split_and!; try done. by eapply tget_tset_eq.
  - intros gamma alpha t st st' w w' w1 w2 action s_next reward done
      (action' & w1' & s_next' & reward' & done' & w2' & policy' &
       Haction' & Hstep' & HQ & HP & <- & Hdone)%qlearning_step_Some
      Haction Hstep.
    rewrite Haction in Haction'. injection Haction' as <- <-.
    rewrite Hstep in Hstep'. injection Hstep' as <- <- <- <-.
    pose proof HQ as (row_next & m & q & Hrow & Hm & Hq & Hset)%qlearning_update_Some.
    exists q, row_next, m. split_and!; try done.
    + by apply np_amax_is_row_max.
    + by eapply tget_tset_eq.
  - intros gamma alpha t st w w1 w2 s_next reward done a_next Q' policy'
      Hstep Hnext HQ HP. split.
    + intros ->. apply sarsa_step_Some.
      exists s_next, reward, false, w1, a_next, w2, policy'.
      by split_and!.
    + intros -> s0 w3 a0 w' Hreset Hdraw. apply sarsa_step_Some.
      exists s_next, reward, true, w1, a_next, w2, policy'.
      split_and!; try done. by exists w3.
  - intros gamma alpha t st w w1 w2 action s_next reward done Q' policy'
      Haction Hstep HQ HP. split.
    + intros ->. apply qlearning_step_Some.
      exists action, w1, s_next, reward, false, w2, policy'.
      by split_and!.
    + intros -> s0 w' Hreset. apply qlearning_step_Some.
      exists action, w1, s_next, reward, true, w2, policy'.
      by split_and!.
Qed.

(** ** Episode sampler *)

Section episodes.
Context (E : Sim).
Implicit Types (w : world E) (policy : table) (episode : list triple).

Lemma steps_taken_S policy (n : nat) (s : nat) w (tr : list (triple * bool)) w' :
  steps_taken E policy (S n) s w = Some (tr, w') ↔
  ∃ a r next done w1 rest,
    take_one_step E policy s w = Some ((a, r, next, done), w1) ∧
    steps_taken E policy n next w1 = Some (rest, w') ∧
    tr = ((s, a, r), done) :: rest.
Proof.
  cbn [steps_taken]. split.
  - intros ([[[a r] next] done] & w1 & Hstep & H)%bind_inv.
    apply bind_inv in H as (rest & w2 & Hrest & [-> ->]%ret_inv).
    by exists a, r, next, done, w1, rest.
  - intros (a & r & next & done & w1 & rest & Hstep & Hrest & ->).
    rewrite (bind_Some_l _ _ _ _ _ Hstep).
    by rewrite (bind_Some_l _ _ _ _ _ Hrest).
Qed.

Lemma steps_taken_length policy (n : nat) (s : nat) w tr w' :
  steps_taken E policy n s w = Some (tr, w') → length tr = n.
Proof.
  revert s w tr. induction n as [|n IH]; intros s w tr H.
  - by apply ret_inv in H as [-> _].
  - apply steps_taken_S in H as (a & r & next & done & w1 & rest & _ & H & ->).
    cbn [length]. f_equal. by eapply IH.
Qed.

Lemma episode_loop_length policy (n : nat) episode (s : nat) w episode' w' :
  episode_loop E policy n episode s w = Some (episode', w') →
  (length episode' ≤ length episode + n)%nat.
Proof.
  revert episode s w. induction n as [|n IH]; intros episode s w H.
  - apply ret_inv in H as [-> _]. lia.
  - cbn [episode_loop] in H.
    apply bind_inv in H as ([[[a r] next] done] & w1 & _ & H).
    destruct done.
    + apply ret_inv in H as [-> _]. rewrite length_app. simpl. lia.
    + apply IH in H. rewrite length_app in H. simpl in H. lia.
Qed.

(** No step reports [done]: the loop runs its whole range. *)
Lemma episode_loop_never_done policy (n : nat) episode (s : nat) w tr w' :
  steps_taken E policy n s w = Some (tr, w') →
  Forall (λ step, step.2 = false) tr →
  episode_loop E policy n episode s w = Some (episode ++ tr.*1, w').
Proof.
  revert episode s w tr. induction n as [|n IH]; intros episode s w tr H Hnd.
  - apply ret_inv in H as [-> ->]. by rewrite app_nil_r.
  - apply steps_taken_S in H as (a & r & next & done & w1 & rest & Hstep & H & ->).
    apply Forall_cons_1 in Hnd as [Hd Hnd]. simpl in Hd. subst done.
    cbn [episode_loop]. rewrite (bind_Some_l _ _ _ _ _ Hstep).
    rewrite (IH _ _ _ _ H Hnd). by rewrite fmap_cons, <-app_assoc.
Qed.

(** Step [i] is the first to report [done]: the loop stops after it. *)
Lemma episode_loop_done_at policy (i n : nat) episode (s : nat) w tr w' :
  (i < n)%nat →
  steps_taken E policy (S i) s w = Some (tr, w') →
  (∀ j step, (j < i)%nat → tr !! j = Some step → step.2 = false) →
  (∃ step, tr !! i = Some step ∧ step.2 = true) →
  episode_loop E policy n episode s w = Some (episode ++ tr.*1, w').
Proof.
  revert n episode s w tr.
  induction i as [|i IH]; intros n episode s w tr Hi H Hbefore Hat;
    (destruct n as [|n]; [lia|]);
    apply steps_taken_S in H as (a & r & next & done & w1 & rest & Hstep & H & ->);
    cbn [episode_loop]; rewrite (bind_Some_l _ _ _ _ _ Hstep).
  - destruct Hat as (step & [= <-] & Hd). simpl in Hd. subst done.
    by apply ret_inv in H as [-> ->].
  - assert (done = false) as -> by (by apply (Hbefore 0%nat _ ltac:(lia) eq_refl)).
    rewrite (IH n (episode ++ [(s, a, r)]) next w1 rest); [|lia|done| |done].
    + by rewrite fmap_cons, <-app_assoc.
    + intros j step Hj. apply (Hbefore (S j)). lia.
Qed.
End episodes.

(** C7: [generate_episode] never returns more than [max_steps] triples.
    Measured against the steps the environment would take from the reset
    state: if none of the first [max_steps] steps reports [done], the
    episode is exactly those [max_steps] steps; if step [i < max_steps] is
    the first to report [done], the episode is exactly the first [i+1]
    steps. *)
Theorem generate_episode_length (E : Sim) (policy : table) (max_steps : nat)
    (w : world E) :
  (∀ episode w',
     generate_episode E policy max_steps w = Some (episode, w') →
     (length episode ≤ max_steps)%nat) ∧
  (∀ s0 w0 tr w',
     env_reset E w = Some (s0, w0) →
     steps_taken E policy max_steps s0 w0 = Some (tr, w') →
     Forall (λ step, step.2 = false) tr →
     generate_episode E policy max_steps w = Some (tr.*1, w') ∧
     length (tr.*1) = max_steps) ∧
  (∀ i s0 w0 tr w',
     (i < max_steps)%nat →
     env_reset E w = Some (s0, w0) →
     steps_taken E policy (S i) s0 w0 = Some (tr, w') →
     (∀ j step, (j < i)%nat → tr !! j = Some step → step.2 = false) →
     (∃ step, tr !! i = Some step ∧ step.2 = true) →
     generate_episode E policy max_steps w = Some (tr.*1, w') ∧
     length (tr.*1) = S i).
Proof.
  unfold generate_episode. split_and!.
  - intros episode w' (s0 & w0 & _ & H)%bind_inv.
    by apply episode_loop_length in H.
  - intros s0 w0 tr w' Hreset Hsteps Hnd.
    rewrite (bind_Some_l _ _ _ _ _ Hreset).
    rewrite (episode_loop_never_done _ _ _ _ _ _ _ _ Hsteps Hnd).
    by rewrite length_fmap, (steps_taken_length _ _ _ _ _ _ _ Hsteps).
  - intros i s0 w0 tr w' Hi Hreset Hsteps Hbefore Hat.
    rewrite (bind_Some_l _ _ _ _ _ Hreset).
    rewrite (episode_loop_done_at _ _ _ _ _ _ _ _ _ Hi Hsteps Hbefore Hat).
    by rewrite length_fmap, (steps_taken_length _ _ _ _ _ _ _ Hsteps).
Qed.

(** ** Monte Carlo incremental mean *)

Lemma tset_is_Some (T : table) (s a : nat) (q v : Qc) :
  tget T s a = Some q → ∃ T', tset T s a v = Some T'.
Proof.
  intros (row & Hrow & Ha)%tget_Some. eexists. apply tset_Some.
  exists row. split_and!; [done| |done]. by eapply lookup_lt_Some.
Qed.

Lemma mc_update_Some (Q_value n_visits visit_flag : table) (state action : nat)
    (G : Qc) (Q' N' : table) :
  mc_update Q_value n_visits visit_flag state action G = Some (Q', N') ↔
  ∃ cnt q,
    tget n_visits state action = Some cnt ∧
    tset n_visits state action (cnt + 1) = Some N' ∧
    tget Q_value state action = Some q ∧
    cnt + 1 ≠ 0 ∧
    tset Q_value state action (q + (G - q) / (cnt + 1)) = Some Q' ∧
    is_Some (tget visit_flag state action).
Proof.
  unfold mc_update. split.
  - intros H.
    apply bind_Some in H as (cnt & Hcnt & H).
    apply bind_Some in H as (N1 & HN1 & H).
    apply bind_Some in H as (q & Hq & H).
    apply bind_Some in H as (cnt' & Hcnt' & H).
    apply bind_Some in H as (step & [Hne ->]%py_div_Some & H).
    apply bind_Some in H as (Q1 & HQ1 & H).
    apply bind_Some in H as (flag & Hflag & [= <- <-]).
    rewrite (tget_tset_eq _ _ _ _ _ HN1) in Hcnt'. injection Hcnt' as <-.
    exists cnt, q. by split_and!.
  - intros (cnt & q & Hcnt & HN & Hq & Hne & HQ & [flag Hflag]).
    rewrite Hcnt. cbn [mbind option_bind]. rewrite HN. cbn [mbind option_bind].
    rewrite Hq. cbn [mbind option_bind].
    rewrite (tget_tset_eq _ _ _ _ _ HN). cbn [mbind option_bind].
    rewrite py_div_ne by done. cbn [mbind option_bind].
    rewrite HQ. cbn [mbind option_bind]. by rewrite Hflag.
Qed.

Lemma mc_update_repeat_S (n : nat) (visit_flag : table) (state action : nat)
    (G : Qc) (tables : table * table) :
  mc_update_repeat (S n) visit_flag state action G tables =
  '(Q_value, n_visits) ← mc_update_repeat n visit_flag state action G tables;
  mc_update Q_value n_visits visit_flag state action G.
Proof. done. Qed.

(** C8 (as amended): in exact arithmetic, starting from a visit count of
    zero and any [Q[s,a]], [n >= 1] incremental-mean updates with the same
    return [G] leave [Q[s,a] = G] (and the visit count at [n]). *)
Theorem mc_update_repeat_equal_returns (n : nat)
    (Q_value n_visits visit_flag : table) (state action : nat) (G q0 : Qc) :
  tget n_visits state action = Some 0 →
  tget Q_value state action = Some q0 →
  is_Some (tget visit_flag state action) →
  (1 ≤ n)%nat →
  ∃ Q' N',
    mc_update_repeat n visit_flag state action G (Q_value, n_visits)
      = Some (Q', N') ∧
    tget Q' state action = Some G ∧
    tget N' state action = Some (Qc_of_nat n).
Proof.
  intros HN HQ Hflag Hn.
  assert (∃ Q' N' q,
    mc_update_repeat n visit_flag state action G (Q_value, n_visits)
      = Some (Q', N') ∧
    tget Q' state action = Some q ∧ ((1 ≤ n)%nat → q = G) ∧
    tget N' state action = Some (Qc_of_nat n)) as (Q' & N' & q & H & Hq & HG & HN').
  { clear Hn. induction n as [|n IH].
    - exists Q_value, n_visits, q0. split_and!; [done|done|lia|].
      by rewrite Qc_of_nat_0.
    - destruct IH as (Q1 & N1 & q & H & Hq & HG & HN1).
      assert (Qc_of_nat n + 1 ≠ 0) as Hne.
      { rewrite <-Qc_of_nat_S. by apply Qc_of_nat_ne_0. }
      destruct (tset_is_Some N1 state action _ (Qc_of_nat n + 1) HN1) as [N2 HN2].
      destruct (tset_is_Some Q1 state action _
                  (q + (G - q) / (Qc_of_nat n + 1)) Hq) as [Q2 HQ2].
      exists Q2, N2, (q + (G - q) / (Qc_of_nat n + 1)).
      split_and!.
      + rewrite mc_update_repeat_S, H. cbn [mbind option_bind].
        apply mc_update_Some. exists (Qc_of_nat n), q. by split_and!.
      + by eapply tget_tset_eq.
      + intros _. destruct n as [|n].
        * rewrite Qc_of_nat_0. by field.
        * rewrite HG by lia. by field.
      + rewrite Qc_of_nat_S. by eapply tget_tset_eq. }
  exists Q', N'. split_and!; [done| |done]. by rewrite Hq, HG.
Qed.

(** ** First-visit bookkeeping *)

Lemma tget_np_zeros2 (nS nA s a : nat) (flag : Qc) :
  tget (np_zeros2 nS nA) s a = Some flag → flag = 0.
Proof.
  intros (row & Hrow & Ha)%tget_Some.
  apply lookup_replicate in Hrow as [-> _].
  by apply lookup_replicate in Ha as [-> _].
Qed.

Lemma occurrences_snoc (s a : nat) (episode : list triple) (ep : triple) :
  occurrences s a (episode ++ [ep]) =
  (occurrences s a episode +
   if bool_decide (triple_state ep = s ∧ triple_action ep = a) then 1 else 0)%nat.
Proof.
  unfold occurrences. rewrite list.filter_app, length_app, filter_cons, filter_nil.
  case_bool_decide as H.
  - by rewrite decide_True.
  - by rewrite decide_False.
Qed.

(** The flag table is never written, so the loop of
    [mc_policy_evaluation] updates a pair at each of its occurrences: the
    visit count grows by the number of occurrences in the episode. *)
Lemma mc_evaluate_episode_every_visit (nS nA : nat) (episode : list triple)
    (Q_value n_visits : table) (gamma : Qc) (Q' N' : table)
    (s a : nat) (c : Qc) :
  mc_evaluate_episode nS nA episode Q_value n_visits gamma = Some (Q', N') →
  tget n_visits s a = Some c →
  tget N' s a = Some (c + Qc_of_nat (occurrences s a episode)).
Proof.
  unfold mc_evaluate_episode. intros Hloop Hc.
  set (returns := generate_returns episode gamma) in Hloop.
  set (visit_flag := np_zeros2 nS nA) in Hloop.
  assert (∀ k Qk Nk, (k ≤ length episode)%nat →
    for_range k (mc_visit episode returns visit_flag) (Q_value, n_visits)
      = Some (Qk, Nk) →
    tget Nk s a = Some (c + Qc_of_nat (occurrences s a (take k episode))))
    as Hinv.
  { induction k as [|k IH]; intros Qk Nk Hk Hk_loop.
    - injection Hk_loop as <- <-. rewrite take_0. unfold occurrences. simpl.
      rewrite Qc_of_nat_0, Qcplus_0_r. done.
    - rewrite for_range_S in Hk_loop.
      apply bind_Some in Hk_loop as ([Q1 N1] & Hprev & Hvisit).
      specialize (IH Q1 N1 ltac:(lia) Hprev).
      unfold mc_visit in Hvisit.
      apply bind_Some in Hvisit as (ep & Hep & Hvisit).
      apply bind_Some in Hvisit as (flag & Hflag & Hvisit).
      apply tget_np_zeros2 in Hflag as ->.
      rewrite decide_True in Hvisit by done.
      apply bind_Some in Hvisit as (G & _ & Hvisit).
      apply mc_update_Some in Hvisit as (cnt & q & Hcnt & HN & _).
      rewrite (take_S_r _ _ _ Hep), occurrences_snoc.
      case_bool_decide as Hpair.
      + destruct Hpair as [<- <-]. rewrite IH in Hcnt. injection Hcnt as <-.
        rewrite (tget_tset_eq _ _ _ _ _ HN). f_equal.
        rewrite Nat.add_1_r, Qc_of_nat_S. ring.
      + rewrite (tget_tset_ne _ _ _ _ s a _ HN) by naive_solver.
        by rewrite IH, Nat.add_0_r. }
  specialize (Hinv (length episode) Q' N' ltac:(lia) Hloop).
  by rewrite take_ge in Hinv.
Qed.

(** C1 (violated by the program): the episode that visits [(2, 1)] twice
    has returns [5/2] and [3].  [mc_policy_evaluation] raises the visit
    count of [(2, 1)] to two and leaves [Q[2,1] = 11/4], the mean of both
    returns; the first-visit rule of its documentation raises the count
    to one and leaves [Q[2,1] = 5/2], the return of the first
    occurrence. *)
Theorem mc_policy_evaluation_updates_every_visit :
  generate_episode (replay_sim 3 2) (uniform_policy 3 2) 500 revisit_world
    = Some (revisit_episode, revisit_world_end) ∧
  generate_returns revisit_episode (frac 1 2) = [frac 5 2; frac 3 1] ∧
  mc_policy_evaluation (replay_sim 3 2) (uniform_policy 3 2)
    (np_zeros2 3 2) (np_zeros2 3 2) (frac 1 2) revisit_world
    = Some (([[0; 0]; [0; 0]; [0; frac 11 4]],
             [[0; 0]; [0; 0]; [0; frac 2 1]]), revisit_world_end) ∧
  first_visit_evaluate 3 2 revisit_episode (np_zeros2 3 2) (np_zeros2 3 2)
    (frac 1 2)
    = Some ([[0; 0]; [0; 0]; [0; frac 5 2]], [[0; 0]; [0; 0]; [0; 1]]).
Proof. split_and!; by_evaluation. Qed.

(** ** The theorems at concrete inputs *)

Lemma generate_returns_spec_witness :
  (1 < length docstring_episode)%nat ∧
  generate_returns docstring_episode (frac 9 10) !! 1%nat =
  Some (discounted_return (frac 9 10) (triple_reward <$> docstring_episode) 1).
Proof.
  split; [simpl; lia|].
  apply (proj1 (proj2 (generate_returns_spec docstring_episode (frac 9 10)))).
  simpl; lia.
Defined.

Lemma generate_returns_empty_witness :
  generate_returns [] (frac 9 10) = [] ∧
  mc_evaluate_episode 3 2 [] demo_Q (np_zeros2 3 2) (frac 9 10)
  = Some (demo_Q, np_zeros2 3 2).
Proof.
  split.
  - exact (proj1 (generate_returns_empty (frac 9 10))).
  - exact (proj2 (proj2 (generate_returns_empty (frac 9 10))) 3%nat 2%nat
             demo_Q (np_zeros2 3 2)).
Defined.

Lemma epsilon_greedy_policy_improve_spec_witness :
  epsilon_greedy_policy_improve tie_Q 1 4 (frac 2 10) = Some tie_policy ∧
  ∃ row m, tie_Q !! 0%nat = Some row ∧ is_row_max row m ∧
    tget tie_policy 0 2 =
    Some (if bool_decide (row !! 2%nat = Some m)
          then (1 - frac 2 10) / Qc_of_nat (count_eq m row)
               + frac 2 10 / Qc_of_nat 4
          else frac 2 10 / Qc_of_nat 4).
Proof.
  assert (epsilon_greedy_policy_improve tie_Q 1 4 (frac 2 10) = Some tie_policy)
    as H by by_evaluation.
  split; [exact H|].
  apply (proj1 epsilon_greedy_policy_improve_spec _ _ _ _ _ H 0%nat 2%nat); lia.
Defined.

Lemma policy_rows_sum_to_one_witness :
  (shape 1 4 tie_Q ∧
   epsilon_greedy_policy_improve tie_Q 1 4 (frac 2 10) = Some tie_policy ∧
   shape 1 4 tie_policy ∧ row_stochastic tie_policy ∧
   nonnegative tie_policy) ∧
  (shape 3 2 (np_zeros2 3 2) ∧
   mc_glie_step (replay_sim 3 2) (frac 1 2) 1
     (np_zeros2 3 2, np_zeros2 3 2, uniform_policy 3 2) revisit_world
     = Some ((revisit_Q, revisit_N, revisit_policy), revisit_world_end) ∧
   shape 3 2 revisit_Q ∧ shape 3 2 revisit_policy ∧
   row_stochastic revisit_policy ∧ nonnegative revisit_policy) ∧
  (shape 3 2 (sarsa_Q demo_sarsa_state) ∧
   shape 3 2 (sarsa_policy demo_sarsa_state) ∧
   row_stochastic (sarsa_policy demo_sarsa_state) ∧
   nonnegative (sarsa_policy demo_sarsa_state) ∧
   sarsa_step (replay_sim 3 2) (frac 9 10) (frac 1 10) 0 demo_sarsa_state
     (demo_world true [0%nat; 1%nat])
     = Some (demo_sarsa_reset, demo_world_end []) ∧
   shape 3 2 (sarsa_Q demo_sarsa_reset) ∧
   shape 3 2 (sarsa_policy demo_sarsa_reset) ∧
   row_stochastic (sarsa_policy demo_sarsa_reset) ∧
   nonnegative (sarsa_policy demo_sarsa_reset)) ∧
  (shape 3 2 (ql_Q demo_ql_state) ∧
   shape 3 2 (ql_policy demo_ql_state) ∧
   row_stochastic (ql_policy demo_ql_state) ∧
   nonnegative (ql_policy demo_ql_state) ∧
   qlearning_step (replay_sim 3 2) (frac 9 10) (frac 1 10) 0 demo_ql_state
     (demo_world true [1%nat])
     = Some (demo_ql_reset, demo_world_end []) ∧
   shape 3 2 (ql_Q demo_ql_reset) ∧
   shape 3 2 (ql_policy demo_ql_reset) ∧
   row_stochastic (ql_policy demo_ql_reset) ∧
   nonnegative (ql_policy demo_ql_reset)).
Proof.
  assert (shape 1 4 tie_Q) as Htie by (unfold shape; by_evaluation).
  assert (epsilon_greedy_policy_improve tie_Q 1 4 (frac 2 10)
          = Some tie_policy) as Himp by by_evaluation.
  assert (0 ≤ frac 2 10) as He0 by by_evaluation.
  assert (frac 2 10 ≤ 1) as He1 by by_evaluation.
  assert (shape 3 2 (np_zeros2 3 2)) as Hzero by (unfold shape; by_evaluation).
  assert (mc_glie_step (replay_sim 3 2) (frac 1 2) 1
            (np_zeros2 3 2, np_zeros2 3 2, uniform_policy 3 2) revisit_world
          = Some ((revisit_Q, revisit_N, revisit_policy), revisit_world_end))
    as Hmc by by_evaluation.
  assert (shape 3 2 demo_Q) as HQ by (unfold shape; by_evaluation).
  assert (shape 3 2 (uniform_policy 3 2)) as HP
    by (unfold shape; by_evaluation).
  assert (row_stochastic (uniform_policy 3 2)) as Hsto
    by (unfold row_stochastic; by_evaluation).
  assert (nonnegative (uniform_policy 3 2)) as Hnn
    by (unfold nonnegative; by_evaluation).
  assert (sarsa_step (replay_sim 3 2) (frac 9 10) (frac 1 10) 0
            demo_sarsa_state (demo_world true [0%nat; 1%nat])
          = Some (demo_sarsa_reset, demo_world_end [])) as Hsarsa
    by by_evaluation.
  assert (qlearning_step (replay_sim 3 2) (frac 9 10) (frac 1 10) 0
            demo_ql_state (demo_world true [1%nat])
          = Some (demo_ql_reset, demo_world_end [])) as Hql by by_evaluation.
  pose proof (policy_rows_sum_to_one (replay_sim 3 2))
    as (Himprove & Hglie & _ & Hs & Hq).
  pose proof (proj2 (Himprove tie_Q 1%nat 4%nat (frac 2 10) Htie)
                tie_policy Himp) as (I1 & I2 & I3).
  pose proof (Hglie (frac 1 2) 1%nat _ _ _ _ _ _ _ _ Hzero Hmc)
    as (G1 & G2 & G3 & G4).
  pose proof (Hs (frac 9 10) (frac 1 10) 0%nat demo_sarsa_state
                demo_sarsa_reset _ _ HQ HP Hsto Hnn Hsarsa)
    as (S1 & S2 & S3 & S4).
  pose proof (Hq (frac 9 10) (frac 1 10) 0%nat demo_ql_state demo_ql_reset
                _ _ HQ HP Hsto Hnn Hql)
    as (Q1 & Q2 & Q3 & Q4).
  exact (conj (conj Htie (conj Himp (conj I1 (conj I2 (I3 He0 He1)))))
           (conj (conj Hzero (conj Hmc (conj G1 (conj G2 (conj G3 G4)))))
              (conj (conj HQ (conj HP (conj Hsto (conj Hnn
                       (conj Hsarsa (conj S1 (conj S2 (conj S3 S4))))))))
                 (conj HQ (conj HP (conj Hsto (conj Hnn
                    (conj Hql (conj Q1 (conj Q2 (conj Q3 Q4))))))))))).
Defined.

(** C4 fails as stated in the program's own arithmetic.  In binary64,
    [epsilon_greedy_policy_improve] on the Q row [[1, 0]] with
    [epsilon = 1/11] (the value of GLIE iteration [k = 9]) stores the row
    [[0.9545454545454545, 0.045454545454545456]], whose entries add up to
    [1 - 5/2^56] exactly and to [0.9999999999999999] in binary64: not to
    one. *)
Lemma policy_rows_sum_to_one_float64_counterexample :
  (0 <? F64.glie_epsilon 9)%float = true ∧
  (F64.glie_epsilon 9 <=? 1)%float = true ∧
  F64.epsilon_greedy_policy_improve [[1%float; 0%float]] 1 2
    (F64.glie_epsilon 9) = Some f64_greedy_policy ∧
  Forall (λ row, Qc_sum (F64.exact <$> row)
                 = 1 - frac 5 72057594037927936) f64_greedy_policy ∧
  Forall (λ row, F64.np_sum row = 0x1.fffffffffffffp-1%float)
    f64_greedy_policy ∧
  Forall (λ row, (F64.np_sum row =? 1)%float = false) f64_greedy_policy ∧
  ¬ F64.row_stochastic f64_greedy_policy.
Proof.
  split; [by_float_evaluation|]. split; [by_float_evaluation|].
  split; [by_float_evaluation|].
  assert (Qc_sum (F64.exact <$> [0x1.e8ba2e8ba2e8bp-1%float;
                                 0x1.745d1745d1746p-5%float])
          = 1 - frac 5 72057594037927936) as Hsum by by_evaluation.
  split; [by repeat constructor|].
  split; [repeat constructor; by_float_evaluation|].
  split; [repeat constructor; by_float_evaluation|].
  intros H. apply Forall_cons_1 in H as [H _]. rewrite Hsum in H.
  revert H. apply (bool_decide_eq_false_1 _). vm_compute. reflexivity.
Qed.

Lemma qlearning_step_off_policy_witness :
  qlearning_step (replay_sim 3 2) (frac 9 10) (frac 1 10) 0 demo_ql_state
    (demo_world true [1%nat])
    = Some (demo_ql_reset, demo_world_end []) ∧
  ∃ action w1 s_next reward done w2 row_next m q,
    sample_action (replay_sim 3 2) (ql_policy demo_ql_state)
      (ql_s demo_ql_state) (demo_world true [1%nat]) = Some (action, w1) ∧
    env_step (replay_sim 3 2) action w1 = Some (s_next, reward, done, w2) ∧
    ql_Q demo_ql_state !! s_next = Some row_next ∧ is_row_max row_next m ∧
    tget (ql_Q demo_ql_state) (ql_s demo_ql_state) action = Some q ∧
    tget (ql_Q demo_ql_reset) (ql_s demo_ql_state) action
      = Some (q + frac 1 10 * (reward + frac 9 10 * m - q)) ∧
    (∀ s a, (s, a) ≠ (ql_s demo_ql_state, action) →
       tget (ql_Q demo_ql_reset) s a = tget (ql_Q demo_ql_state) s a) ∧
    qlearning_update (ql_Q demo_ql_state) (ql_s demo_ql_state) action reward
      s_next (frac 9 10) (frac 1 10) = Some (ql_Q demo_ql_reset).
Proof.
  assert (qlearning_step (replay_sim 3 2) (frac 9 10) (frac 1 10) 0
            demo_ql_state (demo_world true [1%nat])
          = Some (demo_ql_reset, demo_world_end [])) as Hstep by by_evaluation.
  split; [exact Hstep|].
  exact (proj1 (qlearning_step_off_policy (replay_sim 3 2)) _ _ _ _ _ _ _ Hstep).
Defined.

Lemma sarsa_step_on_policy_witness :
  sarsa_step (replay_sim 3 2) (frac 9 10) (frac 1 10) 0 demo_sarsa_state
    (demo_world false [0%nat; 1%nat])
    = Some (demo_sarsa_carry, demo_world_end [1%nat]) ∧
  ∃ s_next reward done w1 row_next a_next w2 q q_next,
    env_step (replay_sim 3 2) (sarsa_a demo_sarsa_state)
      (demo_world false [0%nat; 1%nat]) = Some (s_next, reward, done, w1) ∧
    sarsa_policy demo_sarsa_state !! s_next = Some row_next ∧
    random_choice (replay_sim 3 2) (np_arange (length row_next)) row_next w1
      = Some (a_next, w2) ∧
    tget (sarsa_Q demo_sarsa_state) (sarsa_s demo_sarsa_state)
      (sarsa_a demo_sarsa_state) = Some q ∧
    tget (sarsa_Q demo_sarsa_state) s_next a_next = Some q_next ∧
    tget (sarsa_Q demo_sarsa_carry) (sarsa_s demo_sarsa_state)
      (sarsa_a demo_sarsa_state)
      = Some (q + frac 1 10 * (reward + frac 9 10 * q_next - q)) ∧
    (∀ s a, (s, a) ≠ (sarsa_s demo_sarsa_state, sarsa_a demo_sarsa_state) →
       tget (sarsa_Q demo_sarsa_carry) s a = tget (sarsa_Q demo_sarsa_state) s a) ∧
    (done = false →
     sarsa_s demo_sarsa_carry = s_next ∧ sarsa_a demo_sarsa_carry = a_next ∧
     demo_world_end [1%nat] = w2).
Proof.
  assert (sarsa_step (replay_sim 3 2) (frac 9 10) (frac 1 10) 0
            demo_sarsa_state (demo_world false [0%nat; 1%nat])
          = Some (demo_sarsa_carry, demo_world_end [1%nat])) as Hstep
    by by_evaluation.
  split; [exact Hstep|].
  exact (sarsa_step_on_policy (replay_sim 3 2) _ _ _ _ _ _ _ Hstep).
Defined.

Lemma td_updates_ignore_done_witness :
  (sarsa_step (replay_sim 3 2) (frac 9 10) (frac 1 10) 0 demo_sarsa_state
     (demo_world true [0%nat; 1%nat])
     = Some (demo_sarsa_reset, demo_world_end []) ∧
   env_step (replay_sim 3 2) (sarsa_a demo_sarsa_state)
     (demo_world true [0%nat; 1%nat])
     = Some (1%nat, 1, true, demo_world_end [0%nat; 1%nat]) ∧
   sample_action (replay_sim 3 2) (sarsa_policy demo_sarsa_state) 1
     (demo_world_end [0%nat; 1%nat]) = Some (0%nat, demo_world_end [1%nat]) ∧
   ∃ q q_next,
     tget (sarsa_Q demo_sarsa_state) 0 1 = Some q ∧
     tget (sarsa_Q demo_sarsa_state) 1 0 = Some q_next ∧
     tget (sarsa_Q demo_sarsa_reset) 0 1
       = Some (q + frac 1 10 * (1 + frac 9 10 * q_next - q)) ∧
     sarsa_update (sarsa_Q demo_sarsa_state) 0 1 1 1 0 (frac 9 10) (frac 1 10)
       = Some (sarsa_Q demo_sarsa_reset) ∧
     refresh_policy_row (sarsa_Q demo_sarsa_reset)
       (sarsa_policy demo_sarsa_state) 0 2 0
       = Some (sarsa_policy demo_sarsa_reset) ∧
     ∃ w3, env_reset (replay_sim 3 2) (demo_world_end [1%nat])
             = Some (sarsa_s demo_sarsa_reset, w3) ∧
           sample_action (replay_sim 3 2) (sarsa_policy demo_sarsa_reset)
             (sarsa_s demo_sarsa_reset) w3
             = Some (sarsa_a demo_sarsa_reset, demo_world_end [])) ∧
  (qlearning_step (replay_sim 3 2) (frac 9 10) (frac 1 10) 0 demo_ql_state
     (demo_world true [1%nat])
     = Some (demo_ql_reset, demo_world_end []) ∧
   sample_action (replay_sim 3 2) (ql_policy demo_ql_state)
     (ql_s demo_ql_state) (demo_world true [1%nat])
     = Some (1%nat, demo_world true []) ∧
   env_step (replay_sim 3 2) 1 (demo_world true [])
     = Some (1%nat, 1, true, demo_world_end []) ∧
   ∃ q row_next m,
     tget (ql_Q demo_ql_state) 0 1 = Some q ∧
     ql_Q demo_ql_state !! 1%nat = Some row_next ∧ is_row_max row_next m ∧
     tget (ql_Q demo_ql_reset) 0 1
       = Some (q + frac 1 10 * (1 + frac 9 10 * m - q)) ∧
     qlearning_update (ql_Q demo_ql_state) 0 1 1 1 (frac 9 10) (frac 1 10)
       = Some (ql_Q demo_ql_reset) ∧
     refresh_policy_row (ql_Q demo_ql_reset) (ql_policy demo_ql_state) 0 2 0
       = Some (ql_policy demo_ql_reset) ∧
     env_reset (replay_sim 3 2) (demo_world_end [])
       = Some (ql_s demo_ql_reset, demo_world_end [])) ∧
  (sarsa_update (sarsa_Q demo_sarsa_state) 0 1 1 1 0 (frac 9 10) (frac 1 10)
     = Some (sarsa_Q demo_sarsa_reset) ∧
   refresh_policy_row (sarsa_Q demo_sarsa_reset)
     (sarsa_policy demo_sarsa_state) 0 2 0 = Some demo_policy' ∧
   env_step (replay_sim 3 2) (sarsa_a demo_sarsa_state)
     (demo_world false [0%nat; 1%nat])
     = Some (1%nat, 1, false, demo_world_end [0%nat; 1%nat]) ∧
   sarsa_step (replay_sim 3 2) (frac 9 10) (frac 1 10) 0 demo_sarsa_state
     (demo_world false [0%nat; 1%nat])
   = Some ({| sarsa_Q := sarsa_Q demo_sarsa_reset;
              sarsa_policy := demo_policy';
              sarsa_s := 1; sarsa_a := 0 |}, demo_world_end [1%nat]) ∧
   sarsa_step (replay_sim 3 2) (frac 9 10) (frac 1 10) 0 demo_sarsa_state
     (demo_world true [0%nat; 1%nat])
   = Some ({| sarsa_Q := sarsa_Q demo_sarsa_reset;
              sarsa_policy := demo_policy';
              sarsa_s := 0; sarsa_a := 1 |}, demo_world_end [])).
Proof.
  assert (sarsa_step (replay_sim 3 2) (frac 9 10) (frac 1 10) 0
            demo_sarsa_state (demo_world true [0%nat; 1%nat])
          = Some (demo_sarsa_reset, demo_world_end [])) as Hstep
    by by_evaluation.
  assert (env_step (replay_sim 3 2) (sarsa_a demo_sarsa_state)
            (demo_world true [0%nat; 1%nat])
          = Some (1%nat, 1, true, demo_world_end [0%nat; 1%nat])) as Henv
    by by_evaluation.
  assert (env_step (replay_sim 3 2) (sarsa_a demo_sarsa_state)
            (demo_world false [0%nat; 1%nat])
          = Some (1%nat, 1, false, demo_world_end [0%nat; 1%nat])) as Henv'
    by by_evaluation.
  assert (sample_action (replay_sim 3 2) (sarsa_policy demo_sarsa_state) 1
            (demo_world_end [0%nat; 1%nat])
          = Some (0%nat, demo_world_end [1%nat])) as Hnext
    by by_evaluation.
  assert (qlearning_step (replay_sim 3 2) (frac 9 10) (frac 1 10) 0
            demo_ql_state (demo_world true [1%nat])
          = Some (demo_ql_reset, demo_world_end [])) as Hql by by_evaluation.
  assert (sample_action (replay_sim 3 2) (ql_policy demo_ql_state)
            (ql_s demo_ql_state) (demo_world true [1%nat])
          = Some (1%nat, demo_world true [])) as Hdraw by by_evaluation.
  assert (env_step (replay_sim 3 2) 1 (demo_world true [])
          = Some (1%nat, 1, true, demo_world_end [])) as Hqenv
    by by_evaluation.
  assert (sarsa_update (sarsa_Q demo_sarsa_state) 0 1 1 1 0 (frac 9 10)
            (frac 1 10) = Some (sarsa_Q demo_sarsa_reset)) as Hupd
    by by_evaluation.
  assert (refresh_policy_row (sarsa_Q demo_sarsa_reset)
            (sarsa_policy demo_sarsa_state) 0 2 0 = Some demo_policy')
    as Hrefresh by by_evaluation.
  assert (env_reset (replay_sim 3 2) (demo_world_end [1%nat])
          = Some (0%nat, demo_world_end [1%nat])) as Hreset by by_evaluation.
  assert (sample_action (replay_sim 3 2) demo_policy' 0
            (demo_world_end [1%nat]) = Some (1%nat, demo_world_end []))
    as Hredraw by by_evaluation.
  pose proof (td_updates_ignore_done (replay_sim 3 2))
    as (Hsarsa & Hqlearning & Hsarsa_returns & _).
  pose proof (Hsarsa (frac 9 10) (frac 1 10) 0%nat demo_sarsa_state
                demo_sarsa_reset _ _ _ _ _ _ _ _ Hstep Henv Hnext) as A.
  pose proof (Hqlearning (frac 9 10) (frac 1 10) 0%nat demo_ql_state
                demo_ql_reset _ _ _ _ _ _ _ _ Hql Hdraw Hqenv) as B.
  pose proof (proj1 (Hsarsa_returns (frac 9 10) (frac 1 10) 0%nat
                       demo_sarsa_state _ _ _ _ _ _ _ _ _
                       Henv' Hnext Hupd Hrefresh) eq_refl) as C1.
  pose proof (proj2 (Hsarsa_returns (frac 9 10) (frac 1 10) 0%nat
                       demo_sarsa_state _ _ _ _ _ _ _ _ _
                       Henv Hnext Hupd Hrefresh) eq_refl _ _ _ _
                Hreset Hredraw) as C2.
  exact (conj (conj Hstep (conj Henv (conj Hnext A)))
           (conj (conj Hql (conj Hdraw (conj Hqenv B)))
              (conj Hupd (conj Hrefresh (conj Henv' (conj C1 C2)))))).
Defined.

Lemma generate_episode_length_witness :
  (1 < 500)%nat ∧
  env_reset (replay_sim 3 2) revisit_world = Some (2%nat, revisit_world) ∧
  steps_taken (replay_sim 3 2) (uniform_policy 3 2) 2 2 revisit_world
    = Some (revisit_steps, revisit_world_end) ∧
  (∀ j step, (j < 1)%nat → revisit_steps !! j = Some step → step.2 = false) ∧
  (∃ step, revisit_steps !! 1%nat = Some step ∧ step.2 = true) ∧
  generate_episode (replay_sim 3 2) (uniform_policy 3 2) 500 revisit_world
    = Some (revisit_steps.*1, revisit_world_end) ∧
  length (revisit_steps.*1) = 2%nat.
Proof.
  assert (env_reset (replay_sim 3 2) revisit_world = Some (2%nat, revisit_world))
    as Hreset by reflexivity.
  assert (steps_taken (replay_sim 3 2) (uniform_policy 3 2) 2 2 revisit_world
          = Some (revisit_steps, revisit_world_end)) as Hsteps by by_evaluation.
  assert (∀ j step, (j < 1)%nat → revisit_steps !! j = Some step → step.2 = false)
    as Hbefore.
  { intros j step Hj. destruct j as [|j]; [|lia].
    simpl. intros [= <-]. reflexivity. }
  assert (∃ step, revisit_steps !! 1%nat = Some step ∧ step.2 = true) as Hat.
  { eexists. split; reflexivity. }
  split; [lia|]. split; [exact Hreset|]. split; [exact Hsteps|].
  split; [exact Hbefore|]. split; [exact Hat|].
  exact (proj2 (proj2 (generate_episode_length (replay_sim 3 2)
                         (uniform_policy 3 2) 500 revisit_world))
           1%nat 2%nat revisit_world revisit_steps revisit_world_end
           ltac:(lia) Hreset Hsteps Hbefore Hat).
Defined.

Lemma mc_update_repeat_equal_returns_witness :
  tget [[0]] 0 0 = Some 0 ∧
  tget [[frac 5 1]] 0 0 = Some (frac 5 1) ∧
  is_Some (tget [[0]] 0 0) ∧
  (1 ≤ 3)%nat ∧
  ∃ Q' N',
    mc_update_repeat 3 [[0]] 0 0 (frac 2 1) ([[frac 5 1]], [[0]])
      = Some (Q', N') ∧
    tget Q' 0 0 = Some (frac 2 1) ∧
    tget N' 0 0 = Some (Qc_of_nat 3).
Proof.
  split; [reflexivity|]. split; [reflexivity|]. split; [by eexists|].
  split; [lia|].
  apply (mc_update_repeat_equal_returns 3 [[frac 5 1]] [[0]] [[0]] 0 0
           (frac 2 1) (frac 5 1)); [reflexivity|reflexivity|by eexists|lia].
Defined.

(** C8 fails as stated in the program's own arithmetic.  In binary64, one
    update from [Q[s,a] = 2^54] with [G = 1] leaves [Q[s,a] = 0], because
    [1 - 2^54] rounds to [-2^54]; and three updates from [Q[s,a] = 1] with
    [G = 0.1] leave [0.09999999999999999].  So the update repeated [n]
    times does not give back [G] from every initial value, even when
    equality is the [==] of binary64. *)
Lemma mc_update_repeat_equal_returns_float64_counterexample :
  F64.mc_update_repeat 1 [[0%float]] 0 0 1%float
    ([[0x1p54%float]], [[0%float]])
  = Some ([[0%float]], [[1%float]]) ∧
  (0 =? 1)%float = false ∧
  F64.mc_update_repeat 3 [[0%float]] 0 0 0x1.999999999999ap-4%float
    ([[1%float]], [[0%float]])
  = Some ([[0x1.9999999999999p-4%float]], [[3%float]]) ∧
  (0x1.9999999999999p-4 =? 0x1.999999999999ap-4)%float = false ∧
  ¬ (∀ (n : nat) (Q_value n_visits visit_flag : F64.table)
       (state action : nat) (G q0 : float),
       F64.tget n_visits state action = Some 0%float →
       F64.tget Q_value state action = Some q0 →
       is_Some (F64.tget visit_flag state action) →
       (1 ≤ n)%nat →
       ∃ Q' N' q,
         F64.mc_update_repeat n visit_flag state action G (Q_value, n_visits)
           = Some (Q', N') ∧
         F64.tget Q' state action = Some q ∧ (q =? G)%float = true).
Proof.
  split_and!; try by_float_evaluation.
  intros H.
  destruct (H 1%nat [[0x1p54%float]] [[0%float]] [[0%float]] 0%nat 0%nat
              1%float 0x1p54%float eq_refl eq_refl (mk_is_Some _ _ eq_refl)
              (le_n 1))
    as (Q' & N' & q & Hrun & Hq & Heq).
  vm_compute in Hrun. injection Hrun as <- <-.
  vm_compute in Hq. injection Hq as <-.
  vm_compute in Heq. discriminate Heq.
Qed.

(** * Further properties of the code *)

(** ** More on the return calculator *)

Lemma Qc_sum_scale (c : Qc) (l : list Qc) :
  Qc_sum ((λ x, c * x) <$> l) = c * Qc_sum l.
Proof.
  induction l as [|x l IH]; [simpl; ring|].
  rewrite fmap_cons, !Qc_sum_cons, IH. ring.
Qed.

Lemma discounted_return_ge (gamma : Qc) (rewards : list Qc) (i : nat) :
  (length rewards ≤ i)%nat → discounted_return gamma rewards i = 0.
Proof.
  intros Hi. unfold discounted_return.
  by replace (length rewards - i)%nat with 0%nat by lia.
Qed.

Lemma discounted_return_step (gamma : Qc) (rewards : list Qc) (i : nat) (r : Qc) :
  rewards !! i = Some r →
  discounted_return gamma rewards i =
  r + gamma * discounted_return gamma rewards (S i).
Proof.
  intros Hr. pose proof (lookup_lt_Some _ _ _ Hr) as Hi.
  unfold discounted_return.
  replace (length rewards - i)%nat with (S (length rewards - S i)) by lia.
  cbn [seq]. rewrite fmap_cons, Qc_sum_cons, Nat.sub_diag, nth_lookup, Hr.
  simpl. rewrite <-Qc_sum_scale, <-list_fmap_compose.
  rewrite Qcmult_1_l. f_equal. f_equal.
  apply list_fmap_ext. intros k j [-> Hk]%lookup_seq. simpl.
  replace (S (i + k) - i)%nat with (S k) by lia.
  replace (i + k - i)%nat with k by lia.
  simpl. ring.
Qed.

Lemma lookup_generate_returns (episode : list triple) (gamma : Qc) (i : nat) :
  generate_returns episode gamma !! i =
  if decide (i < length episode)%nat
  then Some (discounted_return gamma (triple_reward <$> episode) i)
  else None.
Proof.
  rewrite generate_returns_unfold, list_lookup_fmap.
  case_decide as Hi.
  - rewrite lookup_seq_lt by done. simpl. f_equal.
    rewrite <-(length_fmap triple_reward episode). apply np_dot_discounted.
  - by rewrite lookup_seq_ge by lia.
Qed.

(** X1: in exact arithmetic, the returns obey the backward recursion
    [returns[i] = reward[i] + gamma * returns[i+1]], the return after the
    last step counting as zero. *)
Theorem generate_returns_backward (episode : list triple) (gamma : Qc)
    (i : nat) (ep : triple) :
  episode !! i = Some ep →
  generate_returns episode gamma !! i =
  Some (triple_reward ep
        + gamma * default 0 (generate_returns episode gamma !! S i)).
Proof.
  intros Hep. pose proof (lookup_lt_Some _ _ _ Hep) as Hi.
  rewrite !lookup_generate_returns, decide_True by done.
  rewrite (discounted_return_step _ _ _ (triple_reward ep))
    by (by rewrite list_lookup_fmap, Hep).
  do 3 f_equal. case_decide as Hi'; [done|].
  simpl. apply discounted_return_ge. rewrite length_fmap. lia.
Qed.

Lemma discounted_return_undiscounted (rewards : list Qc) (i : nat) :
  discounted_return 1 rewards i = Qc_sum (drop i rewards).
Proof.
  unfold discounted_return. f_equal. apply list_eq. intros k.
  rewrite list_lookup_fmap, lookup_drop.
  destruct (decide (k < length rewards - i)%nat) as [Hk|Hk].
  - rewrite lookup_seq_lt by done. simpl.
    destruct (lookup_lt_is_Some_2 rewards (i + k)%nat) as [r Hr]; [lia|].
    rewrite nth_lookup, Hr, Qcpower_1. simpl. f_equal. ring.
  - rewrite lookup_seq_ge by lia. simpl. symmetry.
    apply lookup_ge_None. lia.
Qed.

(** X2: the two ends of the discount range.  With [gamma = 0] (where
    numpy's [0 ** 0] is [1]) each return is the step's own reward; with
    [gamma = 1] it is the plain sum of the rewards from that step on. *)
Theorem generate_returns_extreme_discounts (episode : list triple) :
  generate_returns episode 0 = triple_reward <$> episode ∧
  ∀ i, (i < length episode)%nat →
    generate_returns episode 1 !! i =
    Some (Qc_sum (drop i (triple_reward <$> episode))).
Proof.
  split.
  - apply list_eq. intros i. rewrite list_lookup_fmap.
    destruct (episode !! i) as [ep|] eqn:Hep.
    + pose proof (lookup_lt_Some _ _ _ Hep) as Hi.
      rewrite lookup_generate_returns, decide_True by done.
      rewrite (discounted_return_step _ _ _ (triple_reward ep))
        by (by rewrite list_lookup_fmap, Hep).
      simpl. f_equal. ring.
    + rewrite lookup_generate_returns, decide_False; [done|].
      apply lookup_ge_None in Hep. lia.
  - intros i Hi. rewrite lookup_generate_returns, decide_True by done.
    by rewrite discounted_return_undiscounted.
Qed.

(** ** More on the episode sampler *)

Section episode_trace.
Context (E : Sim).
Implicit Types (w : world E) (policy : table) (episode : list triple).

End episode_trace.


(** ** The deterministic policy *)

Lemma head_filter_seq (P : nat → Prop) `{!∀ i, Decision (P i)} (n i : nat) :
  head (filter P (seq 0 n)) = Some i →
  P i ∧ (i < n)%nat ∧ ∀ j, (j < i)%nat → ¬ P j.
Proof.
  intros Hhead. pose proof Hhead as Hin%head_Some_elem_of.
  apply list_elem_of_filter in Hin as [HP Hin%elem_of_seq].
  apply head_filter_Some in Hhead as (l1 & l2 & Hseq & Hl1).
  split_and!; [done|lia|]. intros j Hj.
  assert (i = length l1) as ->.
  { assert (seq 0 n !! length l1 = Some i) as Hi
      by (rewrite Hseq; by apply list_lookup_middle).
    apply lookup_seq in Hi as [-> _]. done. }
  destruct (lookup_lt_is_Some_2 l1 j Hj) as [x Hx].
  assert (seq 0 n !! j = Some x) as Hjx
    by (rewrite Hseq; by apply lookup_app_l_Some).
  apply lookup_seq in Hjx as [-> _]. simpl in Hx.
  by eapply Forall_lookup_1 in Hl1.
Qed.

Lemma np_argmax_Some (row : list Qc) (i : nat) :
  np_argmax row = Some i →
  ∃ m, row !! i = Some m ∧ is_row_max row m ∧
       ∀ j, (j < i)%nat → row !! j ≠ Some m.
Proof.
  intros H. unfold np_argmax in H.
  apply bind_Some in H as (m & Hm & H).
  apply head_filter_seq in H as (Hi & _ & Hfirst).
  exists m. split_and!; [done|by apply np_amax_is_row_max|done].
Qed.


(** ** More on the Monte Carlo evaluation *)

Lemma tget_np_zeros2_Some (nS nA s a : nat) :
  tget (np_zeros2 nS nA) s a = Some 0 ↔ (s < nS)%nat ∧ (a < nA)%nat.
Proof.
  unfold np_zeros2, np_zeros. rewrite tget_Some. split.
  - intros (row & [-> Hs]%lookup_replicate & [_ Ha]%lookup_replicate). done.
  - intros [Hs Ha]. exists (replicate nA 0).
    split; by apply lookup_replicate.
Qed.

Lemma mc_visit_Some (nS nA : nat) (episode : list triple) (returns : list Qc)
    (i : nat) (Q N Q' N' : table) :
  mc_visit episode returns (np_zeros2 nS nA) i (Q, N) = Some (Q', N') ↔
  ∃ ep G,
    episode !! i = Some ep ∧
    (triple_state ep < nS)%nat ∧ (triple_action ep < nA)%nat ∧
    returns !! i = Some G ∧
    mc_update Q N (np_zeros2 nS nA) (triple_state ep) (triple_action ep) G
      = Some (Q', N').
Proof.
  unfold mc_visit. split.
  - intros H. apply bind_Some in H as (ep & Hep & H).
    apply bind_Some in H as (flag & Hflag & H).
    pose proof (tget_np_zeros2 _ _ _ _ _ Hflag) as ->.
    apply tget_np_zeros2_Some in Hflag as [Hs Ha].
    rewrite decide_True in H by done.
    apply bind_Some in H as (G & HG & H). by exists ep, G.
  - intros (ep & G & Hep & Hs & Ha & HG & H).
    rewrite Hep. cbn [mbind option_bind].
    rewrite (proj2 (tget_np_zeros2_Some nS nA _ _)) by done.
    cbn [mbind option_bind]. rewrite decide_True by done.
    rewrite HG. done.
Qed.

Lemma for_range_body_Some {A} (n : nat) (body : nat → A → option A)
    (init r : A) (i : nat) :
  for_range n body init = Some r → (i < n)%nat →
  ∃ a a', body i a = Some a'.
Proof.
  revert r. induction n as [|n IH]; intros r H Hi; [lia|].
  rewrite for_range_S in H. apply bind_Some in H as (a & Hloop & Ha).
  destruct (decide (i = n)) as [->|Hne]; [by exists a, r|].
  eapply IH; [done|lia].
Qed.

Lemma occurrences_0 (s a : nat) (episode : list triple) (ep : triple) :
  occurrences s a episode = 0%nat → ep ∈ episode →
  ¬ (triple_state ep = s ∧ triple_action ep = a).
Proof.
  unfold occurrences. intros Hocc Hin Hpair.
  apply nil_length_inv in Hocc.
  assert (ep ∈ filter (λ ep, triple_state ep = s ∧ triple_action ep = a) episode)
    as Hf by (by apply list_elem_of_filter).
  rewrite Hocc in Hf. by apply elem_of_nil in Hf.
Qed.

(** X4: the evaluation of an episode leaves alone every pair that does not
    occur in it: its [Q_value] and [n_visits] entries are read back
    unchanged. *)
Theorem mc_evaluate_episode_frame (nS nA : nat) (episode : list triple)
    (Q_value n_visits : table) (gamma : Qc) (Q' N' : table) (s a : nat) :
  mc_evaluate_episode nS nA episode Q_value n_visits gamma = Some (Q', N') →
  occurrences s a episode = 0%nat →
  tget Q' s a = tget Q_value s a ∧ tget N' s a = tget n_visits s a.
Proof.
  unfold mc_evaluate_episode. intros H Hocc.
  apply (for_range_invariant
           (λ tables, tget tables.1 s a = tget Q_value s a ∧
                      tget tables.2 s a = tget n_visits s a)) in H;
    [done| |done].
  intros i [Q N] [Q1 N1] Hi [HQ HN]
    (ep & G & Hep & _ & _ & _ & Hvisit)%mc_visit_Some.
  simpl in *.
  apply mc_update_Some in Hvisit as (cnt & q & _ & HN1 & _ & _ & HQ1 & _).
  assert ((triple_state ep, triple_action ep) ≠ (s, a)) as Hne.
  { intros [= Hs Ha].
    by apply (occurrences_0 s a episode ep Hocc (list_elem_of_lookup_2 _ _ _ Hep)). }
  by rewrite (tget_tset_ne _ _ _ _ s a _ HQ1 Hne),
             (tget_tset_ne _ _ _ _ s a _ HN1 Hne).
Qed.

Lemma visit_returns_snoc (s a : nat) (visits : list (triple * Qc))
    (ep : triple) (G : Qc) :
  visit_returns s a (visits ++ [(ep, G)]) =
  visit_returns s a visits ++
  if bool_decide (triple_state ep = s ∧ triple_action ep = a) then [G] else [].
Proof.
  unfold visit_returns.
  rewrite list.filter_app, fmap_app, filter_cons, filter_nil. simpl.
  case_bool_decide as H.
  - by rewrite decide_True.
  - by rewrite decide_False.
Qed.

Lemma Qc_sum_app (l k : list Qc) : Qc_sum (l ++ k) = Qc_sum l + Qc_sum k.
Proof.
  induction l as [|x l IH]; [simpl; ring|].
  rewrite <-app_comm_cons, !Qc_sum_cons, IH. ring.
Qed.

(** X5: the incremental mean.  If the pair [(s, a)] had been visited [c]
    times with value [q], then after the evaluation of an episode its count
    is [c] plus its occurrences and its value [q'] satisfies
    [count' * q' = c * q + (sum of the returns at its occurrences)]:
    the table holds the running mean of all the returns seen. *)
Theorem mc_evaluate_episode_running_mean (nS nA : nat)
    (episode : list triple) (Q_value n_visits : table) (gamma : Qc)
    (Q' N' : table) (s a : nat) (c q : Qc) :
  mc_evaluate_episode nS nA episode Q_value n_visits gamma = Some (Q', N') →
  tget n_visits s a = Some c → tget Q_value s a = Some q →
  tget N' s a = Some (c + Qc_of_nat (occurrences s a episode)) ∧
  ∃ q', tget Q' s a = Some q' ∧
    (c + Qc_of_nat (occurrences s a episode)) * q' =
    c * q + Qc_sum (visit_returns s a
                      (zip episode (generate_returns episode gamma))).
Proof.
  unfold mc_evaluate_episode. intros Hloop Hc Hq.
  set (returns := generate_returns episode gamma) in *.
  assert (length returns = length episode) as Hlen.
  { unfold returns. by rewrite generate_returns_unfold, length_fmap, length_seq. }
  assert (∀ k Qk Nk, (k ≤ length episode)%nat →
    for_range k (mc_visit episode returns (np_zeros2 nS nA))
      (Q_value, n_visits) = Some (Qk, Nk) →
    tget Nk s a = Some (c + Qc_of_nat (occurrences s a (take k episode))) ∧
    ∃ qk, tget Qk s a = Some qk ∧
      (c + Qc_of_nat (occurrences s a (take k episode))) * qk =
      c * q + Qc_sum (visit_returns s a (take k (zip episode returns))))
    as Hinv.
  { induction k as [|k IH]; intros Qk Nk Hk Hk_loop.
    - injection Hk_loop as <- <-. rewrite !take_0.
      unfold occurrences, visit_returns. simpl. rewrite Qc_of_nat_0.
      split; [by rewrite Qcplus_0_r|]. exists q. split; [done|]. ring.
    - rewrite for_range_S in Hk_loop.
      apply bind_Some in Hk_loop as ([Q1 N1] & Hprev & Hvisit).
      destruct (IH Q1 N1 ltac:(lia) Hprev) as (HN1 & qk & HQ1 & Hmean).
      apply mc_visit_Some in Hvisit as (ep & G & Hep & _ & _ & HG & Hvisit).
      apply mc_update_Some in Hvisit
        as (cnt & q1 & Hcnt & HN & Hq1 & Hne & HQ & _).
      assert (zip episode returns !! k = Some (ep, G)) as Hzip
        by (by rewrite lookup_zip_with, Hep, HG).
      rewrite (take_S_r _ _ _ Hep), (take_S_r _ _ _ Hzip).
      rewrite occurrences_snoc, visit_returns_snoc, Qc_sum_app.
      case_bool_decide as Hpair.
      + destruct Hpair as [<- <-].
        rewrite HN1 in Hcnt. injection Hcnt as <-.
        rewrite HQ1 in Hq1. injection Hq1 as <-.
        rewrite (tget_tset_eq _ _ _ _ _ HN), (tget_tset_eq _ _ _ _ _ HQ).
        rewrite Nat.add_1_r, Qc_of_nat_S.
        split; [f_equal; ring|]. eexists. split; [done|].
        rewrite (Qcplus_assoc (c * q)), <-Hmean. simpl. field.
        exact Hne.
      + rewrite (tget_tset_ne _ _ _ _ s a _ HN) by naive_solver.
        rewrite (tget_tset_ne _ _ _ _ s a _ HQ) by naive_solver.
        rewrite Nat.add_0_r. split; [done|]. exists qk. split; [done|].
        rewrite Hmean. simpl. ring. }
  specialize (Hinv (length episode) Q' N' ltac:(lia) Hloop).
  rewrite take_ge in Hinv by lia.
  rewrite take_ge in Hinv by (rewrite length_zip_with; lia).
  done.
Qed.

Lemma shape_tget (nS nA : nat) (T : table) (s a : nat) :
  shape nS nA T → (s < nS)%nat → (a < nA)%nat → is_Some (tget T s a).
Proof.
  intros HT Hs Ha. destruct (shape_lookup _ _ _ _ HT Hs) as (row & Hrow & Hlen).
  destruct (lookup_lt_is_Some_2 row a) as [x Hx]; [lia|].
  exists x. apply tget_Some. by exists row.
Qed.

Lemma nonnegative_tget (T : table) (s a : nat) (x : Qc) :
  nonnegative T → tget T s a = Some x → 0 ≤ x.
Proof.
  intros HT (row & Hrow & Hx)%tget_Some.
  eapply Forall_lookup_1 in HT; [|done].
  by eapply Forall_lookup_1 in HT.
Qed.

Lemma nonnegative_tset (T T' : table) (s a : nat) (v : Qc) :
  nonnegative T → 0 ≤ v → tset T s a v = Some T' → nonnegative T'.
Proof.
  intros HT Hv (row & Hrow & Ha & ->)%tset_Some.
  apply Forall_insert; [done|]. apply Forall_insert; [|done].
  by eapply Forall_lookup_1 in HT.
Qed.

Lemma Qc_succ_nonneg (x : Qc) : 0 ≤ x → 0 ≤ x + 1 ∧ x + 1 ≠ 0.
Proof.
  intros Hx. assert (0 < x + 1) as Hpos by (by apply Qcplus_nonneg_pos).
  split; [by apply Qclt_le_weak|]. by apply not_symmetry, Qclt_not_eq.
Qed.

(** X6: on tables of shape [(nS, nA)] with no negative visit count, the
    evaluation of an episode goes through exactly when every pair of the
    episode is within [(nS, nA)]; otherwise indexing raises.  When it goes
    through, the tables keep their shape and the counts stay
    non-negative. *)
Theorem mc_evaluate_episode_succeeds_iff (nS nA : nat)
    (episode : list triple) (Q_value n_visits : table) (gamma : Qc) :
  shape nS nA Q_value → shape nS nA n_visits → nonnegative n_visits →
  (is_Some (mc_evaluate_episode nS nA episode Q_value n_visits gamma) ↔
   in_range nS nA episode) ∧
  (∀ Q' N',
     mc_evaluate_episode nS nA episode Q_value n_visits gamma = Some (Q', N') →
     shape nS nA Q' ∧ shape nS nA N' ∧ nonnegative N').
Proof.
  intros HQ HN Hnn. unfold mc_evaluate_episode.
  set (returns := generate_returns episode gamma).
  assert (∀ Q N Q' N' i,
    shape nS nA Q ∧ shape nS nA N ∧ nonnegative N →
    mc_visit episode returns (np_zeros2 nS nA) i (Q, N) = Some (Q', N') →
    shape nS nA Q' ∧ shape nS nA N' ∧ nonnegative N') as Hstep.
  { intros Q N Q' N' i (HQ0 & HN0 & Hnn0)
      (ep & G & _ & _ & _ & _ & Hupd)%mc_visit_Some.
    apply mc_update_Some in Hupd as (cnt & q & Hcnt & HN' & _ & _ & HQ' & _).
    split_and!.
    - exact (tset_shape _ _ _ _ _ _ _ HQ0 HQ').
    - exact (tset_shape _ _ _ _ _ _ _ HN0 HN').
    - apply (nonnegative_tset _ _ _ _ _ Hnn0) in HN'; [done|].
      by apply Qc_succ_nonneg, (nonnegative_tget N (triple_state ep)
                                  (triple_action ep)). }
  split; [split|].
  - intros [[Q' N'] H]. apply Forall_lookup_2. intros i ep Hep.
    destruct (for_range_body_Some _ _ _ _ i H) as ([Q N] & [Q1 N1] & Hvisit);
      [by eapply lookup_lt_Some|].
    apply mc_visit_Some in Hvisit as (ep' & G & Hep' & Hs & Ha & _).
    rewrite Hep in Hep'. by injection Hep' as <-.
  - intros Hrange.
    assert (∀ k, (k ≤ length episode)%nat →
      ∃ Qk Nk,
        for_range k (mc_visit episode returns (np_zeros2 nS nA))
          (Q_value, n_visits) = Some (Qk, Nk) ∧
        shape nS nA Qk ∧ shape nS nA Nk ∧ nonnegative Nk) as Hall.
    { induction k as [|k IH]; intros Hk; [by exists Q_value, n_visits|].
      destruct IH as (Qk & Nk & Hloop & HQk & HNk & Hnnk); [lia|].
      destruct (lookup_lt_is_Some_2 episode k) as [ep Hep]; [lia|].
      pose proof (Forall_lookup_1 _ _ _ _ Hrange Hep) as [Hs Ha].
      destruct (shape_tget _ _ _ _ _ HNk Hs Ha) as [cnt Hcnt].
      destruct (shape_tget _ _ _ _ _ HQk Hs Ha) as [q Hq].
      pose proof (nonnegative_tget _ _ _ _ Hnnk Hcnt) as [_ Hne]%Qc_succ_nonneg.
      destruct (tset_is_Some _ _ _ _ (cnt + 1) Hcnt) as [N1 HN1].
      destruct (tset_is_Some _ _ _ _
                  (q + (discounted_return gamma (triple_reward <$> episode) k
                        - q) / (cnt + 1)) Hq) as [Q1 HQ1].
      assert (mc_visit episode returns (np_zeros2 nS nA) k (Qk, Nk)
              = Some (Q1, N1)) as Hvisit.
      { apply mc_visit_Some. eexists ep, _. split_and!; [done..| |].
        - unfold returns. rewrite lookup_generate_returns.
          by rewrite decide_True by lia.
        - apply mc_update_Some. exists cnt, q. split_and!; [done..|].
          exists 0. by apply tget_np_zeros2_Some. }
      exists Q1, N1. split.
      - by rewrite for_range_S, Hloop.
      - exact (Hstep _ _ _ _ _ (conj HQk (conj HNk Hnnk)) Hvisit). }
    destruct (Hall (length episode)) as (Q' & N' & H & _); [lia|].
    by exists (Q', N').
  - intros Q' N' H.
    apply (for_range_invariant
             (λ tables, shape nS nA tables.1 ∧ shape nS nA tables.2 ∧
                        nonnegative tables.2)) in H; [done| |done].
    intros i [Q N] [Q1 N1] _. apply Hstep.
Qed.

(** ** More on the policy improvement operator *)

(** X7: [epsilon_greedy_policy_improve] goes through exactly when there is
    no state to treat, or there is at least one action and each of the
    first [nS] rows of the Q table exists and is not empty; otherwise it
    raises ([ZeroDivisionError], [IndexError] or the [ValueError] of
    [np.amax]). *)
Theorem epsilon_greedy_policy_improve_succeeds_iff (Q_value : table)
    (nS nA : nat) (epsilon : Qc) :
  is_Some (epsilon_greedy_policy_improve Q_value nS nA epsilon) ↔
  nS = 0%nat ∨
  (nA ≠ 0%nat ∧
   ∀ s, (s < nS)%nat → ∃ row, Q_value !! s = Some row ∧ row ≠ []).
Proof.
  split.
  - intros [P HP]. destruct nS as [|k]; [by left|right].
    pose proof HP as [_ Hrows]%epsilon_greedy_policy_improve_rows.
    split.
    + unfold epsilon_greedy_policy_improve in HP.
      rewrite for_range_S in HP. apply bind_Some in HP as (Pk & Hloop & Hbody).
      apply (improve_loop_inv Q_value (S k) nA epsilon k) in Hloop as [HPk _];
        [|apply shape_initial_policy|lia].
      by apply (improve_body_Some _ (S k)) in Hbody as (_ & _ & _ & _ & ? & _);
        [|done|lia].
    + intros s Hs. destruct (Hrows s Hs) as (row & m & Hrow & Hm & _).
      exists row. split; [done|]. by intros ->.
  - intros Hok. unfold epsilon_greedy_policy_improve.
    set (P0 := fmap (M := list) _ <$> np_ones2 nS nA).
    assert (shape nS nA P0) as HP0 by apply shape_initial_policy.
    assert (∀ k, (k ≤ nS)%nat →
              is_Some (for_range k (improve_state Q_value nA epsilon) P0))
      as Hall; [|by apply Hall].
    induction k as [|k IH]; intros Hk; [by eexists|].
    destruct Hok as [->|[HnA Hrows]]; [lia|].
    destruct IH as [P HP]; [lia|].
    rewrite for_range_S, HP. cbn [mbind option_bind].
    destruct (improve_loop_inv Q_value nS nA epsilon k P0 P) as [HPs _];
      [done|lia|done|].
    destruct (Hrows k) as (row & Hrow & Hne); [lia|].
    destruct (np_amax_is_Some row Hne) as [m Hm].
    exists (<[k := greedy_row row m epsilon nA]> P).
    apply (improve_body_Some _ nS); [done|lia|]. by exists row, m.
Qed.

Lemma greedy_row_explore (row : list Qc) (m : Qc) (nA : nat) :
  greedy_row row m 1 nA = replicate nA (1 / Qc_of_nat nA).
Proof.
  unfold greedy_row.
  rewrite (const_fmap _ _ (1 / Qc_of_nat nA)); [by rewrite length_seq|].
  intros _ i _. case_bool_decide; [|done]. unfold Qcdiv. ring.
Qed.

(** X8: with [epsilon = 1] the operator ignores the Q table: whenever it
    returns, it returns the uniform policy the control loops start
    from. *)
Theorem epsilon_greedy_policy_improve_explore (Q_value : table) (nS nA : nat)
    (P : table) :
  epsilon_greedy_policy_improve Q_value nS nA 1 = Some P →
  P = uniform_policy nS nA.
Proof.
  intros [[Hlen _] Hrows]%epsilon_greedy_policy_improve_rows.
  apply list_eq. intros s.
  unfold uniform_policy, np_ones2, np_ones. rewrite !fmap_replicate.
  destruct (decide (s < nS)%nat) as [Hs|Hs].
  - destruct (Hrows s Hs) as (row & m & _ & _ & ->).
    rewrite greedy_row_explore. symmetry. by apply lookup_replicate.
  - rewrite lookup_ge_None_2 by lia. symmetry.
    apply lookup_ge_None_2. rewrite length_replicate. lia.
Qed.

Lemma tget_improved (Q_value : table) (nS nA : nat) (epsilon : Qc)
    (P : table) (s i : nat) (p : Qc) :
  epsilon_greedy_policy_improve Q_value nS nA epsilon = Some P →
  tget P s i = Some p →
  (s < nS)%nat ∧ (i < nA)%nat ∧
  ∃ row m, Q_value !! s = Some row ∧ np_amax row = Some m ∧
    p = if bool_decide (row !! i = Some m)
        then (1 - epsilon) / Qc_of_nat (length (np_argwhere_eq row m))
             + epsilon / Qc_of_nat nA
        else epsilon / Qc_of_nat nA.
Proof.
  intros [HP Hrows]%epsilon_greedy_policy_improve_rows
         (prow & Hprow & Hp)%tget_Some.
  destruct (shape_lookup_length _ _ _ _ _ HP Hprow) as [Hlen Hs].
  pose proof (lookup_lt_Some _ _ _ Hp) as Hi. rewrite Hlen in Hi.
  destruct (Hrows s Hs) as (row & m & Hrow & Hm & HPs).
  rewrite Hprow in HPs. injection HPs as ->.
  rewrite lookup_greedy_row in Hp by done. injection Hp as <-.
  split_and!; [done..|]. by exists row, m.
Qed.

(** X9: for [epsilon <= 1], no action of the improved policy falls below
    the exploration floor [epsilon / nA], and an action that attains the
    row maximum of [Q] is at least as probable as any other action of
    that state. *)
Theorem epsilon_greedy_policy_improve_prefers_greedy (Q_value : table)
    (nS nA : nat) (epsilon : Qc) (P : table) (s i : nat) (p : Qc) :
  epsilon ≤ 1 →
  epsilon_greedy_policy_improve Q_value nS nA epsilon = Some P →
  tget P s i = Some p →
  epsilon / Qc_of_nat nA ≤ p ∧
  ∀ row m j pj,
    Q_value !! s = Some row → is_row_max row m → row !! i = Some m →
    tget P s j = Some pj → pj ≤ p.
Proof.
  intros Heps HP Hp.
  assert (∀ k, epsilon / Qc_of_nat nA
               ≤ (1 - epsilon) / Qc_of_nat k + epsilon / Qc_of_nat nA)
    as Hfloor.
  { intros k. rewrite <-(Qcplus_0_l (epsilon / Qc_of_nat nA)) at 1.
    apply Qcplus_le_compat; [|apply Qcle_refl].
    apply Qc_div_nat_nonneg. unfold Qcminus.
    by apply (proj1 (Qcle_minus_iff _ _)). }
  destruct (tget_improved _ _ _ _ _ _ _ _ HP Hp)
    as (Hs & Hi & row & m & Hrow & Hm & ->).
  split.
  - case_bool_decide; [apply Hfloor|apply Qcle_refl].
  - intros row' m' j pj Hrow' Hm'%np_amax_is_row_max Hi' Hpj.
    rewrite Hrow in Hrow'. injection Hrow' as <-.
    rewrite Hm in Hm'. injection Hm' as <-.
    rewrite bool_decide_eq_true_2 by done.
    destruct (tget_improved _ _ _ _ _ _ _ _ HP Hpj)
      as (_ & _ & row' & m' & Hrow' & Hm' & ->).
    rewrite Hrow in Hrow'. injection Hrow' as <-.
    rewrite Hm in Hm'. injection Hm' as <-.
    case_bool_decide; [apply Qcle_refl|apply Hfloor].
Qed.

Lemma np_argwhere_eq_unique (row : list Qc) (m : Qc) (a : nat) :
  row !! a = Some m → (∀ j, j ≠ a → row !! j ≠ Some m) →
  np_argwhere_eq row m = [a].
Proof.
  intros Ha Huniq.
  assert (NoDup (np_argwhere_eq row m)) as Hnd
    by apply list.NoDup_filter, NoDup_seq.
  assert (∀ i, i ∈ np_argwhere_eq row m → i = a) as Hall.
  { intros i Hi%elem_of_np_argwhere_eq.
    destruct (decide (i = a)); [done|]. by destruct (Huniq i). }
  apply elem_of_np_argwhere_eq in Ha.
  destruct (np_argwhere_eq row m) as [|x [|y l]].
  - by apply elem_of_nil in Ha.
  - f_equal. apply Hall. set_solver.
  - exfalso. apply list.NoDup_cons in Hnd as [Hx _]. apply Hx.
    rewrite (Hall x), (Hall y) by set_solver. set_solver.
Qed.

(** X10: with [epsilon = 0] and a row of [Q] whose maximum is attained
    once, the improved policy is deterministic on that state: it puts
    probability one on [np.argmax] of the row, the action of the
    deterministic policy the control loops return, and zero elsewhere. *)
Theorem epsilon_greedy_policy_improve_greedy_limit (Q_value : table)
    (nS nA : nat) (P : table) (s a : nat) (row : list Qc) :
  epsilon_greedy_policy_improve Q_value nS nA 0 = Some P →
  (s < nS)%nat → Q_value !! s = Some row →
  np_argmax row = Some a →
  (∀ j, j ≠ a → row !! j ≠ row !! a) →
  ∀ i, (i < nA)%nat →
    tget P s i = Some (if decide (i = a) then 1 else 0).
Proof.
  intros [_ Hrows]%epsilon_greedy_policy_improve_rows Hs Hrow Ha Huniq i Hi.
  destruct (np_argmax_Some row a Ha) as (m & Ham & Hm & _).
  rewrite Ham in Huniq.
  destruct (Hrows s Hs) as (row' & m' & Hrow' & Hm'%np_amax_is_row_max & HPs).
  rewrite Hrow in Hrow'. injection Hrow' as <-.
  assert (m' = m) as ->.
  { destruct Hm as [Hin Hub], Hm' as [Hin' Hub'].
    apply Qcle_antisym; auto. }
  unfold tget. rewrite HPs. cbn [mbind option_bind].
  rewrite lookup_greedy_row, (np_argwhere_eq_unique _ _ _ Ham Huniq) by done.
  f_equal. case_decide as Hia.
  - subst i. rewrite bool_decide_eq_true_2 by done.
    change (Qc_of_nat (length [a])) with (Qc_of_nat 1).
    rewrite (Qc_of_nat_S 0), Qc_of_nat_0. unfold Qcdiv.
    rewrite Qcplus_0_l.
    replace (/ 1) with 1 by (apply Qc_is_canon; reflexivity). ring.
  - rewrite bool_decide_eq_false_2 by auto. unfold Qcdiv. ring.
Qed.

(** ** What the control loops return *)

Lemma np_argmax_rows_greedy (nA : nat) (Q_value : table)
    (det_policy : list nat) :
  np_argmax_rows nA Q_value = Some det_policy →
  greedy_for Q_value det_policy.
Proof.
  unfold np_argmax_rows. case_decide as HnA; [done|].
  intros H%mapM_Some. split; [symmetry; by eapply Forall2_length|].
  intros s a Ha.
  destruct (Forall2_lookup_r _ _ _ _ _ H Ha) as (row & Hrow & Harg).
  destruct (np_argmax_Some row a Harg) as (m & Hm & Hmax & Hfirst).
  by exists row, m.
Qed.

Section results.
Context (E : Sim).
Implicit Types (w : world E) (gamma alpha : Qc).

Lemma sarsa_step_shape gamma alpha (t : nat) (st st' : sarsa_state) w w' :
  shape (env_nS E) (env_nA E) (sarsa_Q st) ∧
  shape (env_nS E) (env_nA E) (sarsa_policy st) →
  sarsa_step E gamma alpha t st w = Some (st', w') →
  shape (env_nS E) (env_nA E) (sarsa_Q st') ∧
  shape (env_nS E) (env_nA E) (sarsa_policy st').
Proof.
  intros [HQ HP]
    (s_next & reward & done & w1 & a_next & w2 & policy' &
     _ & _ & HQ' & HP' & -> & _)%sarsa_step_Some.
  apply sarsa_update_Some in HQ' as (q & q' & _ & _ & HQ').
  destruct (tset_in_range _ _ _ _ _ _ _ HQ HQ') as [Hs _].
  split; [exact (tset_shape _ _ _ _ _ _ _ HQ HQ')|].
  apply (refresh_policy_row_Some _ _ _ (env_nS E)) in HP'
    as (row & m & _ & _ & ->); [|done..].
  apply shape_insert; [done|apply length_greedy_row].
Qed.

Lemma qlearning_step_shape gamma alpha (t : nat) (st st' : qlearning_state)
    w w' :
  shape (env_nS E) (env_nA E) (ql_Q st) ∧
  shape (env_nS E) (env_nA E) (ql_policy st) →
  qlearning_step E gamma alpha t st w = Some (st', w') →
  shape (env_nS E) (env_nA E) (ql_Q st') ∧
  shape (env_nS E) (env_nA E) (ql_policy st').
Proof.
  intros [HQ HP]
    (action & w1 & s_next & reward & done & w2 & policy' &
     _ & _ & HQ' & HP' & -> & _)%qlearning_step_Some.
  apply qlearning_update_Some in HQ' as (row' & m & q & _ & _ & _ & HQ').
  destruct (tset_in_range _ _ _ _ _ _ _ HQ HQ') as [Hs _].
  split; [exact (tset_shape _ _ _ _ _ _ _ HQ HQ')|].
  apply (refresh_policy_row_Some _ _ _ (env_nS E)) in HP'
    as (row & m' & _ & _ & ->); [|done..].
  apply shape_insert; [done|apply length_greedy_row].
Qed.

Lemma mc_glie_Some gamma (iterations : nat) w w' (Q : table)
    (det_policy : list nat) :
  mc_glie E iterations gamma w = Some ((Q, det_policy), w') ↔
  ∃ N policy,
    for_steps (mc_glie_step E gamma) 0 iterations
      (np_zeros2 (env_nS E) (env_nA E), np_zeros2 (env_nS E) (env_nA E),
       uniform_policy (env_nS E) (env_nA E)) w = Some ((Q, N, policy), w') ∧
    np_argmax_rows (env_nA E) Q = Some det_policy.
Proof.
  unfold mc_glie. split.
  - intros ([[Q1 N] policy] & w1 & Hloop & H)%bind_inv.
    apply bind_inv in H as (det & w2 & [Hdet ->]%lift_inv & H).
    apply ret_inv in H as [[= -> ->] ->]. by exists N, policy.
  - intros (N & policy & Hloop & Hdet).
    rewrite (bind_Some_l _ _ _ _ _ Hloop). unfold bind, lift, ret.
    by rewrite Hdet.
Qed.

Lemma td_sarsa_Some gamma alpha (iterations : nat) w w' (Q : table)
    (det_policy : list nat) :
  td_sarsa E iterations gamma alpha w = Some ((Q, det_policy), w') ↔
  ∃ s_t1 w1 a_t1 w2 st,
    env_reset E w = Some (s_t1, w1) ∧
    sample_action E (uniform_policy (env_nS E) (env_nA E)) s_t1 w1
      = Some (a_t1, w2) ∧
    for_steps (sarsa_step E gamma alpha) 0 iterations
      {| sarsa_Q := np_zeros2 (env_nS E) (env_nA E);
         sarsa_policy := uniform_policy (env_nS E) (env_nA E);
         sarsa_s := s_t1; sarsa_a := a_t1 |} w2 = Some (st, w') ∧
    sarsa_Q st = Q ∧ np_argmax_rows (env_nA E) Q = Some det_policy.
Proof.
  unfold td_sarsa. split.
  - intros (s_t1 & w1 & Hreset & H)%bind_inv.
    apply bind_inv in H as (a_t1 & w2 & Hsample & H).
    apply bind_inv in H as (st & w3 & Hloop & H).
    apply bind_inv in H as (det & w4 & [Hdet ->]%lift_inv & H).
    apply ret_inv in H as [[= -> ->] ->].
    by exists s_t1, w1, a_t1, w2, st.
  - intros (s_t1 & w1 & a_t1 & w2 & st & Hreset & Hsample & Hloop & <- & Hdet).
    rewrite (bind_Some_l _ _ _ _ _ Hreset).
    rewrite (bind_Some_l _ _ _ _ _ Hsample).
    rewrite (bind_Some_l _ _ _ _ _ Hloop). unfold bind, lift, ret.
    by rewrite Hdet.
Qed.

Lemma qlearning_Some gamma alpha (iterations : nat) w w' (Q : table)
    (det_policy : list nat) :
  qlearning E iterations gamma alpha w = Some ((Q, det_policy), w') ↔
  ∃ s_t1 w1 st,
    env_reset E w = Some (s_t1, w1) ∧
    for_steps (qlearning_step E gamma alpha) 0 iterations
      {| ql_Q := np_zeros2 (env_nS E) (env_nA E);
         ql_policy := uniform_policy (env_nS E) (env_nA E);
         ql_s := s_t1 |} w1 = Some (st, w') ∧
    ql_Q st = Q ∧ np_argmax_rows (env_nA E) Q = Some det_policy.
Proof.
  unfold qlearning. split.
  - intros (s_t1 & w1 & Hreset & H)%bind_inv.
    apply bind_inv in H as (st & w3 & Hloop & H).
    apply bind_inv in H as (det & w4 & [Hdet ->]%lift_inv & H).
    apply ret_inv in H as [[= -> ->] ->].
    by exists s_t1, w1, st.
  - intros (s_t1 & w1 & st & Hreset & Hloop & <- & Hdet).
    rewrite (bind_Some_l _ _ _ _ _ Hreset).
    rewrite (bind_Some_l _ _ _ _ _ Hloop). unfold bind, lift, ret.
    by rewrite Hdet.
Qed.
End results.

(** X11: whatever the three control loops return is well formed: the Q
    table has shape [(nS, nA)], and the deterministic policy is greedy for
    that very table, one action per state, ties going to the lowest
    index. *)
Theorem control_loops_return_greedy (E : Sim) (iterations : nat)
    (gamma alpha : Qc) (w w' : world E) (Q : table) (det_policy : list nat) :
  mc_glie E iterations gamma w = Some ((Q, det_policy), w') ∨
  td_sarsa E iterations gamma alpha w = Some ((Q, det_policy), w') ∨
  qlearning E iterations gamma alpha w = Some ((Q, det_policy), w') →
  shape (env_nS E) (env_nA E) Q ∧
  length det_policy = env_nS E ∧
  greedy_for Q det_policy.
Proof.
  intros H.
  assert (shape (env_nS E) (env_nA E) Q ∧
          np_argmax_rows (env_nA E) Q = Some det_policy) as [HQ Hdet].
  { destruct H as [H|[H|H]].
    - apply mc_glie_Some in H as (N & policy & Hloop & Hdet).
      split; [|done].
      apply (for_steps_invariant E
               (λ st, shape (env_nS E) (env_nA E) st.1.1)) in Hloop;
        [done| |apply shape_replicate].
      intros t [[Q0 N0] policy0] [[Q1 N1] policy1] w0 w1 HQ0 Hstep.
      simpl in *.
      by destruct (mc_glie_step_invariant E _ _ _ _ _ _ _ _ _ _ HQ0 Hstep).
    - apply td_sarsa_Some in H
        as (s_t1 & w1 & a_t1 & w2 & st & _ & _ & Hloop & <- & Hdet).
      split; [|done].
      apply (for_steps_invariant E
               (λ st, shape (env_nS E) (env_nA E) (sarsa_Q st) ∧
                      shape (env_nS E) (env_nA E) (sarsa_policy st)))
        in Hloop; [by destruct Hloop| |].
      + intros t st0 st1 w0 w0'. apply sarsa_step_shape.
      + split; [apply shape_replicate|apply uniform_policy_shape].
    - apply qlearning_Some in H as (s_t1 & w1 & st & _ & Hloop & <- & Hdet).
      split; [|done].
      apply (for_steps_invariant E
               (λ st, shape (env_nS E) (env_nA E) (ql_Q st) ∧
                      shape (env_nS E) (env_nA E) (ql_policy st)))
        in Hloop; [by destruct Hloop| |].
      + intros t st0 st1 w0 w0'. apply qlearning_step_shape.
      + split; [apply shape_replicate|apply uniform_policy_shape]. }
  apply np_argmax_rows_greedy in Hdet.
  split_and!; [done| |done].
  destruct Hdet as [-> _]. by destruct HQ.
Qed.

(** ** Bounds on the learned values *)

Lemma Qc_eq_this (x y : Qc) : x = y → (this x == this y)%Q.
Proof. by intros ->. Qed.

(** Order goals over [Qc], sent to the rationals [Q] and their solvers. *)
Ltac qc_arith tac :=
  repeat match goal with
         | H : @eq Qc _ _ |- _ => apply Qc_eq_this in H
         end;
  try apply Qc_is_canon;
  repeat (progress (unfold Qcle, Qclt, Qcminus, Qcplus, Qcmult, Qcopp, Q2Qc in *;
                    cbn [this] in *));
  rewrite ?Qred_correct in *;
  tac.

Lemma td_update_within (alpha q T lo hi : Qc) :
  0 ≤ alpha → alpha ≤ 1 → lo ≤ q ∧ q ≤ hi → lo ≤ T ∧ T ≤ hi →
  lo ≤ q + alpha * (T - q) ∧ q + alpha * (T - q) ≤ hi.
Proof. intros ?? [??] [??]. split; qc_arith nra. Qed.

Lemma td_target_within (gamma r v lo hi : Qc) :
  0 ≤ gamma → lo ≤ r + gamma * lo → r + gamma * hi ≤ hi →
  lo ≤ v ∧ v ≤ hi →
  lo ≤ r + gamma * v ∧ r + gamma * v ≤ hi.
Proof. intros ??? [??]. split; qc_arith nra. Qed.

Lemma discounted_bounds (gamma rmin rmax r : Qc) :
  0 ≤ gamma → gamma < 1 → rmin ≤ 0 → 0 ≤ rmax → rmin ≤ r → r ≤ rmax →
  let lo := rmin / (1 - gamma) in
  let hi := rmax / (1 - gamma) in
  (lo ≤ 0 ∧ 0 ≤ hi) ∧ lo ≤ r + gamma * lo ∧ r + gamma * hi ≤ hi.
Proof.
  intros Hg0 Hg1 Hmin Hmax Hr0 Hr1 lo hi.
  assert (1 - gamma ≠ 0) as Hne.
  { intros Heq. qc_arith lra. }
  assert (lo * (1 - gamma) = rmin) as Hlo by (unfold lo; by field).
  assert (hi * (1 - gamma) = rmax) as Hhi by (unfold hi; by field).
  clearbody lo hi. clear Hne. split_and!; qc_arith nra.
Qed.

Lemma table_within_tget (lo hi : Qc) (T : table) (s a : nat) (x : Qc) :
  table_within lo hi T → tget T s a = Some x → lo ≤ x ∧ x ≤ hi.
Proof.
  intros HT (row & Hrow & Hx)%tget_Some.
  eapply Forall_lookup_1 in HT; [|done].
  by eapply Forall_lookup_1 in HT.
Qed.

Lemma table_within_tset (lo hi : Qc) (T T' : table) (s a : nat) (v : Qc) :
  table_within lo hi T → lo ≤ v ∧ v ≤ hi → tset T s a v = Some T' →
  table_within lo hi T'.
Proof.
  intros HT Hv (row & Hrow & Ha & ->)%tset_Some.
  apply Forall_insert; [done|]. apply Forall_insert; [|done].
  by eapply Forall_lookup_1 in HT.
Qed.

Lemma table_within_amax (lo hi : Qc) (T : table) (s : nat) (row : list Qc)
    (m : Qc) :
  table_within lo hi T → T !! s = Some row → np_amax row = Some m →
  lo ≤ m ∧ m ≤ hi.
Proof.
  intros HT Hrow [Hin _]%np_amax_is_row_max.
  eapply Forall_lookup_1 in HT; [|done].
  rewrite list.Forall_forall in HT. by apply HT.
Qed.

Lemma table_within_zeros (lo hi : Qc) (nS nA : nat) :
  lo ≤ 0 → 0 ≤ hi → table_within lo hi (np_zeros2 nS nA).
Proof. intros. by apply Forall_replicate, Forall_replicate. Qed.

(** X12: if every reward lies in [[rmin, rmax]] (with [rmin <= 0 <= rmax]),
    [0 <= gamma < 1] and [0 <= alpha <= 1], then every entry of the Q
    table returned by [td_sarsa] or by [qlearning] lies between
    [rmin / (1 - gamma)] and [rmax / (1 - gamma)]. *)
Theorem td_values_bounded (E : Sim) (rmin rmax gamma alpha : Qc)
    (iterations : nat) (w w' : world E) (Q : table) (det_policy : list nat) :
  rewards_within E rmin rmax → rmin ≤ 0 → 0 ≤ rmax →
  0 ≤ gamma → gamma < 1 → 0 ≤ alpha → alpha ≤ 1 →
  td_sarsa E iterations gamma alpha w = Some ((Q, det_policy), w') ∨
  qlearning E iterations gamma alpha w = Some ((Q, det_policy), w') →
  table_within (rmin / (1 - gamma)) (rmax / (1 - gamma)) Q.
Proof.
  intros Hrew Hmin Hmax Hg0 Hg1 Ha0 Ha1 H.
  set (lo := rmin / (1 - gamma)). set (hi := rmax / (1 - gamma)).
  assert (lo ≤ 0 ∧ 0 ≤ hi) as [Hlo Hhi]
    by (by apply (discounted_bounds gamma rmin rmax 0)).
  assert (∀ a w0 s r done w1 v,
            env_step E a w0 = Some (s, r, done, w1) →
            lo ≤ v ∧ v ≤ hi → lo ≤ r + gamma * v ∧ r + gamma * v ≤ hi)
    as Htarget.
  { intros a w0 s r done w1 v [Hr0 Hr1]%Hrew Hv.
    destruct (discounted_bounds gamma rmin rmax r) as (_ & ? & ?); [done..|].
    by apply td_target_within. }
  destruct H as [H|H].
  - apply td_sarsa_Some in H
      as (s_t1 & w1 & a_t1 & w2 & st & _ & _ & Hloop & <- & _).
    apply (for_steps_invariant E (λ st, table_within lo hi (sarsa_Q st)))
      in Hloop; [done| |by apply table_within_zeros].
    intros t st0 st1 w0 w0' HQ0
      (s_next & reward & done & w3 & a_next & w4 & policy' &
       Hstep & _ & HQ & _)%sarsa_step_Some.
    apply sarsa_update_Some in HQ as (q & q_next & Hq & Hqn & Hset).
    eapply table_within_tset; [done| |done].
    apply td_update_within; [done..|by eapply table_within_tget|].
    eapply Htarget; [done|by eapply table_within_tget].
  - apply qlearning_Some in H as (s_t1 & w1 & st & _ & Hloop & <- & _).
    apply (for_steps_invariant E (λ st, table_within lo hi (ql_Q st)))
      in Hloop; [done| |by apply table_within_zeros].
    intros t st0 st1 w0 w0' HQ0
      (action & w3 & s_next & reward & done & w4 & policy' &
       _ & Hstep & HQ & _)%qlearning_step_Some.
    apply qlearning_update_Some in HQ as (row & m & q & Hrow & Hm & Hq & Hset).
    eapply table_within_tset; [done| |done].
    apply td_update_within; [done..|by eapply table_within_tget|].
    eapply Htarget; [done|by eapply table_within_amax].
Qed.

(** ** Evaluation and rendering of a fixed policy *)

Section glue.
Context (E : Sim).
Implicit Types (w : world E) (policy : list nat).

Lemma performance_episode_S policy (n state : nat) (sum_returns : Qc) w
    (r : Qc * world E) :
  performance_episode E policy (S n) state sum_returns w = Some r ↔
  ∃ action state' reward done w1,
    policy !! state = Some action ∧
    env_step E action w = Some (state', reward, done, w1) ∧
    if done then r = (sum_returns + reward, w1)
    else performance_episode E policy n state' sum_returns w1 = Some r.
Proof.
  cbn [performance_episode]. split.
  - intros (action & w0 & [Hact ->]%lift_inv & H)%bind_inv.
    apply bind_inv in H as ([[state' reward] done] & w1 & Hstep & H).
    exists action, state', reward, done, w1. split_and!; [done..|].
    destruct done; [|done]. destruct r. by apply ret_inv in H as [-> ->].
  - intros (action & state' & reward & done & w1 & Hact & Hstep & H).
    unfold bind at 1, lift. rewrite Hact.
    rewrite (bind_Some_l _ _ _ _ _ Hstep). destruct done; [by subst|done].
Qed.

Lemma performance_episode_within policy (rmin rmax : Qc) (n state : nat)
    (sum_returns sum' : Qc) w w' :
  rewards_within E rmin rmax → rmin ≤ 0 → 0 ≤ rmax →
  performance_episode E policy n state sum_returns w = Some (sum', w') →
  sum_returns + rmin ≤ sum' ∧ sum' ≤ sum_returns + rmax.
Proof.
  intros Hrew Hmin Hmax. revert state w.
  induction n as [|n IH]; intros state w H.
  - apply ret_inv in H as [-> _]. split; qc_arith lra.
  - apply performance_episode_S in H
      as (action & state' & reward & done & w1 & _ & Hstep & H).
    destruct done; [|by eapply IH].
    injection H as -> ->. apply Hrew in Hstep as [??]. split; qc_arith lra.
Qed.

Lemma performance_loop_within policy (rmin rmax : Qc) (max_steps t n : nat)
    (sum_returns sum' : Qc) w w' :
  rewards_within E rmin rmax → rmin ≤ 0 → 0 ≤ rmax →
  for_steps
    (λ i sum_returns,
       bind (env_reset E)
         (λ state, performance_episode E policy max_steps state sum_returns))
    t n sum_returns w = Some (sum', w') →
  sum_returns + Qc_of_nat n * rmin ≤ sum' ∧
  sum' ≤ sum_returns + Qc_of_nat n * rmax.
Proof.
  intros Hrew Hmin Hmax. revert t sum_returns w.
  induction n as [|n IH]; intros t sum_returns w H.
  - apply ret_inv in H as [-> _]. rewrite Qc_of_nat_0. split; qc_arith lra.
  - cbn [for_steps] in H. apply bind_inv in H as (sum1 & w1 & H1 & H).
    apply bind_inv in H1 as (state & w0 & _ & H1).
    apply (performance_episode_within _ rmin rmax) in H1 as [??]; [|done..].
    apply IH in H as [??]. rewrite Qc_of_nat_S.
    generalize dependent (Qc_of_nat n). intros N ??. split; qc_arith lra.
Qed.

(** The loops of [render_single] and [test_performance] run in step when
    rendering leaves the world alone and only terminal steps pay. *)
Lemma render_loop_performance policy (n ob : nat) (episode_reward er' : Qc)
    (done0 done' : option bool) (sum_returns : Qc) w w' :
  terminal_rewards_only E →
  render_loop E (ret ()) policy n ob episode_reward done0 w
    = Some ((er', done'), w') →
  (n = 0%nat ∧ er' = episode_reward ∧ done' = done0 ∧ w' = w) ∨
  ((0 < n)%nat ∧ ∃ d,
     done' = Some d ∧
     performance_episode E policy n ob sum_returns w =
     Some (if d then sum_returns + (er' - episode_reward) else sum_returns,
           w') ∧
     (d = false → er' = episode_reward)).
Proof.
  intros Hterm. revert ob episode_reward done0 w.
  induction n as [|n IH]; intros ob episode_reward done0 w H.
  - apply ret_inv in H as [[= -> ->] ->]. by left.
  - right. split; [lia|]. cbn [render_loop] in H.
    apply bind_inv in H as ([] & w0 & [_ ->]%ret_inv & H).
    apply bind_inv in H as (a & w0 & [Ha ->]%lift_inv & H).
    apply bind_inv in H as ([[ob' rew] done] & w1 & Hstep & H).
    destruct done.
    + apply ret_inv in H as [[= -> ->] ->]. exists true.
      split_and!; [done| |done].
      apply performance_episode_S. exists a, ob', rew, true, w1.
      split_and!; [done..|]. f_equal. f_equal. ring.
    + pose proof (Hterm _ _ _ _ _ _ Hstep eq_refl) as ->.
      assert (episode_reward + 0 = episode_reward) as H0 by ring.
      rewrite H0 in H.
      apply IH in H as [(-> & -> & -> & ->)|(Hn & d & -> & Hperf & Hsame)].
      * exists false. split_and!; [done| |done].
        apply performance_episode_S. exists a, ob', 0, false, w1.
        by split_and!.
      * exists d. split_and!; [done| |done].
        apply performance_episode_S. exists a, ob', 0, false, w1.
        by split_and!.
Qed.
End glue.

(** X13: [test_performance] on zero episodes raises whatever the
    environment and the policy: it divides the empty sum by
    [nb_episodes = 0]. *)
Theorem test_performance_no_episode (E : Sim) (policy : list nat)
    (max_steps : nat) (w : world E) :
  test_performance E policy 0 max_steps w = None.
Proof.
  unfold test_performance. cbn [for_steps]. unfold bind, ret, lift.
  by rewrite Qc_of_nat_0.
Qed.

(** X14: if every reward lies in [[rmin, rmax]] with [rmin <= 0 <= rmax],
    the percentage [test_performance] reports lies between [100 * rmin]
    and [100 * rmax]; on the frozen lake, between 0 and 100. *)
Theorem test_performance_within (E : Sim) (rmin rmax : Qc)
    (policy : list nat) (nb_episodes max_steps : nat) (w w' : world E)
    (rate : Qc) :
  rewards_within E rmin rmax → rmin ≤ 0 → 0 ≤ rmax →
  test_performance E policy nb_episodes max_steps w = Some (rate, w') →
  Qc_of_nat 100 * rmin ≤ rate ∧ rate ≤ Qc_of_nat 100 * rmax.
Proof.
  intros Hrew Hmin Hmax (sum & w1 & Hloop & H)%bind_inv.
  apply bind_inv in H as (rate' & w2 & [[Hne ->]%py_div_Some ->]%lift_inv & H).
  apply ret_inv in H as [-> ->].
  apply (performance_loop_within E _ rmin rmax) in Hloop as [Hlo Hhi];
    [|done..].
  assert (0 < Qc_of_nat nb_episodes) as Hpos.
  { apply Qc_of_nat_pos. destruct nb_episodes; [|lia].
    by rewrite Qc_of_nat_0 in Hne. }
  assert (0 ≤ Qc_of_nat 100) as H100 by (apply Qclt_le_weak, Qc_of_nat_pos; lia).
  assert (sum / Qc_of_nat nb_episodes * Qc_of_nat nb_episodes = sum) as Hdiv
    by (by field).
  generalize dependent (sum / Qc_of_nat nb_episodes). intros mean Hdiv.
  generalize dependent (Qc_of_nat nb_episodes). intros N ?????.
  generalize dependent (Qc_of_nat 100). intros C ?.
  assert (rmin ≤ mean ∧ mean ≤ rmax) as [??] by (split; qc_arith nra).
  split; qc_arith nra.
Qed.

(** X15: [render_single] with [max_steps = 0] raises whatever the
    environment: its loop never binds [done], which it reads after the
    loop. *)
Theorem render_single_unbound_done (E : Sim) (render : M (world E) ())
    (policy : list nat) (w : world E) :
  render_single E render policy 0 w = None.
Proof.
  unfold render_single. cbn [render_loop]. unfold bind, ret, lift.
  destruct (env_reset E w) as [[ob w0]|]; [|done].
  by destruct (render w0) as [[[] w1]|].
Qed.

(** X16: when rendering leaves the world alone and only the step that ends
    an episode is rewarded, the two evaluators agree: if [render_single]
    prints an episode reward [r] (or that no terminal state was reached),
    [test_performance] on one episode from the same world reports
    [100 * r] (or 0), and leaves the same world behind. *)
Theorem render_single_matches_test_performance (E : Sim)
    (policy : list nat) (max_steps : nat) (w w' : world E)
    (message : option Qc) :
  terminal_rewards_only E →
  render_single E (ret ()) policy max_steps w = Some (message, w') →
  test_performance E policy 1 max_steps w
  = Some (default 0 message * Qc_of_nat 100, w').
Proof.
  intros Hterm (ob & w0 & Hreset & H)%bind_inv.
  apply bind_inv in H as ([er' done'] & w1 & Hloop & H).
  apply bind_inv in H as ([] & w2 & [_ ->]%ret_inv & H).
  apply bind_inv in H as (d & w2 & [-> ->]%lift_inv & H).
  pose proof (render_loop_performance E _ _ _ _ _ _ _ 0 _ _ Hterm Hloop)
    as [(_ & _ & Hd & _)|(Hn & d' & [= <-] & Hperf & Hsame)];
    [discriminate Hd|].
  unfold test_performance. cbn [for_steps].
  unfold bind at 1 2 3. rewrite Hreset, Hperf. unfold ret at 1.
  unfold bind, lift, ret. rewrite py_div_ne
    by (apply Qc_of_nat_ne_0; lia).
  assert (Qc_of_nat 1 = 1) as -> by apply Z2Qc_inj_1.
  destruct d; simpl in H; apply ret_inv in H as [-> ->]; simpl;
    f_equal; f_equal; by field.
Qed.

(** ** Bounds on the returns and on the Monte Carlo values *)

Lemma discounted_return_within (gamma rmin rmax : Qc) (rewards : list Qc)
    (i : nat) :
  0 ≤ gamma → gamma < 1 → rmin ≤ 0 → 0 ≤ rmax →
  Forall (λ r, rmin ≤ r ∧ r ≤ rmax) rewards →
  rmin / (1 - gamma) ≤ discounted_return gamma rewards i ∧
  discounted_return gamma rewards i ≤ rmax / (1 - gamma).
Proof.
  intros Hg0 Hg1 Hmin Hmax Hrew.
  remember (length rewards - i)%nat as k eqn:Hk. revert i Hk.
  induction k as [|k IH]; intros i Hk.
  - rewrite discounted_return_ge by lia.
    by destruct (discounted_bounds gamma rmin rmax 0) as ([??] & _).
  - destruct (lookup_lt_is_Some_2 rewards i) as [r Hr]; [lia|].
    rewrite (discounted_return_step _ _ _ r) by done.
    pose proof (Forall_lookup_1 _ _ _ _ Hrew Hr) as [??].
    destruct (discounted_bounds gamma rmin rmax r) as (_ & ? & ?); [done..|].
    apply td_target_within; [done..|]. apply IH. lia.
Qed.

(** X17: if every reward of an episode lies in [[rmin, rmax]] (with
    [rmin <= 0 <= rmax]) and [0 <= gamma < 1], then every return lies
    between [rmin / (1 - gamma)] and [rmax / (1 - gamma)], however long
    the episode. *)
Theorem generate_returns_within (gamma rmin rmax : Qc)
    (episode : list triple) :
  0 ≤ gamma → gamma < 1 → rmin ≤ 0 → 0 ≤ rmax →
  Forall (λ ep, rmin ≤ triple_reward ep ∧ triple_reward ep ≤ rmax) episode →
  Forall (λ G, rmin / (1 - gamma) ≤ G ∧ G ≤ rmax / (1 - gamma))
    (generate_returns episode gamma).
Proof.
  intros Hg0 Hg1 Hmin Hmax Hrew. apply Forall_lookup_2. intros i G HG.
  rewrite lookup_generate_returns in HG. case_decide; [|done].
  injection HG as <-. apply discounted_return_within; [done..|].
  by apply Forall_fmap.
Qed.

Lemma incremental_mean_within (cnt q G lo hi : Qc) :
  0 ≤ cnt → lo ≤ q ∧ q ≤ hi → lo ≤ G ∧ G ≤ hi →
  lo ≤ q + (G - q) / (cnt + 1) ∧ q + (G - q) / (cnt + 1) ≤ hi.
Proof.
  intros Hcnt Hq HG.
  destruct (Qc_succ_nonneg cnt Hcnt) as [_ Hne].
  set (x := / (cnt + 1)).
  assert (x * (cnt + 1) = 1) as Hx by (unfold x; by field).
  replace (q + (G - q) / (cnt + 1)) with (q + x * (G - q))
    by (unfold x; by field).
  clearbody x. clear Hne.
  apply td_update_within; [| |done..]; qc_arith nra.
Qed.

Lemma mc_evaluate_episode_within (nS nA : nat) (episode : list triple)
    (Q_value n_visits : table) (gamma lo hi : Qc) (Q' N' : table) :
  table_within lo hi Q_value → nonnegative n_visits →
  Forall (λ G, lo ≤ G ∧ G ≤ hi) (generate_returns episode gamma) →
  mc_evaluate_episode nS nA episode Q_value n_visits gamma = Some (Q', N') →
  table_within lo hi Q' ∧ nonnegative N'.
Proof.
  intros HQ HN Hret H. unfold mc_evaluate_episode in H.
  apply (for_range_invariant
           (λ tables, table_within lo hi tables.1 ∧ nonnegative tables.2))
    in H; [done| |done].
  intros i [Q N] [Q1 N1] _ [HQ0 HN0]
    (ep & G & _ & _ & _ & HG & Hupd)%mc_visit_Some.
  simpl in *.
  apply mc_update_Some in Hupd as (cnt & q & Hcnt & HN1 & Hq & _ & HQ1 & _).
  pose proof (nonnegative_tget _ _ _ _ HN0 Hcnt) as Hcnt0.
  split.
  - eapply table_within_tset; [done| |done].
    apply incremental_mean_within; [done|by eapply table_within_tget|].
    by eapply Forall_lookup_1 in Hret.
  - eapply nonnegative_tset; [done| |done]. by apply Qc_succ_nonneg.
Qed.

Section episode_rewards.
Context (E : Sim).

Lemma episode_loop_rewards_within (rmin rmax : Qc) (policy : table) (n : nat)
    (episode : list triple) (s : nat) (w w' : world E)
    (episode' : list triple) :
  rewards_within E rmin rmax →
  Forall (λ ep, rmin ≤ triple_reward ep ∧ triple_reward ep ≤ rmax) episode →
  episode_loop E policy n episode s w = Some (episode', w') →
  Forall (λ ep, rmin ≤ triple_reward ep ∧ triple_reward ep ≤ rmax) episode'.
Proof.
  intros Hrew. revert episode s w.
  induction n as [|n IH]; intros episode s w Hep H.
  - by apply ret_inv in H as [-> _].
  - cbn [episode_loop] in H.
    apply bind_inv in H as ([[[a r] next] done] & w1 & Hstep & H).
    apply bind_inv in Hstep as (a' & w0 & _ & Hstep).
    apply bind_inv in Hstep as ([[s' r'] d'] & w2 & Hstep & Hret).
    apply ret_inv in Hret as [[= <- <- <- <-] ->].
    assert (Forall (λ ep, rmin ≤ triple_reward ep ∧ triple_reward ep ≤ rmax)
              (episode ++ [(s, a, r)])) as Hep'.
    { apply Forall_app. split; [done|]. apply Forall_singleton.
      by apply Hrew in Hstep. }
    destruct done; [by apply ret_inv in H as [-> _]|by eapply IH].
Qed.
End episode_rewards.

(** X18: under the same assumptions on rewards and [gamma], every entry
    of the Q table returned by [mc_glie] lies between
    [rmin / (1 - gamma)] and [rmax / (1 - gamma)]. *)
Theorem mc_values_bounded (E : Sim) (rmin rmax gamma : Qc)
    (iterations : nat) (w w' : world E) (Q : table) (det_policy : list nat) :
  rewards_within E rmin rmax → rmin ≤ 0 → 0 ≤ rmax →
  0 ≤ gamma → gamma < 1 →
  mc_glie E iterations gamma w = Some ((Q, det_policy), w') →
  table_within (rmin / (1 - gamma)) (rmax / (1 - gamma)) Q.
Proof.
  intros Hrew Hmin Hmax Hg0 Hg1 (N & policy & Hloop & _)%mc_glie_Some.
  destruct (discounted_bounds gamma rmin rmax 0) as ([Hlo Hhi] & _); [done..|].
  apply (for_steps_invariant E
           (λ st, table_within (rmin / (1 - gamma)) (rmax / (1 - gamma)) st.1.1
                  ∧ nonnegative st.1.2)) in Hloop; [by destruct Hloop| |].
  - intros t [[Q0 N0] policy0] [[Q1 N1] policy1] w0 w1 [HQ0 HN0] Hstep.
    simpl in *. unfold mc_glie_step, mc_policy_evaluation in Hstep.
    apply bind_inv in Hstep as ([Q2 N2] & w2 & Heval & Hstep).
    apply bind_inv in Heval as (episode & w3 & Hep & [Heval ->]%lift_inv).
    apply bind_inv in Hstep as (policy2 & w4 & _ & Hstep).
    apply ret_inv in Hstep as [[= -> -> ->] _].
    apply bind_inv in Hep as (s0 & w5 & _ & Hep).
    apply (episode_loop_rewards_within E rmin rmax) in Hep; [|done..].
    eapply mc_evaluate_episode_within; [done..| |done].
    apply Forall_lookup_2. intros i G HG.
    rewrite lookup_generate_returns in HG. case_decide; [|done].
    injection HG as <-. apply discounted_return_within; [done..|].
    by apply Forall_fmap.
  - split; [by apply table_within_zeros|].
    unfold nonnegative. simpl. by apply Forall_replicate, Forall_replicate.
Qed.

(** ** SARSA against Q-learning *)

(** X19: when the action drawn at the successor state attains the maximum
    of its Q row, the SARSA update and the Q-learning update coincide:
    both raise or both give the same table. *)
Theorem sarsa_update_greedy_is_qlearning (Q_value : table) (s a : nat)
    (r : Qc) (s' a' : nat) (gamma alpha : Qc) (row : list Qc) (m : Qc) :
  Q_value !! s' = Some row → row !! a' = Some m → is_row_max row m →
  sarsa_update Q_value s a r s' a' gamma alpha =
  qlearning_update Q_value s a r s' gamma alpha.
Proof.
  intros Hrow Ha Hm%np_amax_is_row_max.
  unfold sarsa_update, qlearning_update.
  rewrite Hrow. cbn [mbind option_bind]. rewrite Hm. cbn [mbind option_bind].
  destruct (tget Q_value s a) as [q|]; [|done]. cbn [mbind option_bind].
  assert (tget Q_value s' a' = Some m) as ->; [|done].
  apply tget_Some. by exists row.
Qed.

(** ** Exploration never dies *)

Lemma Qc_div_nat_pos (x : Qc) (n : nat) :
  0 < x → (0 < n)%nat → 0 < x / Qc_of_nat n.
Proof.
  intros Hx Hn. apply Qc_of_nat_pos in Hn.
  set (y := x / Qc_of_nat n).
  assert (y * Qc_of_nat n = x) as Hy
    by (unfold y; field; by apply not_symmetry, Qclt_not_eq).
  clearbody y. generalize dependent (Qc_of_nat n). intros N ??.
  qc_arith nra.
Qed.

Lemma glie_epsilon_pos (t : nat) : 0 < glie_epsilon t.
Proof. unfold glie_epsilon. apply Qc_div_nat_pos; [done|lia]. Qed.

Lemma greedy_row_positive (row : list Qc) (m epsilon : Qc) (nA : nat) :
  0 < epsilon → epsilon ≤ 1 →
  Forall (λ x, 0 < x) (greedy_row row m epsilon nA).
Proof.
  intros H0 H1. unfold greedy_row. apply Forall_fmap, list.Forall_forall.
  intros i Hi%elem_of_seq. simpl.
  assert (0 < epsilon / Qc_of_nat nA) as He by (apply Qc_div_nat_pos; [done|lia]).
  case_bool_decide; [|done].
  apply Qcplus_nonneg_pos; [|done].
  apply Qc_div_nat_nonneg. unfold Qcminus.
  by apply (proj1 (Qcle_minus_iff _ _)).
Qed.

Lemma refresh_policy_row_positive (Q_value policy : table)
    (s_t1 nS nA t : nat) (policy' : table) :
  shape nS nA policy → (s_t1 < nS)%nat → positive policy →
  refresh_policy_row Q_value policy s_t1 nA t = Some policy' →
  positive policy'.
Proof.
  intros HP Hs Hpos
    (row & m & Hrow & Hm & ->)%(refresh_policy_row_Some _ _ _ nS); [|done..].
  apply Forall_insert; [done|].
  apply greedy_row_positive; [apply glie_epsilon_pos|apply glie_epsilon_range].
Qed.

Lemma uniform_policy_positive (nS nA : nat) :
  (0 < nA)%nat → positive (uniform_policy nS nA).
Proof.
  intros HnA. unfold positive, uniform_policy, np_ones2, np_ones.
  rewrite !fmap_replicate. apply Forall_replicate, Forall_replicate.
  by apply Qc_div_nat_pos.
Qed.

(** X20: exploration never dies.  With at least one action, the policy
    table the three loops sample from has only positive entries at every
    iteration: the uniform start policy has, the policy
    [mc_glie] derives after each episode has, and each step of [td_sarsa]
    and of [qlearning] keeps it so. *)
Theorem policies_keep_exploring (E : Sim) :
  (0 < env_nA E)%nat →
  positive (uniform_policy (env_nS E) (env_nA E)) ∧
  (∀ gamma k Q N policy Q' N' policy' (w w' : world E),
     mc_glie_step E gamma k (Q, N, policy) w = Some ((Q', N', policy'), w') →
     positive policy') ∧
  (∀ gamma alpha t st st' (w w' : world E),
     shape (env_nS E) (env_nA E) (sarsa_Q st) →
     shape (env_nS E) (env_nA E) (sarsa_policy st) →
     positive (sarsa_policy st) →
     sarsa_step E gamma alpha t st w = Some (st', w') →
     positive (sarsa_policy st')) ∧
  (∀ gamma alpha t st st' (w w' : world E),
     shape (env_nS E) (env_nA E) (ql_Q st) →
     shape (env_nS E) (env_nA E) (ql_policy st) →
     positive (ql_policy st) →
     qlearning_step E gamma alpha t st w = Some (st', w') →
     positive (ql_policy st')).
Proof.
  intros HnA. split_and!.
  - by apply uniform_policy_positive.
  - intros * H. unfold mc_glie_step, mc_policy_evaluation in H.
    apply bind_inv in H as ([Q1 N1] & w1 & _ & H).
    apply bind_inv in H as (policy1 & w2 & [Himp ->]%lift_inv & H).
    apply ret_inv in H as [[= -> -> ->] _].
    apply epsilon_greedy_policy_improve_rows in Himp as [HP Hrows].
    apply Forall_lookup_2. intros s prow Hprow.
    destruct (shape_lookup_length _ _ _ _ _ HP Hprow) as [_ Hs].
    destruct (Hrows s Hs) as (row & m & _ & _ & HPs).
    rewrite Hprow in HPs. injection HPs as ->.
    apply greedy_row_positive; [apply glie_epsilon_pos|apply glie_epsilon_range].
  - intros * HQ HP Hpos
      (s_next & reward & done & w1 & a_next & w2 & policy' &
       _ & _ & HQ' & HP' & -> & _)%sarsa_step_Some.
    apply sarsa_update_Some in HQ' as (q & q' & _ & _ & HQ').
    destruct (tset_in_range _ _ _ _ _ _ _ HQ HQ') as [Hs _].
    exact (refresh_policy_row_positive _ _ _ _ _ _ _ HP Hs Hpos HP').
  - intros * HQ HP Hpos
      (action & w1 & s_next & reward & done & w2 & policy' &
       _ & _ & HQ' & HP' & -> & _)%qlearning_step_Some.
    apply qlearning_update_Some in HQ' as (row' & m & q & _ & _ & _ & HQ').
    destruct (tset_in_range _ _ _ _ _ _ _ HQ HQ') as [Hs _].
    exact (refresh_policy_row_positive _ _ _ _ _ _ _ HP Hs Hpos HP').
Qed.

(** ** The further theorems at concrete inputs *)

Lemma corridor_rewards_within (n : nat) : rewards_within (corridor_sim n) 0 1.
Proof.
  intros a w s r done w' H. simpl in H. unfold corridor_step in H.
  destruct (decide (a < 2)%nat); [|discriminate H].
  injection H as <- <- <- <-.
  destruct (bool_decide _); split; by_evaluation.
Defined.

Lemma corridor_terminal_rewards_only (n : nat) :
  terminal_rewards_only (corridor_sim n).
Proof.
  intros a w s r done w' H Hdone. simpl in H. unfold corridor_step in H.
  destruct (decide (a < 2)%nat); [|discriminate H].
  injection H as <- <- <- <-.
  destruct (bool_decide _); [discriminate Hdone|reflexivity].
Defined.

Lemma generate_returns_backward_witness :
  docstring_episode !! 1%nat = Some (4%nat, 2%nat, frac (-1) 1) ∧
  generate_returns docstring_episode (frac 9 10) !! 1%nat =
  Some (triple_reward (4%nat, 2%nat, frac (-1) 1)
        + frac 9 10
          * default 0 (generate_returns docstring_episode (frac 9 10) !! 2%nat)).
Proof.
  split; [reflexivity|].
  apply (generate_returns_backward docstring_episode (frac 9 10) 1).
  reflexivity.
Defined.

Lemma generate_returns_extreme_discounts_witness :
  (2 < length docstring_episode)%nat ∧
  generate_returns docstring_episode 1 !! 2%nat =
  Some (Qc_sum (drop 2 (triple_reward <$> docstring_episode))).
Proof.
  split; [simpl; lia|].
  apply (proj2 (generate_returns_extreme_discounts docstring_episode)).
  simpl; lia.
Defined.



Lemma mc_evaluate_episode_frame_witness :
  mc_evaluate_episode 3 2 revisit_episode (np_zeros2 3 2) (np_zeros2 3 2)
    (frac 1 2) = Some (revisit_Q, revisit_N) ∧
  occurrences 2 0 revisit_episode = 0%nat ∧
  tget revisit_Q 2 0 = tget (np_zeros2 3 2) 2 0 ∧
  tget revisit_N 2 0 = tget (np_zeros2 3 2) 2 0.
Proof.
  assert (mc_evaluate_episode 3 2 revisit_episode (np_zeros2 3 2)
            (np_zeros2 3 2) (frac 1 2) = Some (revisit_Q, revisit_N)) as H
    by by_evaluation.
  split; [exact H|]. split; [reflexivity|].
  exact (mc_evaluate_episode_frame 3 2 _ _ _ _ _ _ 2 0 H eq_refl).
Defined.

Lemma mc_evaluate_episode_running_mean_witness :
  mc_evaluate_episode 3 2 revisit_episode (np_zeros2 3 2) (np_zeros2 3 2)
    (frac 1 2) = Some (revisit_Q, revisit_N) ∧
  tget (np_zeros2 3 2) 2 1 = Some 0 ∧
  tget revisit_N 2 1 = Some (0 + Qc_of_nat (occurrences 2 1 revisit_episode)) ∧
  ∃ q', tget revisit_Q 2 1 = Some q' ∧
    (0 + Qc_of_nat (occurrences 2 1 revisit_episode)) * q' =
    0 * 0 + Qc_sum (visit_returns 2 1
                      (zip revisit_episode
                         (generate_returns revisit_episode (frac 1 2)))).
Proof.
  assert (mc_evaluate_episode 3 2 revisit_episode (np_zeros2 3 2)
            (np_zeros2 3 2) (frac 1 2) = Some (revisit_Q, revisit_N)) as H
    by by_evaluation.
  split; [exact H|]. split; [reflexivity|].
  exact (mc_evaluate_episode_running_mean 3 2 _ _ _ _ _ _ 2 1 0 0 H
           eq_refl eq_refl).
Defined.

Lemma mc_evaluate_episode_succeeds_iff_witness :
  shape 3 2 (np_zeros2 3 2) ∧ nonnegative (np_zeros2 3 2) ∧
  in_range 3 2 revisit_episode ∧
  is_Some (mc_evaluate_episode 3 2 revisit_episode (np_zeros2 3 2)
             (np_zeros2 3 2) (frac 1 2)).
Proof.
  assert (shape 3 2 (np_zeros2 3 2)) as Hs by (unfold shape; by_evaluation).
  assert (nonnegative (np_zeros2 3 2)) as Hn
    by (unfold nonnegative; by_evaluation).
  assert (in_range 3 2 revisit_episode) as Hr
    by (unfold in_range; by_evaluation).
  split; [exact Hs|]. split; [exact Hn|]. split; [exact Hr|].
  exact (proj2 (proj1 (mc_evaluate_episode_succeeds_iff 3 2 revisit_episode
                         _ _ (frac 1 2) Hs Hs Hn)) Hr).
Defined.

Lemma epsilon_greedy_policy_improve_succeeds_iff_witness :
  (4 ≠ 0)%nat ∧
  (∀ s, (s < 1)%nat → ∃ row, tie_Q !! s = Some row ∧ row ≠ []) ∧
  is_Some (epsilon_greedy_policy_improve tie_Q 1 4 (frac 2 10)).
Proof.
  assert (∀ s, (s < 1)%nat → ∃ row, tie_Q !! s = Some row ∧ row ≠ []) as H.
  { intros s Hs. destruct s as [|s]; [|lia]. eexists. split; [reflexivity|].
    discriminate. }
  split; [lia|]. split; [exact H|].
  apply (proj2 (epsilon_greedy_policy_improve_succeeds_iff tie_Q 1 4
                  (frac 2 10))).
  right. split; [lia|exact H].
Defined.

Lemma epsilon_greedy_policy_improve_explore_witness :
  epsilon_greedy_policy_improve tie_Q 1 4 1 = Some (uniform_policy 1 4) ∧
  uniform_policy 1 4 = uniform_policy 1 4.
Proof.
  assert (epsilon_greedy_policy_improve tie_Q 1 4 1
          = Some (uniform_policy 1 4)) as H by by_evaluation.
  split; [exact H|].
  exact (epsilon_greedy_policy_improve_explore tie_Q 1 4 _ H).
Defined.

Lemma epsilon_greedy_policy_improve_prefers_greedy_witness :
  frac 2 10 ≤ 1 ∧
  epsilon_greedy_policy_improve tie_Q 1 4 (frac 2 10) = Some tie_policy ∧
  tget tie_policy 0 0 = Some (frac 19 60) ∧
  frac 2 10 / Qc_of_nat 4 ≤ frac 19 60 ∧
  ∀ row m j pj,
    tie_Q !! 0%nat = Some row → is_row_max row m → row !! 0%nat = Some m →
    tget tie_policy 0 j = Some pj → pj ≤ frac 19 60.
Proof.
  assert (frac 2 10 ≤ 1) as He by by_evaluation.
  assert (epsilon_greedy_policy_improve tie_Q 1 4 (frac 2 10)
          = Some tie_policy) as H by by_evaluation.
  assert (tget tie_policy 0 0 = Some (frac 19 60)) as Hp by by_evaluation.
  split; [exact He|]. split; [exact H|]. split; [exact Hp|].
  exact (epsilon_greedy_policy_improve_prefers_greedy tie_Q 1 4 _ _ 0 0 _
           He H Hp).
Defined.

Lemma epsilon_greedy_policy_improve_greedy_limit_witness :
  epsilon_greedy_policy_improve [[frac 1 1; frac 3 1; frac 2 1]] 1 3 0
    = Some [[0; 1; 0]] ∧
  np_argmax [frac 1 1; frac 3 1; frac 2 1] = Some 1%nat ∧
  (∀ j, j ≠ 1%nat →
     [frac 1 1; frac 3 1; frac 2 1] !! j
     ≠ [frac 1 1; frac 3 1; frac 2 1] !! 1%nat) ∧
  ∀ i, (i < 3)%nat →
    tget [[0; 1; 0]] 0 i = Some (if decide (i = 1%nat) then 1 else 0).
Proof.
  assert (epsilon_greedy_policy_improve [[frac 1 1; frac 3 1; frac 2 1]] 1 3 0
          = Some [[0; 1; 0]]) as H by by_evaluation.
  assert (np_argmax [frac 1 1; frac 3 1; frac 2 1] = Some 1%nat) as Ha
    by by_evaluation.
  assert (∀ j, j ≠ 1%nat →
            [frac 1 1; frac 3 1; frac 2 1] !! j
            ≠ [frac 1 1; frac 3 1; frac 2 1] !! 1%nat) as Hu.
  { intros j Hj. destruct j as [|[|[|j]]]; [| |..]; try discriminate.
    by destruct Hj. }
  split; [exact H|]. split; [exact Ha|]. split; [exact Hu|].
  exact (epsilon_greedy_policy_improve_greedy_limit _ 1 3 _ 0 1 _ H
           ltac:(lia) eq_refl Ha Hu).
Defined.

Lemma control_loops_return_greedy_witness :
  qlearning (corridor_sim 3) 2 (frac 9 10) (frac 1 10) corridor_start
    = Some ((corridor_ql_Q, [0%nat; 1%nat; 0%nat]),
            {| cw_pos := 0; cw_draws := [1%nat; 1%nat] |}) ∧
  shape 3 2 corridor_ql_Q ∧
  length [0%nat; 1%nat; 0%nat] = 3%nat ∧
  greedy_for corridor_ql_Q [0%nat; 1%nat; 0%nat].
Proof.
  assert (qlearning (corridor_sim 3) 2 (frac 9 10) (frac 1 10) corridor_start
          = Some ((corridor_ql_Q, [0%nat; 1%nat; 0%nat]),
                  {| cw_pos := 0; cw_draws := [1%nat; 1%nat] |})) as H
    by by_evaluation.
  split; [exact H|].
  exact (control_loops_return_greedy (corridor_sim 3) 2 _ _ _ _ _ _
           (or_intror (or_intror H))).
Defined.

Lemma td_values_bounded_witness :
  rewards_within (corridor_sim 3) 0 1 ∧
  0 ≤ frac 9 10 ∧ frac 9 10 < 1 ∧ 0 ≤ frac 1 10 ∧ frac 1 10 ≤ 1 ∧
  td_sarsa (corridor_sim 3) 2 (frac 9 10) (frac 1 10) corridor_start
    = Some ((corridor_ql_Q, [0%nat; 1%nat; 0%nat]),
            {| cw_pos := 0; cw_draws := [] |}) ∧
  table_within (0 / (1 - frac 9 10)) (1 / (1 - frac 9 10)) corridor_ql_Q.
Proof.
  assert (td_sarsa (corridor_sim 3) 2 (frac 9 10) (frac 1 10) corridor_start
          = Some ((corridor_ql_Q, [0%nat; 1%nat; 0%nat]),
                  {| cw_pos := 0; cw_draws := [] |})) as H
    by by_evaluation.
  assert (0 ≤ frac 9 10) as Hg0 by by_evaluation.
  assert (frac 9 10 < 1) as Hg1 by by_evaluation.
  assert (0 ≤ frac 1 10) as Ha0 by by_evaluation.
  assert (frac 1 10 ≤ 1) as Ha1 by by_evaluation.
  split_and!; [exact (corridor_rewards_within 3)|done..|].
  exact (td_values_bounded (corridor_sim 3) 0 1 _ _ 2 _ _ _ _
           (corridor_rewards_within 3) ltac:(by_evaluation)
           ltac:(by_evaluation) Hg0 Hg1 Ha0 Ha1 (or_introl H)).
Defined.

Lemma test_performance_within_witness :
  rewards_within (corridor_sim 3) 0 1 ∧
  test_performance (corridor_sim 3) go_right 2 5 corridor_start
    = Some (frac 100 1, {| cw_pos := 2; cw_draws := cw_draws corridor_start |}) ∧
  Qc_of_nat 100 * 0 ≤ frac 100 1 ∧ frac 100 1 ≤ Qc_of_nat 100 * 1.
Proof.
  assert (test_performance (corridor_sim 3) go_right 2 5 corridor_start
          = Some (frac 100 1,
                  {| cw_pos := 2; cw_draws := cw_draws corridor_start |})) as H
    by by_evaluation.
  split_and!; [exact (corridor_rewards_within 3)|exact H|..];
    apply (test_performance_within (corridor_sim 3) 0 1 _ _ _ _ _ _
             (corridor_rewards_within 3) ltac:(by_evaluation)
             ltac:(by_evaluation) H).
Defined.

Lemma render_single_matches_test_performance_witness :
  terminal_rewards_only (corridor_sim 3) ∧
  render_single (corridor_sim 3) (ret ()) go_right 5 corridor_start
    = Some (Some 1,
            {| cw_pos := 2; cw_draws := cw_draws corridor_start |}) ∧
  test_performance (corridor_sim 3) go_right 1 5 corridor_start
    = Some (default 0 (Some 1) * Qc_of_nat 100,
            {| cw_pos := 2; cw_draws := cw_draws corridor_start |}).
Proof.
  assert (render_single (corridor_sim 3) (ret ()) go_right 5 corridor_start
          = Some (Some 1,
                  {| cw_pos := 2; cw_draws := cw_draws corridor_start |})) as H
    by by_evaluation.
  split_and!; [exact (corridor_terminal_rewards_only 3)|exact H|].
  exact (render_single_matches_test_performance (corridor_sim 3) _ _ _ _ _
           (corridor_terminal_rewards_only 3) H).
Defined.

Lemma generate_returns_within_witness :
  0 ≤ frac 9 10 ∧ frac 9 10 < 1 ∧ frac (-1) 1 ≤ 0 ∧ 0 ≤ frac 2 1 ∧
  Forall (λ ep, frac (-1) 1 ≤ triple_reward ep ∧ triple_reward ep ≤ frac 2 1)
    docstring_episode ∧
  Forall (λ G, frac (-1) 1 / (1 - frac 9 10) ≤ G ∧
               G ≤ frac 2 1 / (1 - frac 9 10))
    (generate_returns docstring_episode (frac 9 10)).
Proof.
  assert (0 ≤ frac 9 10) as Hg0 by by_evaluation.
  assert (frac 9 10 < 1) as Hg1 by by_evaluation.
  assert (frac (-1) 1 ≤ 0) as Hmin by by_evaluation.
  assert (0 ≤ frac 2 1) as Hmax by by_evaluation.
  assert (Forall (λ ep, frac (-1) 1 ≤ triple_reward ep ∧
                        triple_reward ep ≤ frac 2 1) docstring_episode) as Hr
    by by_evaluation.
  split_and!; [done..|].
  exact (generate_returns_within _ _ _ _ Hg0 Hg1 Hmin Hmax Hr).
Defined.

Lemma mc_values_bounded_witness :
  rewards_within (corridor_sim 3) 0 1 ∧
  0 ≤ frac 9 10 ∧ frac 9 10 < 1 ∧
  mc_glie (corridor_sim 3) 1 (frac 9 10) corridor_start
    = Some ((corridor_mc_Q, [1%nat; 1%nat; 0%nat]),
            {| cw_pos := 2; cw_draws := [1%nat; 1%nat] |}) ∧
  table_within (0 / (1 - frac 9 10)) (1 / (1 - frac 9 10)) corridor_mc_Q.
Proof.
  assert (mc_glie (corridor_sim 3) 1 (frac 9 10) corridor_start
          = Some ((corridor_mc_Q, [1%nat; 1%nat; 0%nat]),
                  {| cw_pos := 2; cw_draws := [1%nat; 1%nat] |})) as H
    by by_evaluation.
  assert (0 ≤ frac 9 10) as Hg0 by by_evaluation.
  assert (frac 9 10 < 1) as Hg1 by by_evaluation.
  split_and!; [exact (corridor_rewards_within 3)|done..|].
  exact (mc_values_bounded (corridor_sim 3) 0 1 _ 1 _ _ _ _
           (corridor_rewards_within 3) ltac:(by_evaluation)
           ltac:(by_evaluation) Hg0 Hg1 H).
Defined.

Lemma sarsa_update_greedy_is_qlearning_witness :
  demo_Q !! 1%nat = Some [1; frac 2 1] ∧
  [1; frac 2 1] !! 1%nat = Some (frac 2 1) ∧
  is_row_max [1; frac 2 1] (frac 2 1) ∧
  sarsa_update demo_Q 0 1 1 1 1 (frac 9 10) (frac 1 10) =
  qlearning_update demo_Q 0 1 1 1 (frac 9 10) (frac 1 10).
Proof.
  assert (is_row_max [1; frac 2 1] (frac 2 1)) as Hm
    by (split; [by_evaluation|];
        apply (proj1 (list.Forall_forall (λ x, x ≤ frac 2 1) _));
        by_evaluation).
  split_and!; [reflexivity|reflexivity|exact Hm|].
  exact (sarsa_update_greedy_is_qlearning demo_Q 0 1 1 1 1 _ _ _ _
           eq_refl eq_refl Hm).
Defined.

Lemma policies_keep_exploring_witness :
  (0 < env_nA (replay_sim 3 2))%nat ∧
  positive (uniform_policy 3 2) ∧
  sarsa_step (replay_sim 3 2) (frac 9 10) (frac 1 10) 0 demo_sarsa_state
    (demo_world false [0%nat; 1%nat])
    = Some (demo_sarsa_carry, demo_world_end [1%nat]) ∧
  positive (sarsa_policy demo_sarsa_carry).
Proof.
  assert (0 < env_nA (replay_sim 3 2))%nat as HnA by (simpl; lia).
  assert (sarsa_step (replay_sim 3 2) (frac 9 10) (frac 1 10) 0
            demo_sarsa_state (demo_world false [0%nat; 1%nat])
          = Some (demo_sarsa_carry, demo_world_end [1%nat])) as Hstep
    by by_evaluation.
  assert (shape 3 2 demo_Q) as HQ by (unfold shape; by_evaluation).
  split; [exact HnA|].
  split; [exact (proj1 (policies_keep_exploring (replay_sim 3 2) HnA))|].
  split; [exact Hstep|].
  exact (proj1 (proj2 (proj2 (policies_keep_exploring (replay_sim 3 2) HnA)))
           (frac 9 10) (frac 1 10) 0%nat demo_sarsa_state demo_sarsa_carry
           _ _ HQ (uniform_policy_shape 3 2)
           (proj1 (policies_keep_exploring (replay_sim 3 2) HnA)) Hstep).
Defined.
